(** * A shallow embedding of the promise core and its ES6 combinators

    The development follows [src/core.comments.js]: the first part of the
    file is [core.js] (constructor, [then], [handle], [handleResolved],
    [resolve], [reject], [finale], [Handler], [doResolve]); the second part
    is [es6-extensions.js] ([Promise.resolve], [Promise.all],
    [Promise.allSettled], [Promise.reject], [Promise.race], [catch],
    [Promise.any]).

    JavaScript objects live in an explicit store: promises are indices into
    a heap of records, the [done] flag of each [doResolve] activation is a
    cell of a latch store, and the scheduler ([asap]) is a FIFO queue of
    suspended [handleResolved] closures.  Closures created by the library are
    defunctionalised ([Fn], [Executor]); functions supplied by the user are
    a parameter of the development.

    Scope of the model.  Handlers written by the user are functions from
    their argument to a returned value or a raised exception; start
    routines and the [then] of foreign objects are scripts that call their
    two callbacks synchronously and then return or raise (a callback kept
    for later is called through [call1] by whoever holds it).  Only direct
    instances of [Promise] are modelled, so [safeThen] is left out, and the
    two hooks [Promise._onHandle] and [Promise._onReject] stay [null] as the
    source sets them.  The loop of [handle] over adoption chains and the
    mutual recursion of the resolution procedure are bounded by fuel. *)

From Stdlib Require Import ZArith List String Bool Lia.
From stdpp Require Import base list.
Import ListNotations.
Local Open Scope Z_scope.

(** ** Values *)

(** One-argument callables.  [FnUser n] is the [n]-th function supplied by
    the user (its behaviour is given by the section variable [user_fn]
    below); the other constructors are the closures the library itself
    creates. *)
Inductive Fn : Type :=
| FnUser (n : nat)
| FnResolveCb (latch promise : nat)   (* doResolve: function (value) {...}  *)
| FnRejectCb (latch promise : nat)    (* doResolve: function (reason) {...} *)
| FnAllRes (env : nat) (i : nat)      (* all: function (val) { res(i, val) } *)
| FnOnSettledFulfill
| FnOnSettledReject
| FnAnyResolveOnce (env : nat)
| FnAnyRejectionCheck (env : nat).

(** The numbers that occur: the integers and the negative zero, which [===]
    does not tell from [0].  ([NaN], the infinities and the fractions are
    left out: no function of the library treats them apart from any other
    number that is not zero.) *)
Inductive JsNumber : Type :=
| NInt (z : Z)
| NNegZero.
Coercion NInt : Z >-> JsNumber.

(** [a === b] on numbers. *)
Definition number_equal (a b : JsNumber) : bool :=
  match a, b with
  | NInt x, NInt y => Z.eqb x y
  | NNegZero, NNegZero => true
  | NInt x, NNegZero | NNegZero, NInt x => Z.eqb x 0
  end.

#[warnings="-register-all"]
Inductive Value : Type :=
| VUndefined
| VNull
| VBool (b : bool)
| VNum (n : JsNumber)
| VStr (s : string)
| VPromise (p : nat)                      (* an instance of this Promise *)
| VArray (xs : list Value)
| VTypeError (msg : string)
| VAggregateError (errors : list Value) (msg : string)
| VSettled (status : string) (payload : Value)  (* {status, value|reason} *)
| VObject (then_ : ThenProp)              (* any other object *)
| VFunction (f : Fn)
with ThenProp : Type :=
| ThenAbsent                              (* typeof obj.then !== 'function' *)
| ThenThrows (ex : Value)                 (* reading obj.then raises ex *)
| ThenFn (calls : list Action) (raises : option Value)
with Action : Type :=
| CallResolve (v : Value)                 (* resolve(v) *)
| CallReject (v : Value).                 (* reject(v)  *)

(** A start routine written by the user: it calls its two callbacks in the
    given order and then returns, or raises. *)
Definition Script : Type := (list Action * option Value)%type.

(** Two-argument callables given to [new Promise] or [doResolve]. *)
Inductive Executor : Type :=
| ExScript (body : Script)                (* user routine, or then.bind(obj) *)
| ExAll (args : list Value)
| ExReject (v : Value)
| ExRace (values : list Value)
| ExAny (values : list Value).

(** ** The store *)

(** [new Handler(onFulfilled, onRejected, promise)] after its two [typeof]
    tests: [None] is [null]. *)
Record Handler := mkHandler {
  onFulfilled : option Fn;
  onRejected : option Fn;
  promise : nat
}.

Inductive Deferreds :=
| DNull
| DOne (d : Handler)
| DMany (ds : list Handler).

Record PromiseRec := mkPromise {
  _deferredState : Z;
  _state : Z;
  _value : Value;
  _deferreds : Deferreds
}.

(** Closure variables of one [Promise.all] call. *)
Record AllEnv := mkAllEnv {
  all_args : list Value;
  all_remaining : Z;
  all_resolve : Fn;
  all_reject : Fn
}.

(** Closure variables of one [Promise.any] call. *)
Record AnyEnv := mkAnyEnv {
  any_length : nat;                       (* promises.length *)
  any_hasResolved : bool;
  any_rejectionReasons : list Value;
  any_resolve : Fn;
  any_reject : Fn
}.

(** A closure handed to [asap] by [handleResolved]. *)
Definition Task : Type := (nat * Handler)%type.

Record State := mkState {
  heap : list PromiseRec;
  latches : list bool;
  queue : list Task;
  allEnvs : list AllEnv;
  anyEnvs : list AnyEnv
}.

(** ** Results *)

(** [Thrown] is a JavaScript exception (the store keeps the writes made
    before it); [Ill] marks a store that breaks the representation the
    library maintains for its private fields (a dangling reference, a
    [_deferreds] field that does not fit [_deferredState]), whose behaviour
    is not modelled; [OutOfFuel] is a computation cut by the fuel bound. *)
Inductive Res (A : Type) : Type :=
| Ok (a : A) (s : State)
| Thrown (ex : Value) (s : State)
| Ill
| OutOfFuel.
Arguments Ok {A} a s.
Arguments Thrown {A} ex s.
Arguments Ill {A}.
Arguments OutOfFuel {A}.

Definition M (A : Type) : Type := State -> Res A.

Definition ret {A} (a : A) : M A := fun s => Ok a s.
Definition throw {A} (ex : Value) : M A := fun s => Thrown ex s.
Definition ill {A} : M A := fun _ => Ill.
Definition bind {A B} (c : M A) (k : A -> M B) : M B :=
  fun s => match c s with
           | Ok a s' => k a s'
           | Thrown ex s' => Thrown ex s'
           | Ill => Ill
           | OutOfFuel => OutOfFuel
           end.

Notation "x <- c ;; k" := (bind c (fun x => k))
  (at level 100, c at next level, right associativity).
Notation "c ;;; k" := (bind c (fun _ => k))
  (at level 100, right associativity).

(** [try { c } catch (ex) { return IS_ERROR }]: [inr ex] is the marker
    [IS_ERROR] together with the content of [LAST_ERROR], which every caller
    reads right after the call. *)
Definition try_catch {A} (c : M A) : M (A + Value) :=
  fun s => match c s with
           | Ok a s' => Ok (inl a) s'
           | Thrown ex s' => Ok (inr ex) s'
           | Ill => Ill
           | OutOfFuel => OutOfFuel
           end.

Definition get_promise (p : nat) : M PromiseRec :=
  fun s => match heap s !! p with
           | Some r => Ok r s
           | None => Ill
           end.

Definition set_heap (h : list PromiseRec) (s : State) : State :=
  mkState h (latches s) (queue s) (allEnvs s) (anyEnvs s).

Definition put_promise (p : nat) (r : PromiseRec) : M unit :=
  fun s => match heap s !! p with
           | Some _ => Ok tt (set_heap (<[p := r]> (heap s)) s)
           | None => Ill
           end.

Definition modify_promise (p : nat) (f : PromiseRec -> PromiseRec) : M unit :=
  r <- get_promise p ;; put_promise p (f r).

Definition set_state (st : Z) (r : PromiseRec) : PromiseRec :=
  mkPromise (_deferredState r) st (_value r) (_deferreds r).
Definition set_value (v : Value) (r : PromiseRec) : PromiseRec :=
  mkPromise (_deferredState r) (_state r) v (_deferreds r).
Definition set_deferredState (n : Z) (r : PromiseRec) : PromiseRec :=
  mkPromise n (_state r) (_value r) (_deferreds r).
Definition set_deferreds (d : Deferreds) (r : PromiseRec) : PromiseRec :=
  mkPromise (_deferredState r) (_state r) (_value r) d.

(** [new Promise(noop)]: the four field initialisations, no [doResolve]. *)
Definition new_noop : M nat :=
  fun s => Ok (length (heap s))
              (set_heap (heap s ++ [mkPromise 0 0 VNull DNull]) s).

(** [asap(task)]. *)
Definition asap (t : Task) : M unit :=
  fun s => Ok tt (mkState (heap s) (latches s) (queue s ++ [t])
                          (allEnvs s) (anyEnvs s)).

(** [var done = false] of a fresh [doResolve] activation. *)
Definition new_latch : M nat :=
  fun s => Ok (length (latches s))
              (mkState (heap s) (latches s ++ [false]) (queue s)
                       (allEnvs s) (anyEnvs s)).

Definition get_done (l : nat) : M bool :=
  fun s => match latches s !! l with
           | Some b => Ok b s
           | None => Ill
           end.

Definition set_done (l : nat) : M unit :=
  fun s => match latches s !! l with
           | Some _ => Ok tt (mkState (heap s) (<[l := true]> (latches s))
                                      (queue s) (allEnvs s) (anyEnvs s))
           | None => Ill
           end.

Definition out_of_fuel {A} : M A := fun _ => OutOfFuel.

(** [for (...) body(x)] over a list. *)
Fixpoint for_each {A} (body : A -> M unit) (xs : list A) : M unit :=
  match xs with
  | [] => ret tt
  | x :: xs' => body x ;;; for_each body xs'
  end.

(** [xs.map(f)], left to right; an exception of [f] ends the loop. *)
Fixpoint map_m {A B} (f : A -> M B) (xs : list A) : M (list B) :=
  match xs with
  | [] => ret []
  | x :: xs' => y <- f x ;; ys <- map_m f xs' ;; ret (y :: ys)
  end.

(** ** core.js *)

(** [typeof v === 'function' ? v : null], as in [Handler]. *)
Definition as_callable (v : Value) : option Fn :=
  match v with
  | VFunction f => Some f
  | _ => None
  end.

Definition new_Handler (onFulfilled onRejected : Value) (promise : nat)
  : Handler :=
  mkHandler (as_callable onFulfilled) (as_callable onRejected) promise.

(** [v && (typeof v === 'object' || typeof v === 'function')]. *)
Definition is_object_or_function (v : Value) : bool :=
  match v with
  | VUndefined | VNull | VBool _ | VNum _ | VStr _ => false
  | _ => true
  end.

(** [v === self] for a promise [self]. *)
Definition is_promise (v : Value) (self : nat) : bool :=
  match v with
  | VPromise q => Nat.eqb q self
  | _ => false
  end.

(** What [obj.then] evaluates to. *)
Inductive ThenValue : Type :=
| PromiseThen                   (* Promise.prototype.then *)
| ThenFunction (body : Script)  (* any other function *)
| ThenOther.                    (* a value that is not a function *)

(** [obj.then], which raises when the property has a getter that raises.
    Only the instances of [Promise] have [Promise.prototype.then]. *)
Definition read_then (obj : Value) : M ThenValue :=
  match obj with
  | VPromise _ => ret PromiseThen
  | VObject (ThenThrows ex) => throw ex
  | VObject (ThenFn calls raises) => ret (ThenFunction (calls, raises))
  | _ => ret ThenOther
  end.

Definition getThen (obj : Value) : M (ThenValue + Value) :=
  try_catch (read_then obj).

Definition tryCallOne (call : Fn -> Value -> M Value) (fn : Fn) (a : Value)
  : M (Value + Value) :=
  try_catch (call fn a).

Definition tryCallTwo (call : Executor -> Fn -> Fn -> M unit) (fn : Executor)
    (a b : Fn) : M (unit + Value) :=
  try_catch (call fn a b).

(** [while (self._state === 3) self = self._value]. *)
Fixpoint follow (fuel : nat) (self : nat) : M nat :=
  match fuel with
  | O => out_of_fuel
  | S fuel' =>
      r <- get_promise self ;;
      if _state r =? 3 then
        match _value r with
        | VPromise q => follow fuel' q
        | _ => ill
        end
      else ret self
  end.

Definition handleResolved (self : nat) (deferred : Handler) : M unit :=
  asap (self, deferred).

(** [Promise._onHandle] is [null] in this source and is never assigned. *)
Definition handle (fuel : nat) (self : nat) (deferred : Handler) : M unit :=
  self <- follow fuel self ;;
  r <- get_promise self ;;
  if _state r =? 0 then
    if _deferredState r =? 0 then
      put_promise self (set_deferreds (DOne deferred) (set_deferredState 1 r))
    else if _deferredState r =? 1 then
      match _deferreds r with
      | DOne d0 =>
          put_promise self
            (set_deferreds (DMany [d0; deferred]) (set_deferredState 2 r))
      | _ => ill
      end
    else
      match _deferreds r with
      | DMany ds =>
          put_promise self (set_deferreds (DMany (ds ++ [deferred])) r)
      | _ => ill
      end
  else handleResolved self deferred.

(** [finale] reads [self._deferreds[i]] again at each turn of its loop; the
    calls of [handle] in between only write to pending promises and [self] is
    settled when [finale] runs, so the loop ranges over the list read first. *)
Definition finale (fuel : nat) (self : nat) : M unit :=
  r <- get_promise self ;;
  (if _deferredState r =? 1 then
     match _deferreds r with
     | DOne d =>
         handle fuel self d ;;; modify_promise self (set_deferreds DNull)
     | _ => ill
     end
   else ret tt) ;;;
  r <- get_promise self ;;
  if _deferredState r =? 2 then
    match _deferreds r with
    | DMany ds =>
        for_each (handle fuel self) ds ;;;
        modify_promise self (set_deferreds DNull)
    | _ => ill
    end
  else ret tt.

(** [Promise._onReject] is [null] in this source and is never assigned. *)
Definition reject (fuel : nat) (self : nat) (newValue : Value) : M unit :=
  modify_promise self (set_state 2) ;;;
  modify_promise self (set_value newValue) ;;;
  finale fuel self.

(** The last three statements of [resolve]. *)
Definition fulfill (fuel : nat) (self : nat) (newValue : Value) : M unit :=
  modify_promise self (set_state 1) ;;;
  modify_promise self (set_value newValue) ;;;
  finale fuel self.

(** The adoption branch of [resolve]. *)
Definition adopt (fuel : nat) (self : nat) (newValue : Value) : M unit :=
  modify_promise self (set_state 3) ;;;
  modify_promise self (set_value newValue) ;;;
  finale fuel self.

Definition self_resolution_error : Value :=
  VTypeError "A promise cannot be resolved with itself.".

(** [Promise.prototype.then] on an instance whose constructor is [Promise]
    (subclasses, and so [safeThen], are outside the model). *)
Definition then_ (fuel : nat) (self : nat) (onFulfilled onRejected : Value)
  : M nat :=
  res <- new_noop ;;
  handle fuel self (new_Handler onFulfilled onRejected res) ;;;
  ret res.

(** [new Promise(fn)] for a callable [fn] other than [noop]. *)
Definition new_Promise (doResolve : Executor -> nat -> M unit) (fn : Executor)
  : M nat :=
  p <- new_noop ;;
  doResolve fn p ;;;
  ret p.

(** ** es6-extensions.js: store of the closures *)

(** The six promises made by [valuePromise] when the module is loaded. *)
Definition TRUE : nat := 0%nat.
Definition FALSE : nat := 1%nat.
Definition NULL : nat := 2%nat.
Definition UNDEFINED : nat := 3%nat.
Definition ZERO : nat := 4%nat.
Definition EMPTYSTRING : nat := 5%nat.

Definition valuePromise_rec (value : Value) : PromiseRec :=
  mkPromise 0 1 value DNull.

Definition valuePromise (value : Value) : M nat :=
  fun s => Ok (length (heap s))
              (set_heap (heap s ++ [valuePromise_rec value]) s).

Definition init_state : State :=
  mkState [valuePromise_rec (VBool true); valuePromise_rec (VBool false);
           valuePromise_rec VNull; valuePromise_rec VUndefined;
           valuePromise_rec (VNum 0); valuePromise_rec (VStr "")]
          [] [] [] [].

Definition new_allEnv (e : AllEnv) : M nat :=
  fun s => Ok (length (allEnvs s))
              (mkState (heap s) (latches s) (queue s) (allEnvs s ++ [e])
                       (anyEnvs s)).
Definition get_allEnv (n : nat) : M AllEnv :=
  fun s => match allEnvs s !! n with
           | Some e => Ok e s
           | None => Ill
           end.
Definition put_allEnv (n : nat) (e : AllEnv) : M unit :=
  fun s => Ok tt (mkState (heap s) (latches s) (queue s)
                          (<[n := e]> (allEnvs s)) (anyEnvs s)).

Definition new_anyEnv (e : AnyEnv) : M nat :=
  fun s => Ok (length (anyEnvs s))
              (mkState (heap s) (latches s) (queue s) (allEnvs s)
                       (anyEnvs s ++ [e])).
Definition get_anyEnv (n : nat) : M AnyEnv :=
  fun s => match anyEnvs s !! n with
           | Some e => Ok e s
           | None => Ill
           end.
Definition put_anyEnv (n : nat) (e : AnyEnv) : M unit :=
  fun s => Ok tt (mkState (heap s) (latches s) (queue s) (allEnvs s)
                          (<[n := e]> (anyEnvs s))).

Definition onSettledFulfill (value : Value) : Value :=
  VSettled "fulfilled" value.
Definition onSettledReject (reason : Value) : Value :=
  VSettled "rejected" reason.

Definition getAggregateError (errors : list Value) : Value :=
  VAggregateError errors "All promises were rejected".

(** [Promise.prototype['catch']]. *)
Definition Promise_catch (fuel : nat) (self : nat) (onRejected : Value)
  : M nat :=
  then_ fuel self VNull onRejected.

(** [value === c] for a primitive constant [c]. *)
Definition strict_equal (value c : Value) : bool :=
  match value, c with
  | VNull, VNull => true
  | VUndefined, VUndefined => true
  | VBool a, VBool b => Bool.eqb a b
  | VNum n, VNum m => number_equal n m
  | VStr a, VStr b => String.eqb a b
  | _, _ => false
  end.

(** [Promise.resolve]; [doResolve] is the knot of the interpreter below. *)
Definition Promise_resolve_with (doResolve : Executor -> nat -> M unit)
    (value : Value) : M nat :=
  match value with
  | VPromise p => ret p
  | _ =>
      if strict_equal value VNull then ret NULL
      else if strict_equal value VUndefined then ret UNDEFINED
      else if strict_equal value (VBool true) then ret TRUE
      else if strict_equal value (VBool false) then ret FALSE
      else if strict_equal value (VNum 0) then ret ZERO
      else if strict_equal value (VStr "") then ret EMPTYSTRING
      else if is_object_or_function value then
        then' <- try_catch (read_then value) ;;
        match then' with
        | inl (ThenFunction then_bind_value) =>
            new_Promise doResolve (ExScript then_bind_value)
        | inl _ => valuePromise value
        | inr ex => new_Promise doResolve (ExReject ex)
        end
      else valuePromise value
  end.

(** The functions written by the user: [user_fn n a] is what the [n]-th one
    does when called with [a], [inl v] for [return v] and [inr ex] for
    [throw ex]. *)
Definition UserFns : Type := nat -> Value -> Value + Value.

Section Interpreter.

Variable user_fn : UserFns.

(** In [resolve], [then === self.then && newValue instanceof Promise] is
    the case [PromiseThen]: [self] is a direct instance, so [self.then] is
    [Promise.prototype.then], which only instances of [Promise] have. *)
Fixpoint resolve (fuel : nat) (self : nat) (newValue : Value) {struct fuel}
  : M unit :=
  if is_promise newValue self then reject fuel self self_resolution_error
  else if is_object_or_function newValue then
    then' <- getThen newValue ;;
    match then' with
    | inr LAST_ERROR => reject fuel self LAST_ERROR
    | inl PromiseThen => adopt fuel self newValue
    | inl (ThenFunction then_bind_newValue) =>
        match fuel with
        | O => out_of_fuel
        | S fuel' => doResolve fuel' (ExScript then_bind_newValue) self
        end
    | inl ThenOther => fulfill fuel self newValue
    end
  else fulfill fuel self newValue

with doResolve (fuel : nat) (fn : Executor) (promise : nat) {struct fuel}
  : M unit :=
  match fuel with
  | O => out_of_fuel
  | S fuel' =>
      done <- new_latch ;;
      res <- tryCallTwo (call2 fuel') fn (FnResolveCb done promise)
                        (FnRejectCb done promise) ;;
      d <- get_done done ;;
      match res with
      | inr LAST_ERROR =>
          if negb d then set_done done ;;; reject fuel promise LAST_ERROR
          else ret tt
      | inl _ => ret tt
      end
  end

(** [fn(a)] for a one-argument callable. *)
with call1 (fuel : nat) (fn : Fn) (a : Value) {struct fuel} : M Value :=
  match fn with
  | FnUser n =>
      match user_fn n a with
      | inl v => ret v
      | inr ex => throw ex
      end
  | FnResolveCb done promise =>
      d <- get_done done ;;
      if d then ret VUndefined
      else
        set_done done ;;;
        match fuel with
        | O => out_of_fuel
        | S fuel' => resolve fuel' promise a
        end ;;;
        ret VUndefined
  | FnRejectCb done promise =>
      d <- get_done done ;;
      if d then ret VUndefined
      else set_done done ;;; reject fuel promise a ;;; ret VUndefined
  | FnAllRes env i =>
      match fuel with
      | O => out_of_fuel
      | S fuel' => all_res fuel' env i a
      end ;;;
      ret VUndefined
  | FnOnSettledFulfill => ret (onSettledFulfill a)
  | FnOnSettledReject => ret (onSettledReject a)
  | FnAnyResolveOnce env =>
      e <- get_anyEnv env ;;
      if any_hasResolved e then ret VUndefined
      else
        put_anyEnv env (mkAnyEnv (any_length e) true (any_rejectionReasons e)
                                 (any_resolve e) (any_reject e)) ;;;
        match fuel with
        | O => out_of_fuel
        | S fuel' => call1 fuel' (any_resolve e) a
        end ;;;
        ret VUndefined
  | FnAnyRejectionCheck env =>
      e <- get_anyEnv env ;;
      let rejectionReasons := any_rejectionReasons e ++ [a] in
      put_anyEnv env (mkAnyEnv (any_length e) (any_hasResolved e)
                               rejectionReasons (any_resolve e)
                               (any_reject e)) ;;;
      (if Nat.eqb (length rejectionReasons) (any_length e) then
         match fuel with
         | O => out_of_fuel
         | S fuel' =>
             call1 fuel' (any_reject e) (getAggregateError rejectionReasons)
         end ;;; ret tt
       else ret tt) ;;;
      ret VUndefined
  end

(** [fn(resolve, reject)] for a two-argument callable. *)
with call2 (fuel : nat) (fn : Executor) (resolve_ reject_ : Fn) {struct fuel}
  : M unit :=
  match fuel with
  | O => out_of_fuel
  | S fuel' =>
      match fn with
      | ExScript (calls, raises) =>
          for_each (fun c =>
                      match c with
                      | CallResolve v => call1 fuel' resolve_ v ;;; ret tt
                      | CallReject v => call1 fuel' reject_ v ;;; ret tt
                      end) calls ;;;
          match raises with
          | Some ex => throw ex
          | None => ret tt
          end
      | ExAll args =>
          if Nat.eqb (length args) 0 then
            call1 fuel' resolve_ (VArray []) ;;; ret tt
          else
            env <- new_allEnv (mkAllEnv args (Z.of_nat (length args))
                                        resolve_ reject_) ;;
            for_each (fun iv => all_res fuel' env (fst iv) (snd iv))
                     (imap (fun i v => (i, v)) args)
      | ExReject v => call1 fuel' reject_ v ;;; ret tt
      | ExRace values =>
          for_each (fun value =>
                      p <- Promise_resolve_with (doResolve fuel') value ;;
                      then_ fuel p (VFunction resolve_) (VFunction reject_) ;;;
                      ret tt) values
      | ExAny values =>
          env <- new_anyEnv (mkAnyEnv (length values) false [] resolve_
                                      reject_) ;;
          if Nat.eqb (length values) 0 then
            call1 fuel' reject_ (getAggregateError []) ;;; ret tt
          else
            for_each (fun value =>
                        p <- Promise_resolve_with (doResolve fuel') value ;;
                        then_ fuel p (VFunction (FnAnyResolveOnce env))
                              (VFunction (FnAnyRejectionCheck env)) ;;;
                        ret tt) values
      end
  end

(** The function [res(i, val)] of [Promise.all].  The closures that the
    library creates have [i < args.length], so [args[i] = val] replaces an
    element. *)
with all_res (fuel : nat) (env : nat) (i : nat) (val : Value) {struct fuel}
  : M unit :=
  match fuel with
  | O => out_of_fuel
  | S fuel' =>
      e <- get_allEnv env ;;
      let store :=
        let args := <[i := val]> (all_args e) in
        let remaining := all_remaining e - 1 in
        put_allEnv env (mkAllEnv args remaining (all_resolve e)
                                 (all_reject e)) ;;;
        if remaining =? 0 then
          call1 fuel' (all_resolve e) (VArray args) ;;; ret tt
        else ret tt in
      match val with
      | VPromise p =>
          val <- follow fuel p ;;
          r <- get_promise val ;;
          if _state r =? 1 then all_res fuel' env i (_value r)
          else
            (if _state r =? 2 then
               call1 fuel' (all_reject e) (_value r) ;;; ret tt
             else ret tt) ;;;
            then_ fuel val (VFunction (FnAllRes env i))
                  (VFunction (all_reject e)) ;;;
            ret tt
      | _ =>
          if is_object_or_function val then
            then' <- read_then val ;;
            match then' with
            | ThenFunction then_bind_val =>
                p <- new_Promise (doResolve fuel') (ExScript then_bind_val) ;;
                then_ fuel p (VFunction (FnAllRes env i))
                      (VFunction (all_reject e)) ;;;
                ret tt
            | _ => store
            end
          else store
      end
  end.

Definition Promise_resolve (fuel : nat) (value : Value) : M nat :=
  Promise_resolve_with (doResolve fuel) value.

Definition Promise_all (fuel : nat) (arr : list Value) : M nat :=
  new_Promise (doResolve fuel) (ExAll arr).

Definition Promise_reject (fuel : nat) (value : Value) : M nat :=
  new_Promise (doResolve fuel) (ExReject value).

Definition Promise_race (fuel : nat) (values : list Value) : M nat :=
  new_Promise (doResolve fuel) (ExRace values).

Definition Promise_any (fuel : nat) (values : list Value) : M nat :=
  new_Promise (doResolve fuel) (ExAny values).

Definition mapAllSettled (fuel : nat) (item : Value) : M Value :=
  match item with
  | VPromise p =>
      q <- then_ fuel p (VFunction FnOnSettledFulfill)
                 (VFunction FnOnSettledReject) ;;
      ret (VPromise q)
  | _ =>
      if is_object_or_function item then
        then' <- read_then item ;;
        match then' with
        | ThenFunction then_bind_item =>
            p <- new_Promise (doResolve fuel) (ExScript then_bind_item) ;;
            q <- then_ fuel p (VFunction FnOnSettledFulfill)
                       (VFunction FnOnSettledReject) ;;
            ret (VPromise q)
        | _ => ret (onSettledFulfill item)
        end
      else ret (onSettledFulfill item)
  end.

Definition Promise_allSettled (fuel : nat) (iterable : list Value) : M nat :=
  items <- map_m (mapAllSettled fuel) iterable ;;
  Promise_all fuel items.

(** The closure that [handleResolved] hands to [asap]. *)
Definition run_task (fuel : nat) (t : Task) : M unit :=
  let '(self, deferred) := t in
  r <- get_promise self ;;
  let cb := if _state r =? 1 then onFulfilled deferred
            else onRejected deferred in
  match cb with
  | None =>
      if _state r =? 1 then resolve fuel (promise deferred) (_value r)
      else reject fuel (promise deferred) (_value r)
  | Some cb =>
      ret_ <- tryCallOne (call1 fuel) cb (_value r) ;;
      match ret_ with
      | inr LAST_ERROR => reject fuel (promise deferred) LAST_ERROR
      | inl v => resolve fuel (promise deferred) v
      end
  end.

(** The scheduler: takes the oldest closure off the queue and runs it. *)
Definition step (fuel : nat) : M bool :=
  fun s => match queue s with
           | [] => Ok false s
           | t :: q =>
               (run_task fuel t ;;; ret true)
                 (mkState (heap s) (latches s) q (allEnvs s) (anyEnvs s))
           end.

Fixpoint run (fuel : nat) (n : nat) : M unit :=
  match n with
  | O => ret tt
  | S n' => b <- step fuel ;; if b then run fuel n' else ret tt
  end.

End Interpreter.

(** * Vocabulary of the properties *)

(** The [_deferreds] field fits [_deferredState]. *)
Definition wf_deferreds (r : PromiseRec) : bool :=
  if _deferredState r =? 1 then
    match _deferreds r with DOne _ => true | _ => false end
  else if _deferredState r =? 2 then
    match _deferreds r with DMany _ => true | _ => false end
  else true.

(** The continuations registered on a promise, oldest first. *)
Definition waiters (r : PromiseRec) : list Handler :=
  if _deferredState r =? 1 then
    match _deferreds r with DOne d => [d] | _ => [] end
  else if _deferredState r =? 2 then
    match _deferreds r with DMany ds => ds | _ => [] end
  else [].

(** The record of a promise once [finale] has run on it. *)
Definition settled (st : Z) (v : Value) (r : PromiseRec) : PromiseRec :=
  mkPromise (_deferredState r) st v
            (if (_deferredState r =? 1) || (_deferredState r =? 2)
             then DNull else _deferreds r).

(** The store once [self] is settled and its continuations are scheduled. *)
Definition settle_store (st : Z) (v : Value) (self : nat) (r : PromiseRec)
    (s : State) : State :=
  mkState (<[self := settled st v r]> (heap s)) (latches s)
          (queue s ++ map (pair self) (waiters r)) (allEnvs s) (anyEnvs s).

(** [c] raises no exception, whatever the store. *)
Definition no_throw {A} (c : M A) : Prop :=
  forall s ex s', c s <> Thrown ex s'.

(** [keeps I c]: when [c] starts in a store that satisfies [I], the store it
    ends in (normally or with an exception) satisfies [I] too. *)
Definition keeps {A} (I : State -> Prop) (c : M A) : Prop :=
  forall s, I s ->
    match c s with
    | Ok _ s' => I s'
    | Thrown _ s' => I s'
    | Ill => True
    | OutOfFuel => True
    end.

(** The [done] variable with index [l] is [true]. *)
Definition latched (l : nat) (s : State) : Prop :=
  latches s !! l = Some true.

(** The five functions of the interpreter keep [I]. *)
Definition interpreter_keeps (user_fn : UserFns) (I : State -> Prop)
    (fuel : nat) : Prop :=
  (forall self v, keeps I (resolve user_fn fuel self v)) /\
  (forall fn p, keeps I (doResolve user_fn fuel fn p)) /\
  (forall fn a, keeps I (call1 user_fn fuel fn a)) /\
  (forall fn r j, keeps I (call2 user_fn fuel fn r j)) /\
  (forall env i v, keeps I (all_res user_fn fuel env i v)).

(** [typeof v === 'function']. *)
Definition callable (v : Value) : bool :=
  match v with
  | VFunction _ => true
  | _ => false
  end.

(** The handler that [handleResolved] picks for a receiver with record [r]. *)
Definition chosen_handler (r : PromiseRec) (deferred : Handler) : option Fn :=
  if _state r =? 1 then onFulfilled deferred else onRejected deferred.

(** [succeed] and [fail] of the [doResolve] activation with latch [l]. *)
Definition completion_callback (succeed : bool) (l p : nat) : Fn :=
  if succeed then FnResolveCb l p else FnRejectCb l p.

(** The store with the [done] variable [l] set. *)
Definition set_latch (l : nat) (s : State) : State :=
  mkState (heap s) (<[l := true]> (latches s)) (queue s) (allEnvs s)
          (anyEnvs s).

(** Values that [resolve] and [res] store as they are: neither a promise
    nor an object whose [then] is callable or raises. *)
Definition plain (v : Value) : bool :=
  match v with
  | VPromise _ => false
  | VObject (ThenThrows _) => false
  | VObject (ThenFn _ _) => false
  | _ => true
  end.

(** The observable state of a promise. *)
Definition rejected_with (s : State) (p : nat) (reason : Value) : Prop :=
  exists r, heap s !! p = Some r /\ _state r = 2 /\ _value r = reason.

Definition fulfilled_with (s : State) (p : nat) (value : Value) : Prop :=
  exists r, heap s !! p = Some r /\ _state r = 1 /\ _value r = value.

Definition pending (s : State) (p : nat) : Prop :=
  exists r, heap s !! p = Some r /\ _state r = 0.

(** The closure variables of an [any] with [reasons] as its
    [rejectionReasons]. *)
Definition any_env_with (e : AnyEnv) (reasons : list Value) : AnyEnv :=
  mkAnyEnv (any_length e) (any_hasResolved e) reasons (any_resolve e)
           (any_reject e).

(** The store once the last awaited rejection has reached [rejectionCheck]:
    the reasons are in [rejectionReasons], the latch is set and the promise
    of [any] is rejected with their aggregate. *)
Definition any_all_rejected_store (env l p : nat) (e : AnyEnv)
    (r : PromiseRec) (reasons : list Value) (s : State) : State :=
  settle_store 2 (getAggregateError reasons) p r
    (set_latch l
       (mkState (heap s) (latches s) (queue s) (allEnvs s)
                (<[env := any_env_with e reasons]> (anyEnvs s)))).

(** The store after [var done = false]. *)
Definition with_new_latch (s : State) : State :=
  mkState (heap s) (latches s ++ [false]) (queue s) (allEnvs s) (anyEnvs s).

(** The closure variables of an [all] with the given [args] and
    [remaining]. *)
Definition all_env_with (e : AllEnv) (args : list Value) (remaining : Z)
  : AllEnv :=
  mkAllEnv args remaining (all_resolve e) (all_reject e).

Definition set_allEnv (env : nat) (e : AllEnv) (s : State) : State :=
  mkState (heap s) (latches s) (queue s) (<[env := e]> (allEnvs s))
          (anyEnvs s).


(** The store once the last awaited value has reached [res]. *)
Definition all_fulfilled_store (env l p : nat) (e : AllEnv) (r : PromiseRec)
    (args : list Value) (s : State) : State :=
  settle_store 1 (VArray args) p r
    (set_latch l (set_allEnv env (all_env_with e args 0) s)).




(** [then] on a settled promise: a new pending promise, and the closure in
    the queue. *)
Definition then_settled_store (self : nat) (onF onR : Value) (s : State)
  : State :=
  mkState (heap s ++ [mkPromise 0 0 VNull DNull]) (latches s)
          (queue s ++ [(self, new_Handler onF onR (length (heap s)))])
          (allEnvs s) (anyEnvs s).

(** Inputs whose outcome [res] can read at once: a value stored as it is, or
    a promise of this implementation that is already fulfilled (with such a
    value) or already rejected. *)
Definition ready_fulfilled (s : State) (x : Value) : Prop :=
  match x with
  | VPromise q =>
      exists r, heap s !! q = Some r /\ _state r = 1 /\ plain (_value r) = true
  | _ => plain x = true
  end.

Definition ready_rejected (s : State) (x : Value) : Prop :=
  match x with
  | VPromise q => exists r, heap s !! q = Some r /\ _state r = 2
  | _ => False
  end.

Definition ready (s : State) (x : Value) : Prop :=
  ready_fulfilled s x \/ ready_rejected s x.

(** The value that [res] stores for an input that is ready and fulfilled. *)
Definition value_of (s : State) (x : Value) : Value :=
  match x with
  | VPromise q =>
      match heap s !! q with
      | Some r => _value r
      | None => VUndefined
      end
  | _ => x
  end.

(** [keeps_with I c Q]: [c] keeps [I], and the value it returns satisfies
    [Q]. *)
Definition keeps_with {A} (I : State -> Prop) (c : M A) (Q : A -> Prop)
  : Prop :=
  forall s, I s ->
    match c s with
    | Ok a s' => I s' /\ Q a
    | Thrown _ s' => I s'
    | Ill => True
    | OutOfFuel => True
    end.

(** A callable that is not a completion callback of the promise [p]. *)
Definition safe_fn (p : nat) (f : Fn) : Prop :=
  match f with
  | FnResolveCb _ q => q <> p
  | FnRejectCb _ q => q <> p
  | _ => True
  end.

Definition safe_callback (p : nat) (o : option Fn) : Prop :=
  match o with
  | Some f => safe_fn p f
  | None => True
  end.

Definition safe_value (p : nat) (v : Value) : Prop :=
  match v with
  | VFunction f => safe_fn p f
  | _ => True
  end.

(** A continuation whose downstream promise is not [p] and whose handlers
    are not completion callbacks of [p]. *)
Definition safe_handler (p : nat) (h : Handler) : Prop :=
  promise h <> p /\ safe_callback p (onFulfilled h) /\
  safe_callback p (onRejected h).

(** The continuations held in a [_deferreds] field. *)
Definition handlers (d : Deferreds) : list Handler :=
  match d with
  | DNull => []
  | DOne h => [h]
  | DMany hs => hs
  end.

(** No continuation registered on the promise with record [r] feeds [p] or
    holds one of its completion callbacks. *)
Definition safe_rec (p : nat) (r : PromiseRec) : Prop :=
  Forall (safe_handler p) (handlers (_deferreds r)).

Definition safe_allEnv (p : nat) (e : AllEnv) : Prop :=
  safe_fn p (all_resolve e) /\ safe_fn p (all_reject e).

Definition safe_anyEnv (p : nat) (e : AnyEnv) : Prop :=
  safe_fn p (any_resolve e) /\ safe_fn p (any_reject e).

(** Nothing in the store can settle [p]: no continuation feeds it, no
    closure of the library holds one of its completion callbacks, and no
    closure in the queue was scheduled for it. *)
Record unreferenced (p : nat) (s : State) : Prop := {
  unref_heap : Forall (safe_rec p) (heap s);
  unref_queue :
    Forall (fun t => fst t <> p /\ safe_handler p (snd t)) (queue s);
  unref_allEnvs : Forall (safe_allEnv p) (allEnvs s);
  unref_anyEnvs : Forall (safe_anyEnv p) (anyEnvs s)
}.

(** [p] is pending and nothing in the store can settle it. *)
Record orphan (p : nat) (s : State) : Prop := {
  orphan_pending : exists r, heap s !! p = Some r /\ _state r = 0;
  orphan_unreferenced : unreferenced p s
}.

(** What a read of the record of [q] gives in such a store. *)
Definition read_of (p q : nat) (r : PromiseRec) : Prop :=
  safe_rec p r /\ (q = p -> _state r = 0).

(** The five functions of the interpreter keep [orphan p] when they are
    not given [p] to settle nor one of its completion callbacks. *)
Definition interpreter_keeps_orphan (user_fn : UserFns) (p fuel : nat)
  : Prop :=
  (forall self v, self <> p ->
                  keeps (orphan p) (resolve user_fn fuel self v)) /\
  (forall fn q, q <> p -> keeps (orphan p) (doResolve user_fn fuel fn q)) /\
  (forall fn a, safe_fn p fn -> keeps (orphan p) (call1 user_fn fuel fn a)) /\
  (forall fn r j, safe_fn p r -> safe_fn p j ->
                  keeps (orphan p) (call2 user_fn fuel fn r j)) /\
  (forall env i v, keeps (orphan p) (all_res user_fn fuel env i v)).

(** What the rest of the program can do with the library once a promise
    exists: call [then] on any promise, let the scheduler run the oldest
    closure, call any callable it holds, and build promises with the
    constructor and the combinators. *)
Inductive Op : Type :=
| OpThen (q : nat) (onFulfilled onRejected : Value)
| OpRunTask
| OpCall (f : Fn) (a : Value)
| OpNewPromise (body : Script)
| OpResolve (v : Value)
| OpReject (v : Value)
| OpAll (xs : list Value)
| OpAllSettled (xs : list Value)
| OpRace (xs : list Value)
| OpAny (xs : list Value).

Definition exec_op (user_fn : UserFns) (fuel : nat) (op : Op) : M unit :=
  match op with
  | OpThen q onF onR => then_ fuel q onF onR ;;; ret tt
  | OpRunTask => step user_fn fuel ;;; ret tt
  | OpCall f a => call1 user_fn fuel f a ;;; ret tt
  | OpNewPromise body =>
      new_Promise (doResolve user_fn fuel) (ExScript body) ;;; ret tt
  | OpResolve v => Promise_resolve user_fn fuel v ;;; ret tt
  | OpReject v => Promise_reject user_fn fuel v ;;; ret tt
  | OpAll xs => Promise_all user_fn fuel xs ;;; ret tt
  | OpAllSettled xs => Promise_allSettled user_fn fuel xs ;;; ret tt
  | OpRace xs => Promise_race user_fn fuel xs ;;; ret tt
  | OpAny xs => Promise_any user_fn fuel xs ;;; ret tt
  end.

(** The operation uses no completion callback of [p]. *)
Definition safe_op (p : nat) (op : Op) : Prop :=
  match op with
  | OpThen _ onF onR => safe_value p onF /\ safe_value p onR
  | OpCall f _ => safe_fn p f
  | _ => True
  end.

(** The operation is a call of a completion callback of the [doResolve]
    activation with latch [l] for the promise [p]. *)
Definition calls_callback (l p : nat) (op : Op) : bool :=
  match op with
  | OpCall (FnResolveCb k q) _ => Nat.eqb k l && Nat.eqb q p
  | OpCall (FnRejectCb k q) _ => Nat.eqb k l && Nat.eqb q p
  | _ => false
  end.

(** ** Vocabulary of the further properties *)

(** What [handle] relies on when it stores a continuation on a pending
    promise: [_deferredState] is 0, 1 or 2 and [_deferreds] fits it. *)
Definition registrable (r : PromiseRec) : bool :=
  wf_deferreds r && (0 <=? _deferredState r) && (_deferredState r <=? 2).

(** The record of a pending promise once [handle] has stored [deferred]. *)
Definition register (deferred : Handler) (r : PromiseRec) : PromiseRec :=
  if _deferredState r =? 0 then
    set_deferreds (DOne deferred) (set_deferredState 1 r)
  else
    set_deferreds (DMany (waiters r ++ [deferred])) (set_deferredState 2 r).

(** [p] has adopted the first promise of [qs], which has adopted the next
    one, and so on to [target], which has adopted nothing. *)
Fixpoint adoption_chain (s : State) (p : nat) (qs : list nat) (target : nat)
  : Prop :=
  match qs with
  | [] => p = target /\ exists r, heap s !! p = Some r /\ _state r <> 3
  | q :: qs' =>
      (exists r, heap s !! p = Some r /\ _state r = 3 /\
                 _value r = VPromise q) /\
      adoption_chain s q qs' target
  end.

(** The six promises made when the module was loaded are as it made
    them. *)
Definition cache_intact (s : State) : Prop :=
  heap s !! TRUE = Some (valuePromise_rec (VBool true)) /\
  heap s !! FALSE = Some (valuePromise_rec (VBool false)) /\
  heap s !! NULL = Some (valuePromise_rec VNull) /\
  heap s !! UNDEFINED = Some (valuePromise_rec VUndefined) /\
  heap s !! ZERO = Some (valuePromise_rec (VNum 0)) /\
  heap s !! EMPTYSTRING = Some (valuePromise_rec (VStr "")).

(** The value held by the promise that [Promise.resolve] returns for a
    value that is no promise and no thenable: the value itself, except for
    the negative zero, which passes the test [value === 0] and so gets the
    promise made for [0]. *)
Definition resolved_value (v : Value) : Value :=
  match v with
  | VNum NNegZero => VNum 0
  | _ => v
  end.

(** What a start routine does to its promise before it returns: nothing,
    or the state and the value it gives it.  The first call of a callback
    decides; a routine that calls none and raises rejects. *)
Definition script_outcome (body : Script) : option (Z * Value) :=
  match body with
  | ([], None) => None
  | ([], Some ex) => Some (2, ex)
  | (CallResolve v :: _, _) => Some (1, v)
  | (CallReject reason :: _, _) => Some (2, reason)
  end.

(** The first call of the routine, if it is a call of [resolve], passes a
    value that is no thenable. *)
Definition first_call_plain (body : Script) : bool :=
  match body with
  | (CallResolve v :: _, _) => plain v
  | _ => true
  end.

(** The store after [doResolve] has run the routine [body] for the promise
    [p] with record [r]. *)
Definition after_script (body : Script) (p : nat) (r : PromiseRec)
    (s : State) : State :=
  match script_outcome body with
  | None => with_new_latch s
  | Some (st, v) =>
      settle_store st v p r (set_latch (length (latches s)) (with_new_latch s))
  end.

(** An argument of [then]: the [n]-th function of the user, or nothing. *)
Definition user_handler (h : option nat) : Value :=
  match h with
  | Some n => VFunction (FnUser n)
  | None => VUndefined
  end.

(** What the handlers [onF] and [onR] make of a settled receiver with record
    [r]: the state and the value for the promise that [then] returned. *)
Definition reaction (user_fn : UserFns) (r : PromiseRec)
    (onF onR : option nat) : Z * Value :=
  match (if _state r =? 1 then onF else onR) with
  | Some n =>
      match user_fn n (_value r) with
      | inl v => (1, v)
      | inr ex => (2, ex)
      end
  | None => (_state r, _value r)
  end.

(** What reaches an activation of [any] with environment [env] from one
    of its inputs: [resolveOnce(v)] for [inl v], [rejectionCheck(reason)]
    for [inr reason]. *)
Definition deliver_to_any (user_fn : UserFns) (fuel : nat) (env : nat)
    (d : Value + Value) : M unit :=
  match d with
  | inl v => call1 user_fn fuel (FnAnyResolveOnce env) v ;;; ret tt
  | inr reason =>
      call1 user_fn fuel (FnAnyRejectionCheck env) reason ;;; ret tt
  end.

(** An activation of [any] that has passed a value to its promise. *)
Definition any_resolved (env l p : nat) (s : State) : Prop :=
  exists e,
    anyEnvs s !! env = Some e /\ any_hasResolved e = true /\
    any_reject e = FnRejectCb l p /\ latched l s.

(** The state and the value with which [race] settles on an input that is
    ready: those of the promise, and state 1 with the value that
    [Promise.resolve] gives it for a value (the value itself, [0] for the
    negative zero). *)
Definition outcome_of (s : State) (x : Value) : Z * Value :=
  match x with
  | VPromise q =>
      match heap s !! q with
      | Some r => (_state r, _value r)
      | None => (0, VUndefined)
      end
  | _ => (1, resolved_value x)
  end.

(** A closure that [race] has scheduled for the activation with latch [l]
    and promise [p]: the receiver is settled, the two handlers are the
    completion callbacks of [p], and the promise that [then] returned is
    another one, on which nothing waits. *)
Definition race_task (l p : nat) (s : State) (t : Task) : Prop :=
  onFulfilled (snd t) = Some (FnResolveCb l p) /\
  onRejected (snd t) = Some (FnRejectCb l p) /\
  promise (snd t) <> p /\
  (exists rq, heap s !! fst t = Some rq /\ (_state rq = 1 \/ _state rq = 2)) /\
  (exists rd, heap s !! promise (snd t) = Some rd /\ _deferredState rd = 0).

(** The store in which [Promise.all] returns when one of its inputs is the
    pending promise [q] (with record [rq]) and the others, [pre] before it
    and [post] after it, are ready and fulfilled: the values of the others
    are in [args], one input is awaited, and [q] has one more waiter, for
    the new promise that [then] returned. *)
Definition all_waiting_store (s : State) (pre post : list Value) (q : nat)
    (rq : PromiseRec) : State :=
  let p := length (heap s) in
  let l := length (latches s) in
  let env := length (allEnvs s) in
  mkState
    (<[q := register (mkHandler (Some (FnAllRes env (length pre)))
                                (Some (FnRejectCb l p)) (S p)) rq]>
       (heap s ++ [mkPromise 0 0 VNull DNull; mkPromise 0 0 VNull DNull]))
    (latches s ++ [false]) (queue s)
    (allEnvs s ++
       [mkAllEnv (map (value_of s) pre ++ VPromise q :: map (value_of s) post)
                 1 (FnResolveCb l p) (FnRejectCb l p)])
    (anyEnvs s).

(** A promise that is fulfilled or rejected. *)
Definition settled_promise (s : State) (q : nat) : Prop :=
  exists r, heap s !! q = Some r /\ (_state r = 1 \/ _state r = 2).

(** The closure that [any] schedules, in the activation with environment
    [env], for the receiver [fst qd] and the promise [snd qd] that [then]
    returned. *)
Definition any_task (env : nat) (qd : nat * nat) : Task :=
  (fst qd, mkHandler (Some (FnAnyResolveOnce env))
                     (Some (FnAnyRejectionCheck env)) (snd qd)).

(** The receivers [qs] with the promises that [then] returns for them when
    the first of these is [base]. *)
Definition with_derived (base : nat) (qs : list nat) : list (nat * nat) :=
  imap (fun i q => (q, (base + i)%nat)) qs.

(** The store in which [Promise.any] returns when its inputs are the
    settled promises [qs]. *)
Definition any_waiting_store (s : State) (qs : list nat) : State :=
  mkState
    (heap s ++ mkPromise 0 0 VNull DNull
            :: replicate (length qs) (mkPromise 0 0 VNull DNull))
    (latches s ++ [false])
    (queue s ++
       map (any_task (length (anyEnvs s)))
           (with_derived (S (length (heap s))) qs))
    (allEnvs s)
    (anyEnvs s ++
       [mkAnyEnv (length qs) false []
                 (FnResolveCb (length (latches s)) (length (heap s)))
                 (FnRejectCb (length (latches s)) (length (heap s)))]).

(** ** Vocabulary of the inputs that settle later *)

(** The pending promise [q] has one continuation, with the handlers [onF]
    and [onR], for the promise [res]. *)
Definition awaits (onF onR : Fn) (res : nat) (s : State) (q : nat) : Prop :=
  exists x,
    heap s !! q
    = Some (mkPromise 1 0 x (DOne (mkHandler (Some onF) (Some onR) res))).

(** The same, [res] being a promise other than [p] on which nothing
    waits. *)
Definition awaited (onF onR : Fn) (p : nat) (s : State) (q : nat) : Prop :=
  exists res rres,
    awaits onF onR res s q /\
    heap s !! res = Some rres /\ _deferredState rres = 0 /\ res <> p.

(** A promise that is pending and on which nothing waits. *)
Definition idle_pending (s : State) (q : nat) : Prop :=
  exists rq, heap s !! q = Some rq /\ _state rq = 0 /\ _deferredState rq = 0.

(** What happens to an input after the combinator has returned: it is
    fulfilled with a value, or rejected with a reason. *)
Inductive Settlement : Type :=
| Fulfils (q : nat) (v : Value)
| Rejects (q : nat) (reason : Value).

Definition settled_input (e : Settlement) : nat :=
  match e with
  | Fulfils q _ => q
  | Rejects q _ => q
  end.

Definition settlement_state (e : Settlement) : Z :=
  match e with
  | Fulfils _ _ => 1
  | Rejects _ _ => 2
  end.

Definition settlement_value (e : Settlement) : Value :=
  match e with
  | Fulfils _ v => v
  | Rejects _ reason => reason
  end.

(** The value of a fulfilment is no promise and no thenable. *)
Definition settlement_plain (e : Settlement) : bool :=
  match e with
  | Fulfils _ v => plain v
  | Rejects _ _ => true
  end.

(** The input is settled, by [resolve] or by [reject], and the scheduler
    runs one turn. *)
Definition settle_input (user_fn : UserFns) (fuel : nat) (e : Settlement)
  : M unit :=
  match e with
  | Fulfils q v => resolve user_fn fuel q v
  | Rejects q reason => reject fuel q reason
  end ;;;
  step user_fn fuel ;;;
  ret tt.

(** The store in which the scheduler runs the continuation of an input
    that [e] has settled, the queue having been empty. *)
Definition input_settled_store (e : Settlement) (s : State) : State :=
  mkState (<[settled_input e :=
               mkPromise 1 (settlement_state e) (settlement_value e) DNull]>
             (heap s))
          (latches s) [] (allEnvs s) (anyEnvs s).






(** The same activation once a rejection has reached it: the latch is set
    and the promise is rejected with [reason]. *)
Definition all_rejected_awaiting (env l p : nat) (W : list (nat * nat))
    (reason : Value) (s : State) : Prop :=
  queue s = [] /\
  (exists e, allEnvs s !! env = Some e /\
             all_resolve e = FnResolveCb l p /\
             all_reject e = FnRejectCb l p) /\
  latched l s /\
  (exists rp, heap s !! p = Some rp /\ _state rp = 2 /\ _value rp = reason /\
              _deferredState rp = 0) /\
  NoDup (map snd W) /\
  Forall (fun iq => awaited (FnAllRes env (fst iq)) (FnRejectCb l p) p s
                            (snd iq)) W.

(** An activation of [any] that has settled nothing, has received the
    rejections with the reasons [reasons] and awaits the inputs [W]. *)
Definition any_awaiting (env l p : nat) (W : list nat) (reasons : list Value)
    (s : State) : Prop :=
  queue s = [] /\
  anyEnvs s !! env
  = Some (mkAnyEnv (length reasons + length W) false reasons
                   (FnResolveCb l p) (FnRejectCb l p)) /\
  latches s !! l = Some false /\
  idle_pending s p /\
  NoDup W /\
  Forall (awaited (FnAnyResolveOnce env) (FnAnyRejectionCheck env) p s) W.

(** * Example stores and runs *)

(** Three functions a user could write, for the examples: the identity, a
    function that raises, and a function that returns [undefined]. *)
Definition sample_fn : UserFns :=
  fun n a =>
    match n with
    | O => inl a
    | S O => inr (VStr "oops")
    | _ => inl VUndefined
    end.

(** Two promises, each resolved with the other by its own [resolve]
    callback. *)
Definition mutual_adoption : M (nat * nat) :=
  p <- new_Promise (doResolve sample_fn 5) (ExScript ([], None)) ;;
  q <- new_Promise (doResolve sample_fn 5) (ExScript ([], None)) ;;
  call1 sample_fn 5 (FnResolveCb 0 p) (VPromise q) ;;;
  call1 sample_fn 5 (FnResolveCb 1 q) (VPromise p) ;;;
  ret (p, q).

(** A pending promise with one waiter, and the downstream promise of that
    waiter. *)
Definition one_waiter_state : State :=
  mkState [mkPromise 1 0 VNull (DOne (mkHandler None None 1));
           mkPromise 0 0 VNull DNull] [] [] [] [].

(** A run in which the second input of [Promise.any] is rejected before the
    first: [p1] is pending when [any] is called and [p2] is rejected with
    ["b"]; the scheduler runs; then the owner of [p1] calls its [reject]
    callback with ["a"], and the scheduler runs again. *)
Definition any_second_rejects_first : M (nat * nat * nat) :=
  p1 <- new_Promise (doResolve sample_fn 5) (ExScript ([], None)) ;;
  p2 <- Promise_reject sample_fn 5 (VStr "b") ;;
  a <- Promise_any sample_fn 5 [VPromise p1; VPromise p2] ;;
  run sample_fn 5 5 ;;;
  call1 sample_fn 5 (FnRejectCb 0 p1) (VStr "a") ;;;
  run sample_fn 5 5 ;;;
  ret (p1, p2, a).

(** The store of an [any] of two inputs that has received no rejection. *)
Definition any_waiting_state : State :=
  mkState [mkPromise 0 0 VNull DNull] [false] [] []
          [mkAnyEnv 2 false [] (FnResolveCb 0 0) (FnRejectCb 0 0)].



(** Two promises rejected one after the other, the later one first in the
    input of [all]. *)
Definition two_rejected_state : State :=
  mkState [mkPromise 0 2 (VStr "b") DNull; mkPromise 0 2 (VStr "a") DNull]
          [] [] [] [].

(** Three pending promises on which nothing waits. *)
Definition three_pending_state : State :=
  mkState [mkPromise 0 0 VNull DNull; mkPromise 0 0 VNull DNull;
           mkPromise 0 0 VNull DNull] [] [] [] [].

(** * Properties *)

(** ** Settling a promise *)

(** Sequencing when the first computation returns. *)
Lemma bind_ok {A B} (c : M A) (k : A -> M B) s a s' :
  c s = Ok a s' -> bind c k s = k a s'.
Proof. unfold bind. by intros ->. Qed.

Lemma get_promise_ok p r s : heap s !! p = Some r -> get_promise p s = Ok r s.
Proof. unfold get_promise. by intros ->. Qed.

Lemma put_promise_ok p r r' s :
  heap s !! p = Some r ->
  put_promise p r' s = Ok tt (set_heap (<[p := r']> (heap s)) s).
Proof. unfold put_promise. by intros ->. Qed.

Lemma modify_promise_ok p f r s :
  heap s !! p = Some r ->
  modify_promise p f s = Ok tt (set_heap (<[p := f r]> (heap s)) s).
Proof.
  intros Hr. unfold modify_promise.
  rewrite (bind_ok _ _ _ _ _ (get_promise_ok _ _ _ Hr)).
  by apply put_promise_ok with r.
Qed.

Lemma follow_settled fuel self r s :
  heap s !! self = Some r -> _state r <> 3 ->
  follow (S fuel) self s = Ok self s.
Proof.
  intros Hr H3. simpl.
  rewrite (bind_ok _ _ _ _ _ (get_promise_ok _ _ _ Hr)).
  by destruct (Z.eqb_spec (_state r) 3).
Qed.

Lemma handle_settled fuel self r d s :
  heap s !! self = Some r -> _state r <> 0 -> _state r <> 3 ->
  handle (S fuel) self d s
  = Ok tt (mkState (heap s) (latches s) (queue s ++ [(self, d)])
                   (allEnvs s) (anyEnvs s)).
Proof.
  intros Hr H0 H3. unfold handle.
  rewrite (bind_ok _ _ _ _ _ (follow_settled _ _ _ _ Hr H3)).
  rewrite (bind_ok _ _ _ _ _ (get_promise_ok _ _ _ Hr)).
  by destruct (Z.eqb_spec (_state r) 0).
Qed.

Lemma for_each_handle_settled fuel self r ds : forall s,
  heap s !! self = Some r -> _state r <> 0 -> _state r <> 3 ->
  for_each (handle (S fuel) self) ds s
  = Ok tt (mkState (heap s) (latches s) (queue s ++ map (pair self) ds)
                   (allEnvs s) (anyEnvs s)).
Proof.
  induction ds as [|d ds IH]; intros s Hr H0 H3; simpl.
  - unfold ret. rewrite app_nil_r. by destruct s.
  - rewrite (bind_ok _ _ _ _ _ (handle_settled _ _ _ d _ Hr H0 H3)).
    rewrite IH by done. simpl. by rewrite <- app_assoc.
Qed.

Lemma finale_settled fuel self r s :
  heap s !! self = Some r -> _state r <> 0 -> _state r <> 3 ->
  wf_deferreds r = true ->
  finale (S fuel) self s
  = Ok tt (settle_store (_state r) (_value r) self r s).
Proof.
  intros Hr H0 H3 Hwf. pose proof (lookup_lt_Some _ _ _ Hr) as Hlt.
  unfold finale, settle_store, settled, waiters, wf_deferreds in *.
  rewrite (bind_ok _ _ _ _ _ (get_promise_ok _ _ _ Hr)).
  destruct (Z.eqb_spec (_deferredState r) 1) as [E1|N1].
  - destruct (_deferreds r) as [|d|ds] eqn:Ed; try done.
    erewrite bind_ok; cycle 1.
    { erewrite bind_ok by (by eapply handle_settled).
      by eapply modify_promise_ok. }
    erewrite bind_ok; cycle 1.
    { apply get_promise_ok. simpl. by apply list_lookup_insert_eq. }
    simpl. rewrite E1. simpl. unfold ret, set_heap, set_deferreds. simpl.
    by rewrite E1.
  - erewrite bind_ok by reflexivity.
    rewrite (bind_ok _ _ _ _ _ (get_promise_ok _ _ _ Hr)).
    destruct (Z.eqb_spec (_deferredState r) 2) as [E2|N2].
    + destruct (_deferreds r) as [|d|ds] eqn:Ed; try done.
      erewrite bind_ok by (by eapply for_each_handle_settled).
      by erewrite modify_promise_ok by done.
    + unfold ret. simpl. rewrite app_nil_r.
      replace (mkPromise _ _ _ _) with r by (by destruct r).
      rewrite list_insert_id by done. by destruct s.
Qed.

(** Writing [_state] and [_value] and running [finale], for a state other
    than pending and adopted. *)
Lemma settle_spec fuel st v self r s :
  heap s !! self = Some r -> st <> 0 -> st <> 3 -> wf_deferreds r = true ->
  (modify_promise self (set_state st) ;;;
   modify_promise self (set_value v) ;;;
   finale (S fuel) self) s
  = Ok tt (settle_store st v self r s).
Proof.
  intros Hr H0 H3 Hwf. pose proof (lookup_lt_Some _ _ _ Hr) as Hlt.
  erewrite bind_ok by (by eapply modify_promise_ok).
  erewrite bind_ok; cycle 1.
  { eapply modify_promise_ok. simpl. by apply list_lookup_insert_eq. }
  erewrite finale_settled; cycle 1.
  - simpl. apply list_lookup_insert_eq. by rewrite length_insert.
  - done.
  - done.
  - done.
  - unfold settle_store, settled. simpl.
    by rewrite !list_insert_insert_eq.
Qed.

Lemma reject_spec fuel e self r s :
  heap s !! self = Some r -> wf_deferreds r = true ->
  reject (S fuel) self e s = Ok tt (settle_store 2 e self r s).
Proof. intros. by apply settle_spec. Qed.

Lemma fulfill_spec fuel v self r s :
  heap s !! self = Some r -> wf_deferreds r = true ->
  fulfill (S fuel) self v s = Ok tt (settle_store 1 v self r s).
Proof. intros. by apply settle_spec. Qed.

(** ** Computations that raise no exception *)

Lemma no_throw_bind {A B} (c : M A) (k : A -> M B) :
  no_throw c -> (forall a, no_throw (k a)) -> no_throw (bind c k).
Proof.
  intros Hc Hk s ex s'. unfold bind.
  destruct (c s) as [a s1|ex1 s1| |] eqn:E; try done.
  - apply Hk.
  - by destruct (Hc s ex1 s1).
Qed.

Lemma no_throw_try_catch {A} (c : M A) : no_throw (try_catch c).
Proof. intros s ex s'. unfold try_catch. by destruct (c s). Qed.

Lemma no_throw_get_promise p : no_throw (get_promise p).
Proof. intros s ex s'. unfold get_promise. by destruct (heap s !! p). Qed.

Lemma no_throw_put_promise p r : no_throw (put_promise p r).
Proof. intros s ex s'. unfold put_promise. by destruct (heap s !! p). Qed.

Lemma no_throw_modify_promise p f : no_throw (modify_promise p f).
Proof.
  apply no_throw_bind; [apply no_throw_get_promise|].
  intros; apply no_throw_put_promise.
Qed.

Lemma no_throw_get_done l : no_throw (get_done l).
Proof. intros s ex s'. unfold get_done. by destruct (latches s !! l). Qed.

Lemma no_throw_set_done l : no_throw (set_done l).
Proof. intros s ex s'. unfold set_done. by destruct (latches s !! l). Qed.

Lemma no_throw_for_each {A} (body : A -> M unit) xs :
  (forall x, no_throw (body x)) -> no_throw (for_each body xs).
Proof.
  intros Hb. induction xs as [|x xs IH]; simpl; [done|].
  by apply no_throw_bind.
Qed.

Lemma no_throw_follow fuel : forall self, no_throw (follow fuel self).
Proof.
  induction fuel as [|fuel IH]; intros self; simpl; [done|].
  apply no_throw_bind; [apply no_throw_get_promise|]. intros r.
  destruct (_state r =? 3); [|done].
  by destruct (_value r).
Qed.

Lemma no_throw_handle fuel self d : no_throw (handle fuel self d).
Proof.
  apply no_throw_bind; [apply no_throw_follow|]. intros p.
  apply no_throw_bind; [apply no_throw_get_promise|]. intros r.
  destruct (_state r =? 0); [|done].
  destruct (_deferredState r =? 0); [apply no_throw_put_promise|].
  destruct (_deferredState r =? 1);
    destruct (_deferreds r); try done; apply no_throw_put_promise.
Qed.

Lemma no_throw_finale fuel self : no_throw (finale fuel self).
Proof.
  apply no_throw_bind; [apply no_throw_get_promise|]. intros r.
  apply no_throw_bind.
  - destruct (_deferredState r =? 1); [|done].
    destruct (_deferreds r); try done.
    apply no_throw_bind; [apply no_throw_handle|].
    intros; apply no_throw_modify_promise.
  - intros _. apply no_throw_bind; [apply no_throw_get_promise|]. intros r'.
    destruct (_deferredState r' =? 2); [|done].
    destruct (_deferreds r'); try done.
    apply no_throw_bind.
    + apply no_throw_for_each. intros; apply no_throw_handle.
    + intros; apply no_throw_modify_promise.
Qed.

Lemma no_throw_settle fuel st v self :
  no_throw (modify_promise self (set_state st) ;;;
            modify_promise self (set_value v) ;;;
            finale fuel self).
Proof.
  apply no_throw_bind; [apply no_throw_modify_promise|]. intros _.
  apply no_throw_bind; [apply no_throw_modify_promise|]. intros _.
  apply no_throw_finale.
Qed.

Lemma no_throw_reject fuel self e : no_throw (reject fuel self e).
Proof. apply no_throw_settle. Qed.

Lemma no_throw_doResolve (user_fn : UserFns) fuel fn p :
  no_throw (doResolve user_fn fuel fn p).
Proof.
  destruct fuel as [|fuel]; simpl; [done|].
  apply no_throw_bind; [done|]. intros l.
  apply no_throw_bind; [apply no_throw_try_catch|]. intros res.
  apply no_throw_bind; [apply no_throw_get_done|]. intros d.
  destruct res as [|ex]; [done|].
  destruct d; simpl; [done|].
  apply no_throw_bind; [apply no_throw_set_done|]. intros _.
  apply no_throw_reject.
Qed.

Lemma no_throw_resolve (user_fn : UserFns) fuel self v :
  no_throw (resolve user_fn fuel self v).
Proof.
  assert (forall c : Script -> M unit,
             (forall body, no_throw (c body)) ->
             no_throw
               (if is_promise v self
                then reject fuel self self_resolution_error
                else if is_object_or_function v then
                  then' <- getThen v ;;
                  match then' with
                  | inr LAST_ERROR => reject fuel self LAST_ERROR
                  | inl PromiseThen => adopt fuel self v
                  | inl (ThenFunction body) => c body
                  | inl ThenOther => fulfill fuel self v
                  end
                else fulfill fuel self v)) as Hgen.
  { intros c Hc. destruct (is_promise v self); [apply no_throw_settle|].
    destruct (is_object_or_function v); [|apply no_throw_settle].
    apply no_throw_bind; [apply no_throw_try_catch|].
    intros [[|body|]|ex]; try apply no_throw_settle. apply Hc. }
  destruct fuel as [|fuel]; apply Hgen; intros body;
    [done|apply no_throw_doResolve].
Qed.

(** The two callbacks that [doResolve] hands out raise nothing. *)
Lemma no_throw_completion_callback (user_fn : UserFns) fuel l p v :
  no_throw (call1 user_fn fuel (FnResolveCb l p) v) /\
  no_throw (call1 user_fn fuel (FnRejectCb l p) v).
Proof.
  split; destruct fuel as [|fuel]; simpl;
    (apply no_throw_bind; [apply no_throw_get_done|]; intros []; [done|];
     apply no_throw_bind; [apply no_throw_set_done|]; intros _;
     apply no_throw_bind; [|done];
     try apply no_throw_resolve; try apply no_throw_reject; done).
Qed.

(** ** Invariants of the store *)

Section Keeps.

Variable I : State -> Prop.

Lemma keeps_ret {A} (a : A) : keeps I (ret a).
Proof. by intros s Hs. Qed.

Lemma keeps_throw {A} ex : keeps I (@throw A ex).
Proof. by intros s Hs. Qed.

Lemma keeps_ill {A} : keeps I (@ill A).
Proof. by intros s Hs. Qed.

Lemma keeps_out_of_fuel {A} : keeps I (@out_of_fuel A).
Proof. by intros s Hs. Qed.

Lemma keeps_bind {A B} (c : M A) (k : A -> M B) :
  keeps I c -> (forall a, keeps I (k a)) -> keeps I (bind c k).
Proof.
  intros Hc Hk s Hs. unfold bind. specialize (Hc s Hs).
  destruct (c s) as [a s1|ex s1| |]; try done. by apply Hk.
Qed.

Lemma keeps_try_catch {A} (c : M A) : keeps I c -> keeps I (try_catch c).
Proof.
  intros Hc s Hs. unfold try_catch. specialize (Hc s Hs).
  by destruct (c s).
Qed.

Lemma keeps_for_each {A} (body : A -> M unit) xs :
  (forall x, keeps I (body x)) -> keeps I (for_each body xs).
Proof.
  intros Hb. induction xs as [|x xs IH]; simpl; [apply keeps_ret|].
  by apply keeps_bind.
Qed.

Lemma keeps_map_m {A B} (f : A -> M B) xs :
  (forall x, keeps I (f x)) -> keeps I (map_m f xs).
Proof.
  intros Hf. induction xs as [|x xs IH]; simpl; [apply keeps_ret|].
  apply keeps_bind; [done|]. intros y.
  apply keeps_bind; [done|]. intros ys. apply keeps_ret.
Qed.

Lemma keeps_read_then obj : keeps I (read_then obj).
Proof. intros s Hs. by destruct obj as [| | | | | | | | | |[]|]. Qed.

Lemma keeps_getThen obj : keeps I (getThen obj).
Proof. apply keeps_try_catch, keeps_read_then. Qed.

Lemma keeps_get_promise p : keeps I (get_promise p).
Proof. intros s Hs. unfold get_promise. by destruct (heap s !! p). Qed.

Lemma keeps_get_done l : keeps I (get_done l).
Proof. intros s Hs. unfold get_done. by destruct (latches s !! l). Qed.

Lemma keeps_get_allEnv n : keeps I (get_allEnv n).
Proof. intros s Hs. unfold get_allEnv. by destruct (allEnvs s !! n). Qed.

Lemma keeps_get_anyEnv n : keeps I (get_anyEnv n).
Proof. intros s Hs. unfold get_anyEnv. by destruct (anyEnvs s !! n). Qed.

End Keeps.

Section Latched.

Variable l : nat.

Lemma latched_put_promise p r : keeps (latched l) (put_promise p r).
Proof. intros s Hs. unfold put_promise. by destruct (heap s !! p). Qed.

Lemma latched_modify_promise p f : keeps (latched l) (modify_promise p f).
Proof.
  apply keeps_bind; [apply keeps_get_promise|].
  intros; apply latched_put_promise.
Qed.

Lemma latched_new_noop : keeps (latched l) new_noop.
Proof. by intros s Hs. Qed.

Lemma latched_valuePromise v : keeps (latched l) (valuePromise v).
Proof. by intros s Hs. Qed.

Lemma latched_asap t : keeps (latched l) (asap t).
Proof. by intros s Hs. Qed.

Lemma latched_new_latch : keeps (latched l) new_latch.
Proof. intros s Hs. simpl. by apply lookup_app_l_Some. Qed.

Lemma latched_set_done l' : keeps (latched l) (set_done l').
Proof.
  intros s Hs. unfold set_done.
  destruct (latches s !! l') eqn:E; [|done]. unfold latched in *. simpl.
  destruct (decide (l' = l)) as [->|Hne].
  - apply list_lookup_insert_eq. by apply lookup_lt_Some in Hs.
  - by rewrite list_lookup_insert_ne.
Qed.

Lemma latched_new_allEnv e : keeps (latched l) (new_allEnv e).
Proof. by intros s Hs. Qed.

Lemma latched_put_allEnv n e : keeps (latched l) (put_allEnv n e).
Proof. by intros s Hs. Qed.

Lemma latched_new_anyEnv e : keeps (latched l) (new_anyEnv e).
Proof. by intros s Hs. Qed.

Lemma latched_put_anyEnv n e : keeps (latched l) (put_anyEnv n e).
Proof. by intros s Hs. Qed.

Lemma latched_follow fuel : forall self, keeps (latched l) (follow fuel self).
Proof.
  induction fuel as [|fuel IH]; intros self; simpl; [done|].
  apply keeps_bind; [apply keeps_get_promise|]. intros r.
  destruct (_state r =? 3); [|apply keeps_ret].
  destruct (_value r); try apply keeps_ill. apply IH.
Qed.

Lemma latched_handle fuel self d : keeps (latched l) (handle fuel self d).
Proof.
  apply keeps_bind; [apply latched_follow|]. intros p.
  apply keeps_bind; [apply keeps_get_promise|]. intros r.
  destruct (_state r =? 0); [|apply latched_asap].
  destruct (_deferredState r =? 0); [apply latched_put_promise|].
  destruct (_deferredState r =? 1);
    destruct (_deferreds r); try apply keeps_ill; apply latched_put_promise.
Qed.

Lemma latched_finale fuel self : keeps (latched l) (finale fuel self).
Proof.
  apply keeps_bind; [apply keeps_get_promise|]. intros r.
  apply keeps_bind.
  - destruct (_deferredState r =? 1); [|apply keeps_ret].
    destruct (_deferreds r); try apply keeps_ill.
    apply keeps_bind; [apply latched_handle|].
    intros; apply latched_modify_promise.
  - intros _. apply keeps_bind; [apply keeps_get_promise|]. intros r'.
    destruct (_deferredState r' =? 2); [|apply keeps_ret].
    destruct (_deferreds r'); try apply keeps_ill.
    apply keeps_bind.
    + apply keeps_for_each. intros; apply latched_handle.
    + intros; apply latched_modify_promise.
Qed.

Lemma latched_settle fuel st v self :
  keeps (latched l) (modify_promise self (set_state st) ;;;
                     modify_promise self (set_value v) ;;;
                     finale fuel self).
Proof.
  apply keeps_bind; [apply latched_modify_promise|]. intros _.
  apply keeps_bind; [apply latched_modify_promise|]. intros _.
  apply latched_finale.
Qed.

Lemma latched_then fuel self onF onR :
  keeps (latched l) (then_ fuel self onF onR).
Proof.
  apply keeps_bind; [apply latched_new_noop|]. intros res.
  apply keeps_bind; [apply latched_handle|]. intros _. apply keeps_ret.
Qed.

End Latched.

Section LatchedInterpreter.

Variable user_fn : UserFns.
Variable l : nat.

Ltac latched_step :=
  match goal with
  | |- keeps _ (bind _ _) => apply keeps_bind; [|intros ?]
  | |- keeps _ (ret _) => apply keeps_ret
  | |- keeps _ (throw _) => apply keeps_throw
  | |- keeps _ ill => apply keeps_ill
  | |- keeps _ out_of_fuel => apply keeps_out_of_fuel
  | |- keeps _ (try_catch _) => apply keeps_try_catch
  | |- keeps _ (tryCallOne _ _ _) => unfold tryCallOne; apply keeps_try_catch
  | |- keeps _ (tryCallTwo _ _ _ _) =>
      unfold tryCallTwo; apply keeps_try_catch
  | |- keeps _ (getThen _) => apply keeps_getThen
  | |- keeps _ (read_then _) => apply keeps_read_then
  | |- keeps _ (for_each _ _) => apply keeps_for_each; intros ?
  | |- keeps _ (get_promise _) => apply keeps_get_promise
  | |- keeps _ (get_done _) => apply keeps_get_done
  | |- keeps _ (get_allEnv _) => apply keeps_get_allEnv
  | |- keeps _ (get_anyEnv _) => apply keeps_get_anyEnv
  | |- keeps _ (put_promise _ _) => apply latched_put_promise
  | |- keeps _ (modify_promise _ _) => apply latched_modify_promise
  | |- keeps _ new_noop => apply latched_new_noop
  | |- keeps _ (valuePromise _) => apply latched_valuePromise
  | |- keeps _ new_latch => apply latched_new_latch
  | |- keeps _ (set_done _) => apply latched_set_done
  | |- keeps _ (new_allEnv _) => apply latched_new_allEnv
  | |- keeps _ (put_allEnv _ _) => apply latched_put_allEnv
  | |- keeps _ (new_anyEnv _) => apply latched_new_anyEnv
  | |- keeps _ (put_anyEnv _ _) => apply latched_put_anyEnv
  | |- keeps _ (follow _ _) => apply latched_follow
  | |- keeps _ (handle _ _ _) => apply latched_handle
  | |- keeps _ (finale _ _) => apply latched_finale
  | |- keeps _ (reject _ _ _) => apply latched_settle
  | |- keeps _ (fulfill _ _ _) => apply latched_settle
  | |- keeps _ (adopt _ _ _) => apply latched_settle
  | |- keeps _ (then_ _ _ _ _) => apply latched_then
  | |- keeps _ (if ?b then _ else _) => destruct b
  | |- keeps _ (match ?x with _ => _ end) => destruct x
  | |- keeps _ (let '(_, _) := ?x in _) => destruct x
  end.

Lemma latched_new_Promise doRes fn :
  (forall fn p, keeps (latched l) (doRes fn p)) ->
  keeps (latched l) (new_Promise doRes fn).
Proof. intros H. unfold new_Promise. repeat latched_step. apply H. Qed.

Lemma latched_Promise_resolve_with doRes v :
  (forall fn p, keeps (latched l) (doRes fn p)) ->
  keeps (latched l) (Promise_resolve_with doRes v).
Proof.
  intros H. unfold Promise_resolve_with.
  repeat (latched_step || (apply latched_new_Promise; exact H)).
Qed.

Lemma latched_interpreter fuel : interpreter_keeps user_fn (latched l) fuel.
Proof.
  induction fuel as [fuel IH] using lt_wf_ind.
  assert (forall f, (f < fuel)%nat ->
            interpreter_keeps user_fn (latched l) f) as IH'
    by exact IH.
  clear IH.
  assert (forall f fn p, (f < fuel)%nat ->
            keeps (latched l) (doResolve user_fn f fn p)) as IHd
    by (intros f fn p Hf; apply (IH' f Hf)).
  repeat split.
  - intros self v. destruct fuel as [|f]; simpl;
      repeat (latched_step || (apply IHd; lia)).
  - intros fn p. destruct fuel as [|f]; simpl; [done|].
    repeat latched_step. apply (IH' f); lia.
  - intros fn a. destruct fuel as [|f]; simpl;
      repeat (latched_step
              || (apply (IH' f); lia)).
  - intros fn r j. destruct fuel as [|f]; simpl; [done|].
    repeat (latched_step
            || (apply (IH' f); lia)
            || (apply latched_Promise_resolve_with; intros; apply IHd; lia)).
  - intros env i v. destruct fuel as [|f]; simpl; [done|].
    repeat (latched_step
            || (apply (IH' f); lia)
            || (apply latched_new_Promise; intros; apply IHd; lia)).
Qed.

End LatchedInterpreter.

(** * The claims *)

(** ** Self-resolution *)

(** C2: resolving a future with itself settles it as rejected with the
    self-resolution type error: the call returns normally (no exception, and
    one unit of fuel is enough, so no loop), the future is then in state 2
    with the [TypeError] as its value, and its waiters are scheduled.  In
    any store and with any fuel the call is [reject] with that error and
    raises nothing. *)
Theorem resolve_with_itself_rejects (user_fn : UserFns) fuel self r s :
  heap s !! self = Some r ->
  wf_deferreds r = true ->
  resolve user_fn (S fuel) self (VPromise self) s
    = Ok tt (settle_store 2 self_resolution_error self r s)
  /\ heap (settle_store 2 self_resolution_error self r s) !! self
    = Some (settled 2 self_resolution_error r)
  /\ _state (settled 2 self_resolution_error r) = 2
  /\ _value (settled 2 self_resolution_error r)
    = VTypeError "A promise cannot be resolved with itself."
  /\ (forall fuel' s0, no_throw (resolve user_fn fuel' self (VPromise self))
                       /\ resolve user_fn fuel' self (VPromise self) s0
                          = reject fuel' self self_resolution_error s0).
Proof.
  intros Hr Hwf. split; [|split; [|split; [|split]]].
  - simpl. rewrite Nat.eqb_refl. by apply reject_spec.
  - simpl. apply list_lookup_insert_eq. by apply lookup_lt_Some in Hr.
  - done.
  - done.
  - intros fuel' s0. split; [apply no_throw_resolve|].
    destruct fuel'; simpl; by rewrite Nat.eqb_refl.
Qed.

Lemma resolve_with_itself_rejects_witness :
  resolve sample_fn 1 0 (VPromise 0%nat) one_waiter_state
  = Ok tt (mkState [mkPromise 1 2 self_resolution_error DNull;
                    mkPromise 0 0 VNull DNull]
                   [] [(0%nat, mkHandler None None 1)] [] []).
Proof.
  exact (proj1 (resolve_with_itself_rejects sample_fn 0 0
                  (mkPromise 1 0 VNull (DOne (mkHandler None None 1)))
                  one_waiter_state eq_refl eq_refl)).
Defined.

(** ** [Promise.resolve] *)

(** C7: [Promise.resolve] returns a value that is already a promise of this
    implementation as it is, whatever the store, and so applying it to its
    own result gives that result again. *)
Theorem Promise_resolve_idempotent (user_fn : UserFns) :
  (forall fuel p s, Promise_resolve user_fn fuel (VPromise p) s = Ok p s) /\
  (forall fuel fuel' v s,
      (q <- Promise_resolve user_fn fuel v ;;
       Promise_resolve user_fn fuel' (VPromise q)) s
      = Promise_resolve user_fn fuel v s).
Proof.
  split; [done|]. intros fuel fuel' v s. unfold bind.
  by destruct (Promise_resolve user_fn fuel v s).
Qed.

(** ** Handlers *)

Lemma as_callable_not_callable v : callable v = false -> as_callable v = None.
Proof. by destruct v. Qed.

(** ** [Promise.allSettled] *)

(** C5 (the code departs from the claim): [mapAllSettled] reads [item.then]
    outside any [try], so for an input whose [then] raises when it is read,
    [Promise.allSettled] raises that exception to its caller instead of
    returning a promise. *)
Theorem allSettled_raises_on_then_getter (user_fn : UserFns) fuel ex rest s :
  Promise_allSettled user_fn fuel (VObject (ThenThrows ex) :: rest) s
  = Thrown ex s.
Proof. reflexivity. Qed.

(** ** The two completion callbacks *)

Lemma completion_callback_ignored (user_fn : UserFns) fuel b l p v s :
  latched l s ->
  call1 user_fn fuel (completion_callback b l p) v s = Ok VUndefined s.
Proof.
  intros Hl. unfold latched in Hl.
  destruct b, fuel; simpl; unfold bind, get_done; by rewrite Hl.
Qed.

Lemma set_done_latched l s s' : set_done l s = Ok tt s' -> latched l s'.
Proof.
  unfold set_done, latched. destruct (latches s !! l) eqn:E; [|done].
  intros [= <-]. simpl. apply list_lookup_insert_eq.
  by apply lookup_lt_Some in E.
Qed.

Lemma completion_callback_latches (user_fn : UserFns) fuel b l p v s a s1 :
  call1 user_fn fuel (completion_callback b l p) v s = Ok a s1 ->
  latched l s1.
Proof.
  assert (forall (c : M Value), keeps (latched l) c ->
            (d <- get_done l ;;
             if d then ret VUndefined else set_done l ;;; c) s = Ok a s1 ->
            latched l s1) as Hgen.
  { intros c Hc. unfold bind at 1, get_done.
    destruct (latches s !! l) as [[]|] eqn:E; try done.
    - by intros [= _ <-].
    - unfold bind. destruct (set_done l s) as [[] s0| | |] eqn:E0; try done.
      intros Hcs. apply set_done_latched in E0.
      specialize (Hc s0 E0). by rewrite Hcs in Hc. }
  destruct b; simpl; destruct fuel as [|f]; simpl; apply Hgen.
  - apply keeps_bind; [apply keeps_out_of_fuel|]. intros; apply keeps_ret.
  - apply keeps_bind; [apply (latched_interpreter user_fn l f)|].
    intros; apply keeps_ret.
  - apply keeps_bind; [apply latched_settle|]. intros; apply keeps_ret.
  - apply keeps_bind; [apply latched_settle|]. intros; apply keeps_ret.
Qed.

(** ** Scripts of start routines *)

Lemma script_calls_latch (user_fn : UserFns) fuel l p c calls s s1 :
  for_each (fun c =>
              match c with
              | CallResolve v =>
                  call1 user_fn fuel (FnResolveCb l p) v ;;; ret tt
              | CallReject v =>
                  call1 user_fn fuel (FnRejectCb l p) v ;;; ret tt
              end) (c :: calls) s = Ok tt s1 ->
  latched l s1.
Proof.
  match goal with
  | |- context [for_each ?b (c :: calls)] => set (body := b)
  end.
  change (for_each body (c :: calls) s)
    with (bind (body c) (fun _ => for_each body calls) s).
  unfold bind at 1.
  destruct (body c s) as [[] s0| | |] eqn:E0; try done.
  assert (latched l s0) as Hs0.
  { subst body. destruct c as [v|v]; simpl in E0; unfold bind at 1 in E0.
    - destruct (call1 user_fn fuel (FnResolveCb l p) v s) eqn:Ec; try done.
      injection E0 as <-.
      by apply (completion_callback_latches user_fn fuel true l p v s) in Ec.
    - destruct (call1 user_fn fuel (FnRejectCb l p) v s) eqn:Ec; try done.
      injection E0 as <-.
      by apply (completion_callback_latches user_fn fuel false l p v s) in Ec. }
  intros Hrest.
  assert (keeps (latched l) (for_each body calls)) as Hk.
  { apply keeps_for_each. intros [v|v]; subst body;
      (apply keeps_bind; [apply (latched_interpreter user_fn l fuel)|]);
      intros; apply keeps_ret. }
  specialize (Hk s0 Hs0). by rewrite Hrest in Hk.
Qed.

Lemma call2_script (user_fn : UserFns) fuel calls raises l p s :
  call2 user_fn (S fuel) (ExScript (calls, raises)) (FnResolveCb l p)
        (FnRejectCb l p) s
  = match
      for_each (fun c =>
                  match c with
                  | CallResolve v =>
                      call1 user_fn fuel (FnResolveCb l p) v ;;; ret tt
                  | CallReject v =>
                      call1 user_fn fuel (FnRejectCb l p) v ;;; ret tt
                  end) calls s
    with
    | Ok _ s1 =>
        match raises with
        | Some ex => Thrown ex s1
        | None => Ok tt s1
        end
    | Thrown e s1 => Thrown e s1
    | Ill => Ill
    | OutOfFuel => OutOfFuel
    end.
Proof.
  cbn [call2]. unfold bind at 1.
  match goal with
  | |- context [for_each ?b calls s] => destruct (for_each b calls s)
  end; try done.
  by destruct raises.
Qed.

Lemma get_done_ok l b s : latches s !! l = Some b -> get_done l s = Ok b s.
Proof. unfold get_done. by intros ->. Qed.

Lemma set_done_ok l b s :
  latches s !! l = Some b -> set_done l s = Ok tt (set_latch l s).
Proof. unfold set_done. by intros ->. Qed.

Lemma reject_callback_first (user_fn : UserFns) fuel l p v r s :
  latches s !! l = Some false ->
  heap s !! p = Some r ->
  wf_deferreds r = true ->
  call1 user_fn (S fuel) (FnRejectCb l p) v s
  = Ok VUndefined (settle_store 2 v p r (set_latch l s)).
Proof.
  intros Hl Hp Hwf. cbn [call1].
  rewrite (bind_ok _ _ _ _ _ (get_done_ok _ _ _ Hl)). cbv iota.
  rewrite (bind_ok _ _ _ _ _ (set_done_ok _ _ _ Hl)).
  by erewrite bind_ok by (by apply reject_spec).
Qed.

Lemma resolve_plain (user_fn : UserFns) fuel self v :
  plain v = true -> resolve user_fn fuel self v = fulfill fuel self v.
Proof. by destruct fuel, v as [| | | | | | | | | |[]|]. Qed.

Lemma resolve_callback_first (user_fn : UserFns) fuel l p v r s :
  plain v = true ->
  latches s !! l = Some false ->
  heap s !! p = Some r ->
  wf_deferreds r = true ->
  call1 user_fn (S (S fuel)) (FnResolveCb l p) v s
  = Ok VUndefined (settle_store 1 v p r (set_latch l s)).
Proof.
  intros Hv Hl Hp Hwf. cbn [call1].
  rewrite (bind_ok _ _ _ _ _ (get_done_ok _ _ _ Hl)). cbv iota.
  rewrite (bind_ok _ _ _ _ _ (set_done_ok _ _ _ Hl)).
  rewrite resolve_plain by done.
  by erewrite bind_ok by (by apply fulfill_spec).
Qed.

Lemma get_anyEnv_ok n e s : anyEnvs s !! n = Some e -> get_anyEnv n s = Ok e s.
Proof. unfold get_anyEnv. by intros ->. Qed.

Lemma get_allEnv_ok n e s : allEnvs s !! n = Some e -> get_allEnv n s = Ok e s.
Proof. unfold get_allEnv. by intros ->. Qed.

(** ** [Promise.any] *)

(** X25: in the run [any_second_rejects_first], where the first input of
    [any] is pending and the second is already rejected with ["b"] when
    [any] is called, and the first is rejected with ["a"] afterwards, both
    inputs end rejected, with ["a"] and ["b"] in input order, and the
    aggregate carries ["b"; "a"], the order in which the rejections
    arrived. *)
Lemma any_reasons_not_in_input_order :
  exists p1 p2 a s,
    any_second_rejects_first init_state = Ok (p1, p2, a) s /\
    rejected_with s p1 (VStr "a") /\
    rejected_with s p2 (VStr "b") /\
    rejected_with s a (getAggregateError [VStr "b"; VStr "a"]) /\
    ~ rejected_with s a (getAggregateError [VStr "a"; VStr "b"]).
Proof.
  eexists _, _, _, _. split; [vm_compute; reflexivity|].
  repeat split.
  - by eexists.
  - by eexists.
  - by eexists.
  - intros (r & Hr & _ & Hv). vm_compute in Hr.
    injection Hr as <-. discriminate Hv.
Qed.

Lemma rejectionCheck_not_last (user_fn : UserFns) fuel env e a s :
  anyEnvs s !! env = Some e ->
  length (any_rejectionReasons e ++ [a]) <> any_length e ->
  call1 user_fn fuel (FnAnyRejectionCheck env) a s
  = Ok VUndefined
       (mkState (heap s) (latches s) (queue s) (allEnvs s)
                (<[env := any_env_with e (any_rejectionReasons e ++ [a])]>
                   (anyEnvs s))).
Proof.
  intros He Hlen.
  destruct fuel; cbn [call1];
    rewrite (bind_ok _ _ _ _ _ (get_anyEnv_ok _ _ _ He));
    (erewrite bind_ok by reflexivity);
    (destruct (Nat.eqb_spec (length (any_rejectionReasons e ++ [a]))
                            (any_length e)) as [|_]; [done|]);
    reflexivity.
Qed.

Lemma rejectionCheck_last (user_fn : UserFns) fuel env e a l p r s :
  anyEnvs s !! env = Some e ->
  length (any_rejectionReasons e ++ [a]) = any_length e ->
  any_reject e = FnRejectCb l p ->
  latches s !! l = Some false ->
  heap s !! p = Some r ->
  wf_deferreds r = true ->
  call1 user_fn (S (S fuel)) (FnAnyRejectionCheck env) a s
  = Ok VUndefined
       (any_all_rejected_store env l p e r (any_rejectionReasons e ++ [a]) s).
Proof.
  intros He Hlen Hrej Hl Hp Hwf.
  cbn [call1]. rewrite (bind_ok _ _ _ _ _ (get_anyEnv_ok _ _ _ He)).
  erewrite bind_ok by reflexivity.
  rewrite Hlen, Nat.eqb_refl.
  erewrite bind_ok; [reflexivity|].
  erewrite bind_ok; [reflexivity|].
  unfold any_all_rejected_store, any_env_with. rewrite Hrej.
  exact (reject_callback_first user_fn fuel l p _ r (mkState _ _ _ _ _)
           Hl Hp Hwf).
Qed.

Lemma rejectionChecks_in_call_order (user_fn : UserFns) fuel env l p r :
  forall reasons e s,
    reasons <> [] ->
    anyEnvs s !! env = Some e ->
    length (any_rejectionReasons e ++ reasons) = any_length e ->
    any_reject e = FnRejectCb l p ->
    latches s !! l = Some false ->
    heap s !! p = Some r ->
    wf_deferreds r = true ->
    for_each (fun reason =>
                call1 user_fn (S (S fuel)) (FnAnyRejectionCheck env) reason
                ;;; ret tt) reasons s
    = Ok tt (any_all_rejected_store env l p e r
               (any_rejectionReasons e ++ reasons) s).
Proof.
  induction reasons as [|a reasons IH]; intros e s Hne He Hlen Hrej Hl Hp Hwf;
    [done|].
  cbn [for_each]. destruct reasons as [|b reasons].
  - erewrite bind_ok; [reflexivity|].
    by erewrite bind_ok by (by eapply rejectionCheck_last).
  - erewrite bind_ok; cycle 1.
    { erewrite bind_ok; [reflexivity|].
      apply rejectionCheck_not_last; [done|].
      rewrite <- Hlen, !length_app. simpl. lia. }
    pose proof (lookup_lt_Some _ _ _ He) as Hlt.
    erewrite (IH (any_env_with e (any_rejectionReasons e ++ [a]))); cycle 1.
    + done.
    + cbn [anyEnvs]. by apply list_lookup_insert_eq.
    + cbn [any_env_with any_rejectionReasons any_length].
      by rewrite <- app_assoc.
    + done.
    + done.
    + done.
    + done.
    + unfold any_all_rejected_store, any_env_with.
      unfold set_latch.
      cbn [anyEnvs heap latches queue allEnvs any_rejectionReasons any_length
           any_hasResolved any_resolve any_reject].
      by rewrite list_insert_insert_eq, <- app_assoc.
Qed.

Lemma doResolve_returns (user_fn : UserFns) fuel fn p s s' b :
  call2 user_fn fuel fn (FnResolveCb (length (latches s)) p)
        (FnRejectCb (length (latches s)) p) (with_new_latch s) = Ok tt s' ->
  latches s' !! length (latches s) = Some b ->
  doResolve user_fn (S fuel) fn p s = Ok tt s'.
Proof.
  intros Hcall Hl. cbn [doResolve].
  rewrite (bind_ok new_latch _ s _ _ eq_refl).
  erewrite bind_ok; cycle 1.
  { unfold tryCallTwo, try_catch. fold (with_new_latch s).
    by rewrite Hcall. }
  by rewrite (bind_ok _ _ _ _ _ (get_done_ok _ _ _ Hl)).
Qed.

Lemma new_Promise_returns (user_fn : UserFns) fuel fn s s' b :
  call2 user_fn fuel fn (FnResolveCb (length (latches s)) (length (heap s)))
        (FnRejectCb (length (latches s)) (length (heap s)))
        (with_new_latch
           (set_heap (heap s ++ [mkPromise 0 0 VNull DNull]) s)) = Ok tt s' ->
  latches s' !! length (latches s) = Some b ->
  new_Promise (doResolve user_fn (S fuel)) fn s = Ok (length (heap s)) s'.
Proof.
  intros Hcall Hl. unfold new_Promise.
  rewrite (bind_ok new_noop _ s _ _ eq_refl).
  by erewrite bind_ok by (by eapply doResolve_returns).
Qed.

Lemma lookup_settle_store st v p r s :
  heap s !! p = Some r ->
  heap (settle_store st v p r s) !! p = Some (settled st v r).
Proof.
  intros Hr. simpl. apply list_lookup_insert_eq. by apply lookup_lt_Some in Hr.
Qed.

Lemma Promise_any_empty (user_fn : UserFns) fuel s :
  exists s',
    Promise_any user_fn (S (S (S fuel))) [] s = Ok (length (heap s)) s' /\
    rejected_with s' (length (heap s)) (getAggregateError []) /\
    queue s' = queue s.
Proof.
  eexists. split; [|split].
  - unfold Promise_any. eapply new_Promise_returns.
    + cbn [call2]. erewrite bind_ok by reflexivity. cbn [length Nat.eqb].
      erewrite bind_ok; [reflexivity|].
      eapply reject_callback_first.
      * cbn [latches with_new_latch set_heap].
        by apply list_lookup_middle.
      * cbn [heap with_new_latch set_heap]. by apply list_lookup_middle.
      * done.
    + cbn [latches settle_store set_latch with_new_latch set_heap].
      rewrite list_lookup_insert_eq; [done|].
      rewrite length_app. simpl. lia.
  - eexists. split; [|split].
    + apply lookup_settle_store.
      cbn [heap set_latch with_new_latch set_heap]. by apply list_lookup_middle.
    + done.
    + done.
  - simpl. by rewrite app_nil_r.
Qed.

(** ** [Promise.all] *)

(** [res(i, val)] for a value that is stored as it is, when other inputs are
    still awaited. *)
Lemma all_res_store_not_last (user_fn : UserFns) fuel env e i v s :
  allEnvs s !! env = Some e ->
  plain v = true ->
  all_remaining e - 1 <> 0 ->
  all_res user_fn (S fuel) env i v s
  = Ok tt (set_allEnv env
             (all_env_with e (<[i := v]> (all_args e)) (all_remaining e - 1))
             s).
Proof.
  intros He Hv Hrem. cbn [all_res].
  rewrite (bind_ok _ _ _ _ _ (get_allEnv_ok _ _ _ He)). cbv zeta.
  assert ((put_allEnv env
             (mkAllEnv (<[i := v]> (all_args e)) (all_remaining e - 1)
                       (all_resolve e) (all_reject e)) ;;;
           if all_remaining e - 1 =? 0
           then call1 user_fn fuel (all_resolve e)
                      (VArray (<[i := v]> (all_args e))) ;;; ret tt
           else ret tt) s
          = Ok tt (set_allEnv env
                     (all_env_with e (<[i := v]> (all_args e))
                                   (all_remaining e - 1)) s)) as Hstore.
  { erewrite bind_ok by reflexivity.
    by destruct (Z.eqb_spec (all_remaining e - 1) 0). }
  by destruct v as [| | | | | | | | | |[]|].
Qed.

(** The same for the last awaited input: the promise of [all] is fulfilled
    with the array. *)
Lemma all_res_store_last (user_fn : UserFns) fuel env e i v l p r s :
  allEnvs s !! env = Some e ->
  plain v = true ->
  all_remaining e - 1 = 0 ->
  all_resolve e = FnResolveCb l p ->
  latches s !! l = Some false ->
  heap s !! p = Some r ->
  wf_deferreds r = true ->
  all_res user_fn (S (S (S fuel))) env i v s
  = Ok tt (settle_store 1 (VArray (<[i := v]> (all_args e))) p r
             (set_latch l
                (set_allEnv env
                   (all_env_with e (<[i := v]> (all_args e)) 0) s))).
Proof.
  intros He Hv Hrem Hres Hl Hp Hwf. cbn [all_res].
  rewrite (bind_ok _ _ _ _ _ (get_allEnv_ok _ _ _ He)). cbv zeta.
  assert ((put_allEnv env
             (mkAllEnv (<[i := v]> (all_args e)) (all_remaining e - 1)
                       (all_resolve e) (all_reject e)) ;;;
           if all_remaining e - 1 =? 0
           then call1 user_fn (S (S fuel)) (all_resolve e)
                      (VArray (<[i := v]> (all_args e))) ;;; ret tt
           else ret tt) s
          = Ok tt (settle_store 1 (VArray (<[i := v]> (all_args e))) p r
                     (set_latch l
                        (set_allEnv env
                           (all_env_with e (<[i := v]> (all_args e)) 0) s))))
    as Hstore.
  { erewrite bind_ok by reflexivity. rewrite Hrem. cbn [Z.eqb].
    erewrite bind_ok; [reflexivity|].
    unfold all_env_with. rewrite Hres.
    exact (resolve_callback_first user_fn fuel l p (VArray _) r
             (mkState _ _ _ _ _) eq_refl Hl Hp Hwf). }
  by destruct v as [| | | | | | | | | |[]|].
Qed.









(** One unfolding of [res(i, val)] for a promise of this implementation. *)
Lemma all_res_promise_eq (user_fn : UserFns) fuel env i p :
  all_res user_fn (S fuel) env i (VPromise p)
  = (e <- get_allEnv env ;;
     val <- follow (S fuel) p ;;
     r <- get_promise val ;;
     if _state r =? 1 then all_res user_fn fuel env i (_value r)
     else
       (if _state r =? 2 then
          call1 user_fn fuel (all_reject e) (_value r) ;;; ret tt
        else ret tt) ;;;
       then_ (S fuel) val (VFunction (FnAllRes env i))
             (VFunction (all_reject e)) ;;;
       ret tt).
Proof. reflexivity. Qed.

Lemma all_res_fulfilled_promise (user_fn : UserFns) fuel env i q r e s :
  allEnvs s !! env = Some e ->
  heap s !! q = Some r ->
  _state r = 1 ->
  all_res user_fn (S fuel) env i (VPromise q) s
  = all_res user_fn fuel env i (_value r) s.
Proof.
  intros He Hq Hst. rewrite all_res_promise_eq.
  rewrite (bind_ok _ _ _ _ _ (get_allEnv_ok _ _ _ He)).
  erewrite bind_ok by (eapply follow_settled; [done|lia]).
  rewrite (bind_ok _ _ _ _ _ (get_promise_ok _ _ _ Hq)).
  by rewrite Hst.
Qed.

Lemma then_settled fuel self r onF onR s :
  heap s !! self = Some r -> _state r <> 0 -> _state r <> 3 ->
  then_ (S fuel) self onF onR s
  = Ok (length (heap s)) (then_settled_store self onF onR s).
Proof.
  intros Hr H0 H3. unfold then_.
  rewrite (bind_ok new_noop _ s _ _ eq_refl).
  erewrite bind_ok; [reflexivity|].
  eapply handle_settled; [|done|done].
  cbn [heap set_heap]. by apply lookup_app_l_Some.
Qed.



Lemma for_each_app {A} (body : A -> M unit) xs ys s s1 :
  for_each body xs s = Ok tt s1 ->
  for_each body (xs ++ ys) s = for_each body ys s1.
Proof.
  revert s. induction xs as [|x xs IH]; intros s; simpl.
  - by intros [= ->].
  - unfold bind. destruct (body x s) as [[] s0| | |]; try done.
    apply IH.
Qed.

Lemma ready_fulfilled_mono s s' ext x :
  heap s' = heap s ++ ext -> ready_fulfilled s x -> ready_fulfilled s' x.
Proof.
  intros Hh. destruct x; try done. intros (r & Hr & ?).
  exists r. split; [|done]. rewrite Hh. by apply lookup_app_l_Some.
Qed.

Lemma ready_rejected_mono s s' ext x :
  heap s' = heap s ++ ext -> ready_rejected s x -> ready_rejected s' x.
Proof.
  intros Hh. destruct x; try done. intros (r & Hr & ?).
  exists r. split; [|done]. rewrite Hh. by apply lookup_app_l_Some.
Qed.

Lemma ready_mono s s' ext x :
  heap s' = heap s ++ ext -> ready s x -> ready s' x.
Proof.
  intros Hh [H|H]; [left|right];
    eauto using ready_fulfilled_mono, ready_rejected_mono.
Qed.



(** [res] on an input that is ready and fulfilled stores its value. *)
Lemma all_res_ready_fulfilled_not_last (user_fn : UserFns)
    fuel env e i x s :
  allEnvs s !! env = Some e ->
  ready_fulfilled s x ->
  all_remaining e - 1 <> 0 ->
  plain (value_of s x) = true /\
  all_res user_fn (S (S fuel)) env i x s
  = Ok tt (set_allEnv env
             (all_env_with e (<[i := value_of s x]> (all_args e))
                           (all_remaining e - 1)) s).
Proof.
  intros He Hx Hrem.
  destruct x as [| | | | |q| | | | |t|];
    try (split; [exact Hx|by apply all_res_store_not_last]).
  simpl in Hx. destruct Hx as (r & Hq & Hst & Hv).
  cbn [value_of]. rewrite Hq. split; [done|].
  erewrite all_res_fulfilled_promise by done.
  by apply all_res_store_not_last.
Qed.

Lemma all_res_ready_fulfilled_last (user_fn : UserFns)
    fuel env e i x l p r s :
  allEnvs s !! env = Some e ->
  ready_fulfilled s x ->
  all_remaining e - 1 = 0 ->
  all_resolve e = FnResolveCb l p ->
  latches s !! l = Some false ->
  heap s !! p = Some r ->
  wf_deferreds r = true ->
  all_res user_fn (S (S (S (S fuel)))) env i x s
  = Ok tt (all_fulfilled_store env l p e r
             (<[i := value_of s x]> (all_args e)) s).
Proof.
  intros He Hx Hrem Hres Hl Hp Hwf.
  destruct x as [| | | | |q| | | | |t|];
    try (by apply all_res_store_last).
  simpl in Hx. destruct Hx as (r' & Hq & Hst & Hv).
  cbn [value_of]. rewrite Hq.
  erewrite all_res_fulfilled_promise by done.
  by apply all_res_store_last.
Qed.

Lemma all_scan_fulfilled (user_fn : UserFns) fuel env l p r :
  forall rest filled s e,
    rest <> [] ->
    allEnvs s !! env = Some e ->
    all_args e = filled ++ rest ->
    all_remaining e = Z.of_nat (length rest) ->
    all_resolve e = FnResolveCb l p ->
    latches s !! l = Some false ->
    heap s !! p = Some r ->
    wf_deferreds r = true ->
    Forall (ready_fulfilled s) rest ->
    for_each (fun iv =>
                all_res user_fn (S (S (S (S fuel)))) env (fst iv) (snd iv))
             (imap (fun i v => ((length filled + i)%nat, v)) rest) s
    = Ok tt (all_fulfilled_store env l p e r
               (filled ++ map (value_of s) rest) s).
Proof.
  induction rest as [|x rest IH];
    intros filled s e Hne He Hargs Hrem Hres Hl Hp Hwf Hready; [done|].
  apply Forall_cons in Hready as [Hx Hready].
  rewrite imap_cons. cbn [for_each fst snd map].
  destruct rest as [|y rest].
  - erewrite bind_ok; [reflexivity|].
    erewrite all_res_ready_fulfilled_last; try done.
    + by rewrite Hargs, insert_app_r.
    + rewrite Hrem. simpl. lia.
  - destruct (all_res_ready_fulfilled_not_last user_fn (S (S fuel)) env e
                (length filled + 0) x s) as [Hv Hstep]; [done|done| |].
    { rewrite Hrem. simpl length. lia. }
    erewrite bind_ok by exact Hstep.
    pose proof (lookup_lt_Some _ _ _ He) as Hlt.
    set (e1 := all_env_with e (<[(length filled + 0)%nat := value_of s x]>
                                 (all_args e)) (all_remaining e - 1)).
    rewrite (imap_ext _ (fun i v =>
                           ((length (filled ++ [value_of s x]) + i)%nat, v)));
      cycle 1.
    { intros i z _. simpl. rewrite length_app. simpl. f_equal. lia. }
    rewrite (IH (filled ++ [value_of s x]) (set_allEnv env e1 s) e1).
    + unfold all_fulfilled_store, set_allEnv, set_latch, e1, all_env_with.
      cbn [allEnvs heap latches queue anyEnvs all_resolve all_reject].
      rewrite list_insert_insert_eq. cbn [map].
      by rewrite <- app_assoc.
    + done.
    + cbn [allEnvs set_allEnv]. by apply list_lookup_insert_eq.
    + cbn [e1 all_env_with all_args]. rewrite Hargs, insert_app_r.
      by rewrite <- app_assoc.
    + cbn [e1 all_env_with all_remaining]. rewrite Hrem. simpl length. lia.
    + done.
    + done.
    + done.
    + done.
    + done.
Qed.







(** ** A promise that nothing can settle *)

Lemma keeps_with_bind {A B} I (c : M A) (Q : A -> Prop) (k : A -> M B) :
  keeps_with I c Q -> (forall a, Q a -> keeps I (k a)) -> keeps I (bind c k).
Proof.
  intros Hc Hk s Hs. unfold bind. specialize (Hc s Hs).
  destruct (c s) as [a s1|ex s1| |]; try done.
  destruct Hc as [H1 Ha]. by apply Hk.
Qed.

Section Orphan.

Variable p : nat.

Lemma orphan_get_promise q :
  keeps_with (orphan p) (get_promise q) (read_of p q).
Proof.
  intros s Hs. unfold get_promise.
  destruct (heap s !! q) as [r|] eqn:E; [|done].
  split; [done|]. split.
  - destruct Hs as [_ [Hh _ _ _]]. rewrite Forall_forall in Hh. apply Hh.
    by apply list_elem_of_lookup_2 in E.
  - intros ->. destruct Hs as [(r' & Hr' & Hst) _]. congruence.
Qed.

Lemma orphan_put_promise q r :
  safe_rec p r -> (q = p -> _state r = 0) -> keeps (orphan p) (put_promise q r).
Proof.
  intros Hr Hq s Hs. unfold put_promise.
  destruct (heap s !! q) as [r0|] eqn:E; [|done].
  destruct Hs as [(rp & Hrp & Hst) [Hh Hqu Ha Hn]].
  split; [|split; try done].
  - destruct (decide (q = p)) as [->|Hne].
    + exists r. split; [|by apply Hq]. simpl.
      apply list_lookup_insert_eq. by apply lookup_lt_Some in E.
    + exists rp. split; [|done]. simpl. by rewrite list_lookup_insert_ne.
  - simpl. by apply Forall_insert.
Qed.

Lemma orphan_modify_promise q f :
  (forall r, read_of p q r -> read_of p q (f r)) ->
  keeps (orphan p) (modify_promise q f).
Proof.
  intros Hf. eapply keeps_with_bind; [apply orphan_get_promise|].
  intros r Hr. destruct (Hf r Hr). by apply orphan_put_promise.
Qed.

Lemma orphan_fresh s : orphan p s -> length (heap s) <> p.
Proof.
  intros [(r & Hr & _) _]. apply lookup_lt_Some in Hr. lia.
Qed.

Lemma orphan_alloc r s :
  safe_rec p r -> orphan p s -> orphan p (set_heap (heap s ++ [r]) s).
Proof.
  intros Hr [(rp & Hrp & Hst) [Hh Hqu Ha Hn]].
  split; [|split; try done].
  - exists rp. split; [|done]. simpl. by apply lookup_app_l_Some.
  - simpl. apply Forall_app. split; [done|]. by constructor.
Qed.

Lemma orphan_new_noop : keeps_with (orphan p) new_noop (fun q => q <> p).
Proof.
  intros s Hs. simpl. split; [|by apply orphan_fresh].
  apply orphan_alloc; [|done]. constructor.
Qed.

Lemma orphan_valuePromise v :
  keeps_with (orphan p) (valuePromise v) (fun q => q <> p).
Proof.
  intros s Hs. simpl. split; [|by apply orphan_fresh].
  apply orphan_alloc; [|done]. constructor.
Qed.

Lemma orphan_asap q d :
  q <> p -> safe_handler p d -> keeps (orphan p) (asap (q, d)).
Proof.
  intros Hq Hd s [Hp [Hh Hqu Ha Hn]]. simpl.
  split; [done|split; try done]. simpl.
  apply Forall_app. split; [done|]. by constructor.
Qed.

Lemma orphan_new_latch : keeps (orphan p) new_latch.
Proof. intros s [Hp [Hh Hqu Ha Hn]]. simpl. by split; [|split]. Qed.

Lemma orphan_set_done l : keeps (orphan p) (set_done l).
Proof.
  intros s [Hp [Hh Hqu Ha Hn]]. unfold set_done.
  destruct (latches s !! l); [|done]. by split; [|split].
Qed.

Lemma orphan_new_allEnv e : safe_allEnv p e -> keeps (orphan p) (new_allEnv e).
Proof.
  intros He s [Hp [Hh Hqu Ha Hn]]. simpl. split; [done|split; try done].
  simpl. apply Forall_app. split; [done|]. by constructor.
Qed.

Lemma orphan_put_allEnv n e :
  safe_allEnv p e -> keeps (orphan p) (put_allEnv n e).
Proof.
  intros He s [Hp [Hh Hqu Ha Hn]]. simpl. split; [done|split; try done].
  simpl. by apply Forall_insert.
Qed.

Lemma orphan_get_allEnv n :
  keeps_with (orphan p) (get_allEnv n) (safe_allEnv p).
Proof.
  intros s Hs. unfold get_allEnv.
  destruct (allEnvs s !! n) as [e|] eqn:E; [|done]. split; [done|].
  destruct Hs as [_ [_ _ Ha _]]. rewrite Forall_forall in Ha. apply Ha.
  by apply list_elem_of_lookup_2 in E.
Qed.

Lemma orphan_new_anyEnv e : safe_anyEnv p e -> keeps (orphan p) (new_anyEnv e).
Proof.
  intros He s [Hp [Hh Hqu Ha Hn]]. simpl. split; [done|split; try done].
  simpl. apply Forall_app. split; [done|]. by constructor.
Qed.

Lemma orphan_put_anyEnv n e :
  safe_anyEnv p e -> keeps (orphan p) (put_anyEnv n e).
Proof.
  intros He s [Hp [Hh Hqu Ha Hn]]. simpl. split; [done|split; try done].
  simpl. by apply Forall_insert.
Qed.

Lemma orphan_get_anyEnv n :
  keeps_with (orphan p) (get_anyEnv n) (safe_anyEnv p).
Proof.
  intros s Hs. unfold get_anyEnv.
  destruct (anyEnvs s !! n) as [e|] eqn:E; [|done]. split; [done|].
  destruct Hs as [_ [_ _ _ Hn]]. rewrite Forall_forall in Hn. apply Hn.
  by apply list_elem_of_lookup_2 in E.
Qed.

End Orphan.

Lemma keeps_for_each_Forall {A} I (body : A -> M unit) xs :
  Forall (fun x => keeps I (body x)) xs -> keeps I (for_each body xs).
Proof.
  induction 1 as [|x xs Hx _ IH]; simpl; [apply keeps_ret|].
  by apply keeps_bind.
Qed.

Lemma keeps_with_keeps {A} I (c : M A) Q : keeps_with I c Q -> keeps I c.
Proof.
  intros Hc s Hs. specialize (Hc s Hs). destruct (c s); try done. tauto.
Qed.

Section OrphanCore.

Variable p : nat.

Lemma orphan_follow fuel : forall self, keeps (orphan p) (follow fuel self).
Proof.
  induction fuel as [|fuel IH]; intros self; simpl; [done|].
  eapply keeps_with_bind; [apply orphan_get_promise|]. intros r _.
  destruct (_state r =? 3); [|apply keeps_ret].
  destruct (_value r); try apply keeps_ill. apply IH.
Qed.

Lemma orphan_handle fuel self d :
  safe_handler p d -> keeps (orphan p) (handle fuel self d).
Proof.
  intros Hd. apply keeps_bind; [apply orphan_follow|]. intros q.
  eapply keeps_with_bind; [apply orphan_get_promise|]. intros r [Hr Hq].
  unfold safe_rec in Hr.
  destruct (Z.eqb_spec (_state r) 0) as [Hst|Hst].
  - destruct (_deferredState r =? 0).
    { apply orphan_put_promise; [|done].
      unfold safe_rec. simpl. by apply Forall_singleton. }
    destruct (_deferredState r =? 1).
    + destruct (_deferreds r) as [|d0|ds] eqn:Ed; try apply keeps_ill.
      apply orphan_put_promise; [|done].
      apply Forall_cons in Hr as [Hd0 _].
      unfold safe_rec. simpl. apply Forall_cons. split; [done|].
      by apply Forall_singleton.
    + destruct (_deferreds r) as [|d0|ds] eqn:Ed; try apply keeps_ill.
      apply orphan_put_promise; [|done].
      unfold safe_rec. simpl. apply Forall_app. split; [done|].
      by apply Forall_singleton.
  - apply orphan_asap; [|done]. intros ->. by apply Hst, Hq.
Qed.

Lemma read_of_set_deferreds_DNull q r :
  read_of p q r -> read_of p q (set_deferreds DNull r).
Proof. intros [_ Hq]. split; [constructor|done]. Qed.

Lemma orphan_finale fuel self : keeps (orphan p) (finale fuel self).
Proof.
  eapply keeps_with_bind; [apply orphan_get_promise|]. intros r [Hr _].
  unfold safe_rec in Hr. apply keeps_bind.
  - destruct (_deferredState r =? 1); [|apply keeps_ret].
    destruct (_deferreds r) as [|d|ds]; try apply keeps_ill.
    apply Forall_cons in Hr as [Hd _].
    apply keeps_bind; [by apply orphan_handle|]. intros _.
    apply orphan_modify_promise, read_of_set_deferreds_DNull.
  - intros _. eapply keeps_with_bind; [apply orphan_get_promise|].
    intros r' [Hr' _]. unfold safe_rec in Hr'.
    destruct (_deferredState r' =? 2); [|apply keeps_ret].
    destruct (_deferreds r') as [|d|ds]; try apply keeps_ill.
    apply keeps_bind.
    + apply keeps_for_each_Forall.
      eapply Forall_impl; [exact Hr'|]. intros d Hd. by apply orphan_handle.
    + intros _. apply orphan_modify_promise, read_of_set_deferreds_DNull.
Qed.

(** Settling any promise other than [p]. *)
Lemma orphan_settle fuel st v self :
  self <> p ->
  keeps (orphan p) (modify_promise self (set_state st) ;;;
                    modify_promise self (set_value v) ;;;
                    finale fuel self).
Proof.
  intros Hne.
  apply keeps_bind.
  { apply orphan_modify_promise. by intros r [Hr _]. }
  intros _. apply keeps_bind.
  { apply orphan_modify_promise. by intros r [Hr _]. }
  intros _. apply orphan_finale.
Qed.

Lemma orphan_then fuel self onF onR :
  safe_value p onF -> safe_value p onR ->
  keeps (orphan p) (then_ fuel self onF onR).
Proof.
  intros HF HR. eapply keeps_with_bind; [apply orphan_new_noop|].
  intros res Hres. apply keeps_bind; [|intros; apply keeps_ret].
  apply orphan_handle. split; [done|].
  by destruct onF, onR.
Qed.

Lemma orphan_new_Promise doRes fn :
  (forall fn q, q <> p -> keeps (orphan p) (doRes fn q)) ->
  keeps (orphan p) (new_Promise doRes fn).
Proof.
  intros H. eapply keeps_with_bind; [apply orphan_new_noop|].
  intros q Hq. apply keeps_bind; [by apply H|]. intros; apply keeps_ret.
Qed.

Lemma orphan_Promise_resolve_with doRes v :
  (forall fn q, q <> p -> keeps (orphan p) (doRes fn q)) ->
  keeps (orphan p) (Promise_resolve_with doRes v).
Proof.
  intros H. unfold Promise_resolve_with.
  assert (keeps (orphan p) (valuePromise v)) as Hvp
    by (eapply keeps_with_keeps; apply orphan_valuePromise).
  destruct v; try apply keeps_ret;
    repeat (match goal with
            | |- keeps _ (if ?b then _ else _) => destruct b
            end; try apply keeps_ret);
    try exact Hvp;
    (apply keeps_bind; [apply keeps_getThen|]);
    intros [[| |]|]; try exact Hvp; by apply orphan_new_Promise.
Qed.

End OrphanCore.

Section OrphanInterpreter.

Variable user_fn : UserFns.
Variable p : nat.

Ltac orphan_step :=
  match goal with
  | |- keeps _ (bind (get_promise _) _) =>
      eapply keeps_with_bind; [apply orphan_get_promise|intros ? [? ?]]
  | |- keeps _ (bind (get_allEnv _) _) =>
      eapply keeps_with_bind; [apply orphan_get_allEnv|intros ? [? ?]]
  | |- keeps _ (bind (get_anyEnv _) _) =>
      eapply keeps_with_bind; [apply orphan_get_anyEnv|intros ? [? ?]]
  | |- keeps _ (bind new_noop _) =>
      eapply keeps_with_bind; [apply orphan_new_noop|intros ? ?]
  | |- keeps _ (bind _ _) => apply keeps_bind; [|intros ?]
  | |- keeps _ (ret _) => apply keeps_ret
  | |- keeps _ (throw _) => apply keeps_throw
  | |- keeps _ ill => apply keeps_ill
  | |- keeps _ out_of_fuel => apply keeps_out_of_fuel
  | |- keeps _ (try_catch _) => apply keeps_try_catch
  | |- keeps _ (tryCallOne _ _ _) => unfold tryCallOne; apply keeps_try_catch
  | |- keeps _ (tryCallTwo _ _ _ _) =>
      unfold tryCallTwo; apply keeps_try_catch
  | |- keeps _ (getThen _) => apply keeps_getThen
  | |- keeps _ (read_then _) => apply keeps_read_then
  | |- keeps _ (for_each _ _) => apply keeps_for_each; intros ?
  | |- keeps _ (get_done _) => apply keeps_get_done
  | |- keeps _ new_latch => apply orphan_new_latch
  | |- keeps _ (set_done _) => apply orphan_set_done
  | |- keeps _ (new_allEnv _) => apply orphan_new_allEnv; by split
  | |- keeps _ (put_allEnv _ _) => apply orphan_put_allEnv; by split
  | |- keeps _ (new_anyEnv _) => apply orphan_new_anyEnv; by split
  | |- keeps _ (put_anyEnv _ _) => apply orphan_put_anyEnv; by split
  | |- keeps _ (follow _ _) => apply orphan_follow
  | |- keeps _ (reject _ _ _) => apply orphan_settle; done
  | |- keeps _ (fulfill _ _ _) => apply orphan_settle; done
  | |- keeps _ (adopt _ _ _) => apply orphan_settle; done
  | |- keeps _ (then_ _ _ _ _) => apply orphan_then; done
  | |- keeps _ (if ?b then _ else _) => destruct b
  | |- keeps _ (match ?x with _ => _ end) => destruct x
  end.

Lemma orphan_interpreter fuel : interpreter_keeps_orphan user_fn p fuel.
Proof.
  induction fuel as [fuel IH] using lt_wf_ind.
  assert (forall f fn q, (f < fuel)%nat -> q <> p ->
            keeps (orphan p) (doResolve user_fn f fn q)) as IHd
    by (intros f fn q Hf; apply (IH f Hf)).
  assert (forall f fn a, (f < fuel)%nat -> safe_fn p fn ->
            keeps (orphan p) (call1 user_fn f fn a)) as IHc
    by (intros f fn a Hf; apply (IH f Hf)).
  assert (forall f env i v, (f < fuel)%nat ->
            keeps (orphan p) (all_res user_fn f env i v)) as IHa
    by (intros f env i v Hf; apply (IH f Hf)).
  assert (forall f self v, (f < fuel)%nat -> self <> p ->
            keeps (orphan p) (resolve user_fn f self v)) as IHr
    by (intros f self v Hf; apply (IH f Hf)).
  repeat split.
  - intros self v Hself. destruct fuel as [|f]; simpl;
      repeat (orphan_step || (apply IHd; [lia|done])).
  - intros fn q Hq. destruct fuel as [|f]; simpl; [done|].
    repeat orphan_step. apply (IH f); [lia|done|done].
  - intros fn a Hfn. destruct fuel as [|f]; simpl;
      repeat (orphan_step
              || (apply IHr; [lia|exact Hfn])
              || (apply IHa; lia)
              || (apply IHc; [lia|done])).
  - intros fn r j Hr Hj. destruct fuel as [|f]; simpl; [done|].
    repeat (orphan_step
            || (apply IHc; [lia|done])
            || (apply IHa; lia)
            || (apply orphan_Promise_resolve_with; intros; apply IHd;
                [lia|done])).
  - intros env i v. destruct fuel as [|f]; simpl; [done|].
    repeat (orphan_step
            || (apply IHa; lia)
            || (apply IHc; [lia|done])
            || (apply orphan_new_Promise; intros; apply IHd; [lia|done])).
Qed.

Lemma orphan_run_task fuel self d :
  safe_handler p d -> keeps (orphan p) (run_task user_fn fuel (self, d)).
Proof.
  intros (Hp & HF & HR). unfold run_task.
  eapply keeps_with_bind; [apply orphan_get_promise|]. intros r _. cbv zeta.
  destruct (_state r =? 1).
  - destruct (onFulfilled d) as [cb|].
    + apply keeps_bind.
      { apply keeps_try_catch. by apply (orphan_interpreter fuel). }
      intros [v|ex]; [by apply (orphan_interpreter fuel)|].
      by apply orphan_settle.
    + by apply (orphan_interpreter fuel).
  - destruct (onRejected d) as [cb|].
    + apply keeps_bind.
      { apply keeps_try_catch. by apply (orphan_interpreter fuel). }
      intros [v|ex]; [by apply (orphan_interpreter fuel)|].
      by apply orphan_settle.
    + by apply orphan_settle.
Qed.

Lemma orphan_step_scheduler fuel : keeps (orphan p) (step user_fn fuel).
Proof.
  intros s Hs. unfold step. destruct (queue s) as [|[self d] q] eqn:Eq; [done|].
  destruct Hs as [Hp [Hh Hqu Ha Hn]]. rewrite Eq in Hqu.
  apply Forall_cons in Hqu as [[_ Hd] Hqu].
  assert (orphan p (mkState (heap s) (latches s) q (allEnvs s) (anyEnvs s)))
    as Hs' by (by split; [|split]).
  pose proof (orphan_run_task fuel self d Hd _ Hs') as Hrun.
  unfold bind.
  by destruct (run_task user_fn fuel (self, d) _).
Qed.

End OrphanInterpreter.

Lemma orphan_mapAllSettled (user_fn : UserFns) p fuel item :
  keeps (orphan p) (mapAllSettled user_fn fuel item).
Proof.
  pose proof (orphan_interpreter user_fn p fuel) as (_ & Hd & _).
  unfold mapAllSettled.
  assert (keeps (orphan p)
            (if is_object_or_function item then
               then' <- read_then item ;;
               match then' with
               | ThenFunction then_bind_item =>
                   p <- new_Promise (doResolve user_fn fuel)
                                    (ExScript then_bind_item) ;;
                   q <- then_ fuel p (VFunction FnOnSettledFulfill)
                              (VFunction FnOnSettledReject) ;;
                   ret (VPromise q)
               | _ => ret (onSettledFulfill item)
               end
             else ret (onSettledFulfill item))) as Hother.
  { destruct (is_object_or_function item); [|apply keeps_ret].
    apply keeps_bind; [apply keeps_read_then|].
    intros [|body|]; try apply keeps_ret.
    apply keeps_bind; [by apply orphan_new_Promise|]. intros q.
    apply keeps_bind; [by apply orphan_then|]. intros; apply keeps_ret. }
  destruct item; try exact Hother.
  apply keeps_bind; [by apply orphan_then|]. intros; apply keeps_ret.
Qed.

Lemma orphan_exec_op (user_fn : UserFns) p fuel op :
  safe_op p op -> keeps (orphan p) (exec_op user_fn fuel op).
Proof.
  pose proof (orphan_interpreter user_fn p fuel) as (_ & Hd & Hc & _).
  intros Hop.
  destruct op; simpl in Hop; (apply keeps_bind; [|intros; apply keeps_ret]).
  - destruct Hop. by apply orphan_then.
  - apply orphan_step_scheduler.
  - by apply Hc.
  - by apply orphan_new_Promise.
  - by apply orphan_Promise_resolve_with.
  - by apply orphan_new_Promise.
  - by apply orphan_new_Promise.
  - apply keeps_bind.
    + apply keeps_map_m. intros; apply orphan_mapAllSettled.
    + intros items. by apply orphan_new_Promise.
  - by apply orphan_new_Promise.
  - by apply orphan_new_Promise.
Qed.

(** C8: [race([])] returns a new pending promise with nothing scheduled; if
    nothing in the store referred to the index it takes, then whatever the
    program does afterwards with the library, without the two completion
    callbacks of that promise (which only the start routine of [race]
    received, and dropped), every store it reaches has the promise pending
    and no closure scheduled for it. *)
Theorem race_empty_never_settles (user_fn : UserFns) fuel s :
  unreferenced (length (heap s)) s ->
  exists s1,
    Promise_race user_fn (S (S fuel)) [] s = Ok (length (heap s)) s1 /\
    heap s1 = heap s ++ [mkPromise 0 0 VNull DNull] /\
    queue s1 = queue s /\
    forall ops fuel',
      Forall (safe_op (length (heap s))) ops ->
      match for_each (exec_op user_fn fuel') ops s1 with
      | Ok _ s2 | Thrown _ s2 =>
          pending s2 (length (heap s)) /\
          Forall (fun t => fst t <> length (heap s)) (queue s2)
      | Ill | OutOfFuel => True
      end.
Proof.
  intros [Hh Hqu Ha Hn]. eexists. split; [|split; [|split]].
  - unfold Promise_race. by eapply new_Promise_returns with (b := false);
      [reflexivity|apply list_lookup_middle].
  - done.
  - done.
  - intros ops fuel' Hops.
    set (p := length (heap s)) in *.
    assert (keeps (orphan p) (for_each (exec_op user_fn fuel') ops)) as Hk.
    { apply keeps_for_each_Forall. eapply Forall_impl; [exact Hops|].
      intros op. apply orphan_exec_op. }
    match goal with
    | |- context [for_each _ ops ?s1] =>
        assert (orphan p s1) as Hs1; [|specialize (Hk s1 Hs1)]
    end.
    { split; [|split; try done].
      - eexists. split; [by apply list_lookup_middle|done].
      - simpl. apply Forall_app. split; [done|]. repeat constructor. }
    match goal with
    | |- context [for_each _ ops ?s1] =>
        destruct (for_each (exec_op user_fn fuel') ops s1)
          as [[] s2|ex s2| |]; try done
    end.
    + destruct Hk as [Hp [_ Hq2 _ _]]. split; [done|].
      eapply Forall_impl; [exact Hq2|]. by intros t [? _].
    + destruct Hk as [Hp [_ Hq2 _ _]]. split; [done|].
      eapply Forall_impl; [exact Hq2|]. by intros t [? _].
Qed.

Lemma race_empty_never_settles_witness :
  exists s1,
    Promise_race sample_fn 2 [] init_state = Ok 6%nat s1 /\
    heap s1 = heap init_state ++ [mkPromise 0 0 VNull DNull] /\
    match
      for_each (exec_op sample_fn 5)
               [OpThen 6 (VFunction (FnUser 0)) VUndefined;
                OpRace [VPromise 6; VNum 1];
                OpRunTask; OpRunTask; OpRunTask] s1
    with
    | Ok _ s2 | Thrown _ s2 =>
        pending s2 6 /\ Forall (fun t => fst t <> 6%nat) (queue s2)
    | Ill | OutOfFuel => True
    end.
Proof.
  destruct (race_empty_never_settles sample_fn 0 init_state)
    as (s1 & Hrace & Hheap & _ & Hlater).
  { by repeat constructor. }
  exists s1. split; [exact Hrace|]. split; [exact Hheap|].
  apply (Hlater _ 5%nat). by repeat constructor.
Defined.

(** ** The scenarios of the specification *)

(** [all([1, resolvedWith(2), rejectedWith('boom')])] rejects with
    ['boom']. *)
Example scenario_all_rejects_with_boom :
  exists a s,
    (p2 <- Promise_resolve sample_fn 5 (VNum 2) ;;
     p3 <- Promise_reject sample_fn 5 (VStr "boom") ;;
     a <- Promise_all sample_fn 5 [VNum 1; VPromise p2; VPromise p3] ;;
     run sample_fn 5 5 ;;;
     ret a) init_state = Ok a s /\
    rejected_with s a (VStr "boom").
Proof.
  eexists _, _. split; [vm_compute; reflexivity|]. by eexists.
Qed.

(** [race([pendingForever, resolvedWith('fast')])] fulfills with ['fast']. *)
Example scenario_race_fulfills_with_fast :
  exists a s,
    (p1 <- Promise_race sample_fn 5 [] ;;
     p2 <- Promise_resolve sample_fn 5 (VStr "fast") ;;
     a <- Promise_race sample_fn 5 [VPromise p1; VPromise p2] ;;
     run sample_fn 5 5 ;;;
     ret a) init_state = Ok a s /\
    fulfilled_with s a (VStr "fast").
Proof.
  eexists _, _. split; [vm_compute; reflexivity|]. by eexists.
Qed.

(** [any([rejectedWith('a'), rejectedWith('b')])] rejects with the
    aggregate of ['a'] and ['b']. *)
Example scenario_any_rejects_with_aggregate :
  exists a s,
    (p1 <- Promise_reject sample_fn 5 (VStr "a") ;;
     p2 <- Promise_reject sample_fn 5 (VStr "b") ;;
     a <- Promise_any sample_fn 5 [VPromise p1; VPromise p2] ;;
     run sample_fn 5 5 ;;;
     ret a) init_state = Ok a s /\
    rejected_with s a (getAggregateError [VStr "a"; VStr "b"]).
Proof.
  eexists _, _. split; [vm_compute; reflexivity|]. by eexists.
Qed.

(** [resolvedWith(v).then(f)] calls [f(v)] from the scheduler, not from
    [then]: after [then] the returned promise is pending and one closure is
    queued; after the scheduler has run it is fulfilled with [f(v)]. *)
Example scenario_then_is_asynchronous :
  exists q s1 s2,
    (p <- Promise_resolve sample_fn 5 (VNum 7) ;;
     then_ 5 p (VFunction (FnUser 0)) VUndefined) init_state = Ok q s1 /\
    pending s1 q /\ length (queue s1) = 1%nat /\
    run sample_fn 5 5 s1 = Ok tt s2 /\
    fulfilled_with s2 q (VNum 7) /\ queue s2 = [].
Proof.
  eexists _, _, _. split; [vm_compute; reflexivity|].
  split; [by eexists|]. split; [reflexivity|].
  split; [vm_compute; reflexivity|]. split; [by eexists|reflexivity].
Qed.

(** * Further properties of the code *)

(** ** Continuations stored on a pending promise *)

Lemma waiters_register d r :
  registrable r = true -> waiters (register d r) = waiters r ++ [d].
Proof.
  unfold registrable, register, waiters, wf_deferreds.
  intros H. apply andb_prop in H as [H H2]. apply andb_prop in H as [H H0].
  destruct (Z.eqb_spec (_deferredState r) 0) as [E0|N0].
  - simpl. rewrite E0. done.
  - simpl.
    destruct (Z.eqb_spec (_deferredState r) 1) as [E1|N1]; [done|].
    destruct (Z.eqb_spec (_deferredState r) 2) as [E2|N2]; [done|]. lia.
Qed.

Lemma registrable_register d r :
  registrable r = true -> registrable (register d r) = true.
Proof.
  unfold registrable, register, wf_deferreds. intros _.
  by destruct (_deferredState r =? 0).
Qed.

Lemma state_register d r : _state (register d r) = _state r.
Proof. unfold register. by destruct (_deferredState r =? 0). Qed.

Lemma value_register d r : _value (register d r) = _value r.
Proof. unfold register. by destruct (_deferredState r =? 0). Qed.

Lemma handle_pending fuel self r d s :
  heap s !! self = Some r -> _state r = 0 -> registrable r = true ->
  handle (S fuel) self d s
  = Ok tt (set_heap (<[self := register d r]> (heap s)) s).
Proof.
  intros Hr Hst Hreg. unfold handle.
  erewrite bind_ok by (eapply follow_settled; [done|lia]).
  rewrite (bind_ok _ _ _ _ _ (get_promise_ok _ _ _ Hr)).
  rewrite Hst. cbn [Z.eqb].
  unfold registrable, wf_deferreds in Hreg. unfold register, waiters.
  apply andb_prop in Hreg as [Hreg H2]. apply andb_prop in Hreg as [Hwf H0].
  destruct (Z.eqb_spec (_deferredState r) 0) as [E0|N0];
    [by apply put_promise_ok with r|].
  destruct (Z.eqb_spec (_deferredState r) 1) as [E1|N1].
  - destruct (_deferreds r); try done. by apply put_promise_ok with r.
  - destruct (Z.eqb_spec (_deferredState r) 2) as [E2|N2]; [|lia].
    destruct (_deferreds r) as [| |ds]; try done.
    erewrite put_promise_ok by done. do 3 f_equal.
    unfold set_deferreds, set_deferredState. simpl. by rewrite E2.
Qed.

Lemma for_each_handle_pending fuel self ds : forall r s,
  heap s !! self = Some r -> _state r = 0 -> registrable r = true ->
  exists r',
    for_each (handle (S fuel) self) ds s
    = Ok tt (set_heap (<[self := r']> (heap s)) s) /\
    _state r' = 0 /\ _value r' = _value r /\ registrable r' = true /\
    waiters r' = waiters r ++ ds.
Proof.
  induction ds as [|d ds IH]; intros r s Hr Hst Hreg.
  - exists r. rewrite app_nil_r. split; [|done]. simpl. unfold ret, set_heap.
    rewrite list_insert_id by done. by destruct s.
  - pose proof (lookup_lt_Some _ _ _ Hr) as Hlt.
    destruct (IH (register d r)
                 (set_heap (<[self := register d r]> (heap s)) s))
      as (r' & Heach & Hst' & Hv' & Hreg' & Hw').
    + simpl. by apply list_lookup_insert_eq.
    + by rewrite state_register.
    + by apply registrable_register.
    + exists r'. split; [|split; [done|split; [|split; [done|]]]].
      * cbn [for_each].
        erewrite bind_ok by (by apply handle_pending).
        rewrite Heach. unfold set_heap. simpl.
        by rewrite list_insert_insert_eq.
      * by rewrite Hv', value_register.
      * rewrite Hw', waiters_register by done. by rewrite <- app_assoc.
Qed.

Lemma wf_deferreds_registrable r :
  registrable r = true -> wf_deferreds r = true.
Proof.
  unfold registrable. intros H.
  apply andb_prop in H as [H _]. by apply andb_prop in H as [H _].
Qed.

Lemma waiters_settled st v r : waiters (settled st v r) = [].
Proof.
  unfold waiters, settled. simpl.
  destruct (_deferredState r =? 1); [done|].
  by destruct (_deferredState r =? 2).
Qed.

Lemma settle_after_registrations fuel self r ds st v s :
  heap s !! self = Some r -> _state r = 0 -> registrable r = true ->
  st <> 0 -> st <> 3 ->
  exists s' r',
    (for_each (handle (S fuel) self) ds ;;;
     modify_promise self (set_state st) ;;;
     modify_promise self (set_value v) ;;;
     finale (S fuel) self) s = Ok tt s' /\
    queue s' = queue s ++ map (pair self) (waiters r ++ ds) /\
    heap s' !! self = Some r' /\
    _state r' = st /\ _value r' = v /\ waiters r' = [] /\
    latches s' = latches s.
Proof.
  intros Hr Hst Hreg H0 H3. pose proof (lookup_lt_Some _ _ _ Hr) as Hlt.
  destruct (for_each_handle_pending fuel self ds r s Hr Hst Hreg)
    as (r1 & Heach & Hst1 & Hv1 & Hreg1 & Hw1).
  eexists _, _. split; [|split; [|split]].
  - erewrite bind_ok by exact Heach.
    apply settle_spec with (r := r1); try done.
    + simpl. by apply list_lookup_insert_eq.
    + by apply wf_deferreds_registrable.
  - simpl. by rewrite Hw1.
  - simpl. apply list_lookup_insert_eq. by rewrite length_insert.
  - split; [done|]. split; [done|]. split; [apply waiters_settled|done].
Qed.

(** X1: continuations stored by [handle] on a pending promise are kept in
    the order of the calls, after those already stored; when the promise is
    then rejected, or resolved with a value that is no thenable, [finale]
    hands each of them to the scheduler once, in that order, behind what the
    queue held, and the promise keeps none. *)
Theorem waiters_dispatched_in_registration_order (user_fn : UserFns)
    fuel self r ds v s :
  heap s !! self = Some r ->
  _state r = 0 ->
  registrable r = true ->
  (exists s' r',
      (for_each (handle (S fuel) self) ds ;;; reject (S fuel) self v) s
      = Ok tt s' /\
      queue s' = queue s ++ map (pair self) (waiters r ++ ds) /\
      heap s' !! self = Some r' /\
      _state r' = 2 /\ _value r' = v /\ waiters r' = [] /\
      latches s' = latches s) /\
  (plain v = true ->
   exists s' r',
      (for_each (handle (S fuel) self) ds ;;;
       resolve user_fn (S fuel) self v) s = Ok tt s' /\
      queue s' = queue s ++ map (pair self) (waiters r ++ ds) /\
      heap s' !! self = Some r' /\
      _state r' = 1 /\ _value r' = v /\ waiters r' = [] /\
      latches s' = latches s).
Proof.
  intros Hr Hst Hreg. split.
  - by apply settle_after_registrations.
  - intros Hv. rewrite resolve_plain by done.
    by apply settle_after_registrations.
Qed.

Lemma waiters_dispatched_in_registration_order_witness :
  exists s' r',
    (for_each (handle 1 0)
              [mkHandler (Some (FnUser 1)) None 2;
               mkHandler None (Some (FnUser 0)) 3] ;;;
     reject 1 0 (VStr "no")) one_waiter_state = Ok tt s' /\
    queue s' = [(0%nat, mkHandler None None 1);
                (0%nat, mkHandler (Some (FnUser 1)) None 2);
                (0%nat, mkHandler None (Some (FnUser 0)) 3)] /\
    heap s' !! 0%nat = Some r' /\
    _state r' = 2 /\ _value r' = VStr "no" /\ waiters r' = [] /\
    latches s' = [].
Proof.
  exact (proj1 (waiters_dispatched_in_registration_order sample_fn 0 0
                  (mkPromise 1 0 VNull (DOne (mkHandler None None 1)))
                  [mkHandler (Some (FnUser 1)) None 2;
                   mkHandler None (Some (FnUser 0)) 3] (VStr "no")
                  one_waiter_state eq_refl eq_refl eq_refl)).
Defined.

(** ** [then] *)

(** X2: [then] on a promise that has adopted nothing returns a new pending
    promise and calls no handler: on a pending receiver the continuation is
    stored after the ones already there and the queue is as before; on a
    settled receiver the continuation goes to the end of the queue and the
    receiver is as before.  No latch is touched. *)
Theorem then_stores_or_schedules fuel self r onF onR s :
  heap s !! self = Some r ->
  _state r <> 3 ->
  (_state r = 0 -> registrable r = true) ->
  then_ (S fuel) self onF onR s
  = Ok (length (heap s))
       (if _state r =? 0 then
          set_heap (<[self := register (new_Handler onF onR (length (heap s)))
                                       r]>
                      (heap s ++ [mkPromise 0 0 VNull DNull])) s
        else then_settled_store self onF onR s).
Proof.
  intros Hr H3 Hreg. destruct (Z.eqb_spec (_state r) 0) as [H0|H0].
  - unfold then_. rewrite (bind_ok new_noop _ s _ _ eq_refl).
    erewrite bind_ok; [reflexivity|].
    erewrite handle_pending; [reflexivity| |done|by apply Hreg].
    cbn [heap set_heap]. by apply lookup_app_l_Some.
  - by apply then_settled with r.
Qed.

Lemma then_stores_or_schedules_witness :
  then_ 1 0 (VFunction (FnUser 0)) (VNum 1) one_waiter_state
  = Ok 2%nat
       (mkState [mkPromise 2 0 VNull
                   (DMany [mkHandler None None 1;
                           mkHandler (Some (FnUser 0)) None 2]);
                 mkPromise 0 0 VNull DNull; mkPromise 0 0 VNull DNull]
                [] [] [] []).
Proof.
  exact (then_stores_or_schedules 0 0
           (mkPromise 1 0 VNull (DOne (mkHandler None None 1)))
           (VFunction (FnUser 0)) (VNum 1) one_waiter_state
           eq_refl ltac:(discriminate) (fun _ => eq_refl)).
Defined.

(** ** Adoption chains *)

Lemma follow_adopted fuel self r q s :
  heap s !! self = Some r -> _state r = 3 -> _value r = VPromise q ->
  follow (S fuel) self s = follow fuel q s.
Proof.
  intros Hr Hst Hv. cbn [follow].
  rewrite (bind_ok _ _ _ _ _ (get_promise_ok _ _ _ Hr)).
  by rewrite Hst, Hv.
Qed.

Lemma follow_chain fuel qs : forall s p target,
  adoption_chain s p qs target ->
  follow (S (length qs + fuel)) p s = Ok target s.
Proof.
  induction qs as [|q qs IH]; intros s p target Hchain.
  - destruct Hchain as [-> (r & Hr & Hst)]. by apply follow_settled with r.
  - destruct Hchain as [(r & Hr & Hst & Hv) Hchain].
    erewrite follow_adopted by done. by apply IH.
Qed.

Lemma adoption_chain_alloc s p qs target r :
  adoption_chain s p qs target ->
  adoption_chain (set_heap (heap s ++ [r]) s) p qs target.
Proof.
  revert p. induction qs as [|q qs IH]; intros p.
  - intros [-> (r0 & Hr0 & Hst)]. split; [done|]. exists r0.
    split; [|done]. simpl. by apply lookup_app_l_Some.
  - intros [(r0 & Hr0 & Hst) Hchain]. split; [|by apply IH].
    exists r0. split; [|done]. simpl. by apply lookup_app_l_Some.
Qed.

(** X3: through a chain of adoptions, however long, [handle] and [then] act
    on the promise at the end of the chain: the continuation is stored or
    scheduled there, exactly as by a call on that promise. *)
Theorem then_acts_on_end_of_chain fuel fuel' qs s p target :
  adoption_chain s p qs target ->
  (forall d, handle (S (length qs + fuel)) p d s
             = handle (S fuel') target d s) /\
  (forall onF onR, then_ (S (length qs + fuel)) p onF onR s
                   = then_ (S fuel') target onF onR s).
Proof.
  intros Hchain.
  assert (forall s0 d, adoption_chain s0 p qs target ->
                       handle (S (length qs + fuel)) p d s0
                       = handle (S fuel') target d s0) as Hh.
  { intros s0 d Hc. unfold handle, bind. rewrite (follow_chain _ _ _ _ _ Hc).
    assert (adoption_chain s0 target [] target) as Hend.
    { clear -Hc. revert p Hc. induction qs as [|q qs IH]; intros p.
      - by intros [-> ?].
      - intros [_ Hc]. by apply IH with q. }
    pose proof (follow_chain fuel' [] _ _ _ Hend) as Hf.
    cbn [length Nat.add] in Hf. by rewrite Hf. }
  split; [intros d; by apply Hh|].
  intros onF onR. unfold then_.
  rewrite !(bind_ok new_noop _ s _ _ eq_refl).
  unfold bind. rewrite Hh; [done|]. by apply adoption_chain_alloc.
Qed.

Lemma then_acts_on_end_of_chain_witness :
  then_ 3 0 (VFunction (FnUser 0)) VUndefined
    (mkState [mkPromise 0 3 (VPromise 1) DNull;
              mkPromise 0 3 (VPromise 2) DNull;
              mkPromise 0 1 (VNum 7) DNull] [] [] [] [])
  = then_ 1 2 (VFunction (FnUser 0)) VUndefined
      (mkState [mkPromise 0 3 (VPromise 1) DNull;
                mkPromise 0 3 (VPromise 2) DNull;
                mkPromise 0 1 (VNum 7) DNull] [] [] [] []).
Proof.
  refine (proj2 (then_acts_on_end_of_chain 0 0 [1%nat; 2%nat] _ 0 2 _) _ _).
  split; [by eexists|]. split; [by eexists|].
  split; [done|]. eexists. split; [reflexivity|done].
Defined.

(** X4: two promises that have adopted each other make the loop of [handle]
    endless: no amount of fuel lets [handle] or [then] return on either. *)
Theorem then_on_mutual_adoption_never_returns fuel p q rp rq s :
  heap s !! p = Some rp -> _state rp = 3 -> _value rp = VPromise q ->
  heap s !! q = Some rq -> _state rq = 3 -> _value rq = VPromise p ->
  follow fuel p s = OutOfFuel /\
  (forall d, handle fuel p d s = OutOfFuel) /\
  (forall onF onR, then_ fuel p onF onR s = OutOfFuel).
Proof.
  intros Hp Hsp Hvp Hq Hsq Hvq.
  assert (forall s0,
             heap s0 !! p = Some rp -> heap s0 !! q = Some rq ->
             forall f, follow f p s0 = OutOfFuel /\ follow f q s0 = OutOfFuel)
    as Hloop.
  { intros s0 Hp0 Hq0. induction f as [|f [IHp IHq]]; [done|]. split.
    - by rewrite (follow_adopted f p rp q s0 Hp0 Hsp Hvp).
    - by rewrite (follow_adopted f q rq p s0 Hq0 Hsq Hvq). }
  split; [by apply Hloop|]. split.
  - intros d. unfold handle, bind. by rewrite (proj1 (Hloop s Hp Hq fuel)).
  - intros onF onR. unfold then_.
    rewrite (bind_ok new_noop _ s _ _ eq_refl).
    unfold bind, handle, bind.
    rewrite (proj1 (Hloop
                      (set_heap (heap s ++ [mkPromise 0 0 VNull DNull]) s)
                      (lookup_app_l_Some _ _ _ _ Hp)
                      (lookup_app_l_Some _ _ _ _ Hq) fuel)).
    done.
Qed.

Lemma then_on_mutual_adoption_never_returns_witness :
  exists p q s,
    mutual_adoption init_state = Ok (p, q) s /\
    then_ 1000 p (VFunction (FnUser 0)) VUndefined s = OutOfFuel.
Proof.
  exists 6%nat, 7%nat. eexists. split; [vm_compute; reflexivity|].
  eapply (then_on_mutual_adoption_never_returns 1000 6 7); reflexivity.
Defined.

(** [finale] in terms of what [handle] does with the continuations. *)
Lemma finale_via_waiters fuel self r s s1 :
  heap s !! self = Some r ->
  wf_deferreds r = true ->
  for_each (handle fuel self) (waiters r) s = Ok tt s1 ->
  heap s1 !! self = Some r ->
  finale fuel self s
  = Ok tt (set_heap (<[self := settled (_state r) (_value r) r]> (heap s1))
                    s1).
Proof.
  intros Hr Hwf Heach Hr1. unfold finale, waiters, wf_deferreds, settled in *.
  rewrite (bind_ok _ _ _ _ _ (get_promise_ok _ _ _ Hr)).
  pose proof (lookup_lt_Some _ _ _ Hr1) as Hlt1.
  destruct (Z.eqb_spec (_deferredState r) 1) as [E1|N1].
  - destruct (_deferreds r) as [|d|ds] eqn:Ed; try done.
    cbn [for_each] in Heach. unfold bind at 1 in Heach.
    destruct (handle fuel self d s) as [[] s0| | |] eqn:Eh; try done.
    injection Heach as ->.
    erewrite bind_ok; cycle 1.
    { erewrite bind_ok by exact Eh. by eapply modify_promise_ok. }
    erewrite bind_ok; cycle 1.
    { apply get_promise_ok. simpl. by apply list_lookup_insert_eq. }
    simpl. rewrite E1. simpl. unfold ret, set_heap, set_deferreds. simpl.
    by rewrite E1.
  - erewrite bind_ok by reflexivity.
    rewrite (bind_ok _ _ _ _ _ (get_promise_ok _ _ _ Hr)).
    destruct (Z.eqb_spec (_deferredState r) 2) as [E2|N2].
    + destruct (_deferreds r) as [|d|ds] eqn:Ed; try done.
      erewrite bind_ok by exact Heach.
      by erewrite modify_promise_ok by done.
    + cbn [for_each] in Heach. injection Heach as <-.
      unfold ret, set_heap. simpl.
      replace (mkPromise _ _ _ _) with r by (by destruct r).
      rewrite list_insert_id by done. by destruct s.
Qed.

Lemma handle_adopted fuel self r q d s :
  heap s !! self = Some r -> _state r = 3 -> _value r = VPromise q ->
  handle (S fuel) self d s = handle fuel q d s.
Proof.
  intros Hr Hst Hv. unfold handle, bind.
  by rewrite (follow_adopted fuel self r q s Hr Hst Hv).
Qed.

(** The continuations of a promise that adopts a settled one go to the
    queue, for the adopted promise. *)
Lemma for_each_handle_adopted_settled fuel self r q rq ds : forall s,
  heap s !! self = Some r -> _state r = 3 -> _value r = VPromise q ->
  heap s !! q = Some rq -> _state rq <> 0 -> _state rq <> 3 ->
  for_each (handle (S (S fuel)) self) ds s
  = Ok tt (mkState (heap s) (latches s) (queue s ++ map (pair q) ds)
                   (allEnvs s) (anyEnvs s)).
Proof.
  induction ds as [|d ds IH]; intros s Hr Hst Hv Hq H0 H3; simpl.
  - unfold ret. rewrite app_nil_r. by destruct s.
  - erewrite bind_ok; cycle 1.
    { erewrite handle_adopted by done. by eapply handle_settled. }
    rewrite IH by done. simpl. by rewrite <- app_assoc.
Qed.

(** The continuations of a promise that adopts a pending one are stored on
    the adopted promise, after its own. *)
Lemma for_each_handle_adopted_pending fuel self r q ds : forall rq s,
  heap s !! self = Some r -> _state r = 3 -> _value r = VPromise q ->
  q <> self ->
  heap s !! q = Some rq -> _state rq = 0 -> registrable rq = true ->
  exists rq',
    for_each (handle (S (S fuel)) self) ds s
    = Ok tt (set_heap (<[q := rq']> (heap s)) s) /\
    _state rq' = 0 /\ _value rq' = _value rq /\ registrable rq' = true /\
    waiters rq' = waiters rq ++ ds.
Proof.
  induction ds as [|d ds IH]; intros rq s Hr Hst Hv Hne Hq H0 Hreg.
  - exists rq. rewrite app_nil_r. split; [|done]. simpl. unfold ret, set_heap.
    rewrite list_insert_id by done. by destruct s.
  - pose proof (lookup_lt_Some _ _ _ Hq) as Hlt.
    destruct (IH (register d rq)
                 (set_heap (<[q := register d rq]> (heap s)) s))
      as (rq' & Heach & Hst' & Hv' & Hreg' & Hw'); try done.
    + simpl. by rewrite list_lookup_insert_ne.
    + simpl. by apply list_lookup_insert_eq.
    + by rewrite state_register.
    + by apply registrable_register.
    + exists rq'. split; [|split; [done|split; [|split; [done|]]]].
      * cbn [for_each].
        erewrite bind_ok; cycle 1.
        { erewrite handle_adopted by done. by apply handle_pending. }
        rewrite Heach. unfold set_heap. simpl.
        by rewrite list_insert_insert_eq.
      * by rewrite Hv', value_register.
      * rewrite Hw', waiters_register by done. by rewrite <- app_assoc.
Qed.

Lemma resolve_own_promise (user_fn : UserFns) fuel self q :
  q <> self ->
  resolve user_fn fuel self (VPromise q) = adopt fuel self (VPromise q).
Proof.
  intros Hne. destruct (Nat.eqb_spec q self) as [|_]; [done|].
  destruct fuel; cbn [resolve is_promise is_object_or_function];
    destruct (Nat.eqb_spec q self) as [|_]; done.
Qed.

(** X5: resolving a promise with another promise of this implementation
    puts it in state 3 with that promise as its value and hands its
    continuations over, in order: to the queue, for the adopted promise,
    when that one is settled; to the continuations of the adopted promise,
    after its own, when it is pending.  The adopting promise keeps none. *)
Theorem adoption_hands_over_waiters (user_fn : UserFns)
    fuel self q r rq s :
  q <> self ->
  heap s !! self = Some r ->
  wf_deferreds r = true ->
  heap s !! q = Some rq ->
  _state rq <> 3 ->
  (_state rq = 0 -> registrable rq = true) ->
  exists s' rq',
    resolve user_fn (S (S fuel)) self (VPromise q) s = Ok tt s' /\
    heap s' = <[self := settled 3 (VPromise q) r]> (<[q := rq']> (heap s)) /\
    latches s' = latches s /\
    (if _state rq =? 0 then
       queue s' = queue s /\ _state rq' = 0 /\
       waiters rq' = waiters rq ++ waiters r
     else queue s' = queue s ++ map (pair q) (waiters r) /\ rq' = rq).
Proof.
  intros Hne Hr Hwf Hq H3 Hreg. rewrite resolve_own_promise by done.
  pose proof (lookup_lt_Some _ _ _ Hr) as Hlt.
  set (r3 := set_value (VPromise q) (set_state 3 r)).
  set (s0 := set_heap (<[self := r3]> (heap s)) s).
  assert (heap s0 !! self = Some r3) as Hr0
    by (simpl; by apply list_lookup_insert_eq).
  assert (heap s0 !! q = Some rq) as Hq0
    by (simpl; by rewrite list_lookup_insert_ne).
  assert (forall s1,
             for_each (handle (S (S fuel)) self) (waiters r3) s0 = Ok tt s1 ->
             heap s1 !! self = Some r3 ->
             adopt (S (S fuel)) self (VPromise q) s
             = Ok tt (set_heap (<[self := settled 3 (VPromise q) r]>
                                  (heap s1)) s1)) as Hadopt.
  { intros s1 Heach Hr1. unfold adopt.
    erewrite bind_ok by (by eapply modify_promise_ok).
    erewrite bind_ok; cycle 1.
    { eapply modify_promise_ok. simpl. by apply list_lookup_insert_eq. }
    cbn [heap set_heap]. rewrite list_insert_insert_eq.
    change (set_heap (<[self := set_value (VPromise q) (set_state 3 r)]>
                        (heap s)) (set_heap _ s)) with s0.
    by erewrite finale_via_waiters by done. }
  destruct (Z.eqb_spec (_state rq) 0) as [H0|H0].
  - destruct (for_each_handle_adopted_pending fuel self r3 q (waiters r3) rq s0)
      as (rq' & Heach & Hst' & _ & _ & Hw'); try done.
    { by apply Hreg. }
    eexists _, rq'. split.
    { apply Hadopt; [exact Heach|]. simpl.
      rewrite list_lookup_insert_ne by done.
      by apply list_lookup_insert_eq. }
    split; [|split; [done|done]].
    simpl. rewrite (list_insert_insert_ne _ q self) by done.
    by rewrite list_insert_insert_eq.
  - eexists _, rq. split.
    { apply Hadopt.
      - by apply for_each_handle_adopted_settled with r3 rq.
      - exact Hr0. }
    split; [|split; [done|done]].
    simpl. rewrite list_insert_insert_eq.
    by rewrite (list_insert_id _ q rq).
Qed.

Lemma adoption_hands_over_waiters_witness :
  exists s' rq',
    resolve sample_fn 2 0 (VPromise 1) one_waiter_state = Ok tt s' /\
    heap s' = [mkPromise 1 3 (VPromise 1) DNull; rq'] /\
    latches s' = [] /\
    queue s' = [] /\ _state rq' = 0 /\
    waiters rq' = [mkHandler None None 1].
Proof.
  exact (adoption_hands_over_waiters sample_fn 0 0 1
           (mkPromise 1 0 VNull (DOne (mkHandler None None 1)))
           (mkPromise 0 0 VNull DNull) one_waiter_state
           ltac:(discriminate) eq_refl eq_refl eq_refl ltac:(discriminate)
           (fun _ => eq_refl)).
Defined.

(** ** Start routines and foreign thenables *)

Lemma script_calls_ignored (user_fn : UserFns) fuel l p calls s :
  latched l s ->
  for_each (fun c =>
              match c with
              | CallResolve v =>
                  call1 user_fn fuel (FnResolveCb l p) v ;;; ret tt
              | CallReject v =>
                  call1 user_fn fuel (FnRejectCb l p) v ;;; ret tt
              end) calls s = Ok tt s.
Proof.
  intros Hl. induction calls as [|c calls IH]; [done|].
  cbn [for_each]. erewrite bind_ok; [exact IH|].
  destruct c as [v|v].
  - by erewrite bind_ok
      by exact (completion_callback_ignored user_fn fuel true l p v s Hl).
  - by erewrite bind_ok
      by exact (completion_callback_ignored user_fn fuel false l p v s Hl).
Qed.

Lemma latched_settle_store st v p r l s :
  (l < length (latches s))%nat ->
  latched l (settle_store st v p r (set_latch l s)).
Proof. intros Hl. by apply list_lookup_insert_eq. Qed.

Lemma doResolve_script (user_fn : UserFns) fuel body p r s :
  heap s !! p = Some r ->
  wf_deferreds r = true ->
  first_call_plain body = true ->
  doResolve user_fn (S (S (S (S fuel)))) (ExScript body) p s
  = Ok tt (after_script body p r s).
Proof.
  intros Hp Hwf Hplain. cbn [doResolve].
  rewrite (bind_ok new_latch _ s _ _ eq_refl).
  fold (with_new_latch s). set (l := length (latches s)).
  set (s0 := with_new_latch s).
  assert (latches s0 !! l = Some false) as Hl0
    by (by apply list_lookup_middle).
  assert ((l < length (latches s0))%nat) as Hlt
    by (by apply lookup_lt_Some in Hl0).
  unfold tryCallTwo, try_catch, after_script. fold l. fold s0.
  unfold bind at 1. destruct body as [calls raises]. rewrite call2_script.
  destruct calls as [|[v|reason] rest].
  - cbn [for_each ret]. destruct raises as [ex|]; cbn [script_outcome].
    + rewrite (bind_ok _ _ _ _ _ (get_done_ok _ _ _ Hl0)). cbn [negb].
      rewrite (bind_ok _ _ _ _ _ (set_done_ok _ _ _ Hl0)).
      by apply reject_spec.
    + by rewrite (bind_ok _ _ _ _ _ (get_done_ok _ _ _ Hl0)).
  - cbn [for_each script_outcome]. cbn [first_call_plain] in Hplain.
    erewrite bind_ok; cycle 1.
    { erewrite bind_ok; [reflexivity|].
      by apply resolve_callback_first with (r := r). }
    rewrite script_calls_ignored by (by apply latched_settle_store).
    pose proof (latched_settle_store 1 v p r l s0 Hlt) as Hl1.
    destruct raises as [ex|];
      by rewrite (bind_ok _ _ _ _ _ (get_done_ok _ _ _ Hl1)).
  - cbn [for_each script_outcome].
    erewrite bind_ok; cycle 1.
    { erewrite bind_ok; [reflexivity|].
      by apply reject_callback_first with (r := r). }
    rewrite script_calls_ignored by (by apply latched_settle_store).
    pose proof (latched_settle_store 2 reason p r l s0 Hlt) as Hl1.
    destruct raises as [ex|];
      by rewrite (bind_ok _ _ _ _ _ (get_done_ok _ _ _ Hl1)).
Qed.

Lemma insert_alloc (h : list PromiseRec) (r r' : PromiseRec) :
  <[length h := r']> (h ++ [r]) = h ++ [r'].
Proof.
  rewrite insert_app_r_alt by lia. by rewrite Nat.sub_diag.
Qed.

Lemma lookup_alloc (h : list PromiseRec) (r : PromiseRec) :
  (h ++ [r]) !! length h = Some r.
Proof. by apply list_lookup_middle. Qed.

(** X6: [new Promise(fn)] returns a new promise and schedules nothing.  The
    promise is pending when [fn] calls no callback and returns, rejected
    with the exception when [fn] calls none and raises, and otherwise what
    the first call makes it (fulfilled for [resolve(v)] with [v] no thenable,
    rejected for [reject(e)]), whatever [fn] calls or raises afterwards. *)
Theorem constructor_first_call_decides (user_fn : UserFns) fuel body s :
  first_call_plain body = true ->
  exists s',
    new_Promise (doResolve user_fn (S (S (S (S fuel))))) (ExScript body) s
    = Ok (length (heap s)) s' /\
    heap s' = heap s ++ [match script_outcome body with
                         | None => mkPromise 0 0 VNull DNull
                         | Some (st, v) => mkPromise 0 st v DNull
                         end] /\
    queue s' = queue s.
Proof.
  intros Hplain. unfold new_Promise.
  rewrite (bind_ok new_noop _ s _ _ eq_refl).
  set (s0 := set_heap (heap s ++ [mkPromise 0 0 VNull DNull]) s).
  erewrite bind_ok; cycle 1.
  { apply doResolve_script with (r := mkPromise 0 0 VNull DNull);
      [exact (lookup_alloc (heap s) _)|done|exact Hplain]. }
  eexists. split; [reflexivity|]. unfold after_script.
  destruct (script_outcome body) as [[st v]|]; [|done].
  split; [exact (insert_alloc (heap s) _ _)|]. cbn. by rewrite app_nil_r.
Qed.

Lemma constructor_first_call_decides_witness :
  exists s',
    new_Promise (doResolve sample_fn 4)
      (ExScript ([CallResolve (VNum 1); CallReject (VStr "late")],
                 Some (VStr "later"))) init_state
    = Ok 6%nat s' /\
    heap s' = heap init_state ++ [mkPromise 0 1 (VNum 1) DNull] /\
    queue s' = [].
Proof.
  exact (constructor_first_call_decides sample_fn 0
           ([CallResolve (VNum 1); CallReject (VStr "late")],
            Some (VStr "later")) init_state eq_refl).
Defined.

(** X7: resolving a promise with an object of another library whose [then]
    is a function runs that function as the start routine of the promise:
    the promise stays pending when it calls no callback and returns, and
    otherwise takes the outcome of its first call, or of its exception when
    it calls none, and its waiters are scheduled in the order they were
    registered.  When reading [then] raises, the promise is rejected with
    the exception. *)
Theorem thenable_is_run_as_start_routine (user_fn : UserFns) fuel self r
    calls raises ex s :
  heap s !! self = Some r ->
  wf_deferreds r = true ->
  first_call_plain (calls, raises) = true ->
  (exists s',
     resolve user_fn (S (S (S (S (S fuel))))) self
             (VObject (ThenFn calls raises)) s = Ok tt s' /\
     match script_outcome (calls, raises) with
     | None => heap s' = heap s /\ queue s' = queue s
     | Some (st, v) =>
         heap s' = <[self := settled st v r]> (heap s) /\
         queue s' = queue s ++ map (pair self) (waiters r)
     end) /\
  resolve user_fn (S fuel) self (VObject (ThenThrows ex)) s
  = Ok tt (settle_store 2 ex self r s).
Proof.
  intros Hself Hwf Hplain. split.
  - cbn [resolve is_promise is_object_or_function].
    unfold getThen, try_catch, bind at 1. cbn [read_then ret].
    rewrite (doResolve_script user_fn fuel (calls, raises) self r s
               Hself Hwf Hplain).
    eexists. split; [reflexivity|]. unfold after_script.
    by destruct (script_outcome (calls, raises)) as [[st v]|].
  - cbn [resolve is_promise is_object_or_function].
    unfold getThen, try_catch, bind at 1. cbn [read_then throw].
    by apply reject_spec.
Qed.

Lemma thenable_is_run_as_start_routine_witness :
  (exists s',
     resolve sample_fn 5 0
       (VObject (ThenFn [CallReject (VStr "no"); CallResolve (VNum 1)] None))
       one_waiter_state = Ok tt s' /\
     heap s' = <[0%nat := mkPromise 1 2 (VStr "no") DNull]>
                 (heap one_waiter_state) /\
     queue s' = [(0%nat, mkHandler None None 1)]) /\
  resolve sample_fn 1 0 (VObject (ThenThrows (VStr "getter")))
          one_waiter_state
  = Ok tt (settle_store 2 (VStr "getter") 0
             (mkPromise 1 0 VNull (DOne (mkHandler None None 1)))
             one_waiter_state).
Proof.
  exact (thenable_is_run_as_start_routine sample_fn 0 0
           (mkPromise 1 0 VNull (DOne (mkHandler None None 1)))
           [CallReject (VStr "no"); CallResolve (VNum 1)] None
           (VStr "getter") one_waiter_state eq_refl eq_refl eq_refl).
Defined.

(** X8: [Promise.reject(value)] returns a new promise rejected with [value]
    itself, also when [value] is a promise or a thenable (it is neither
    adopted nor unwrapped), and schedules nothing. *)
Theorem Promise_reject_keeps_its_argument (user_fn : UserFns) fuel value s :
  exists s',
    Promise_reject user_fn (S (S (S fuel))) value s
    = Ok (length (heap s)) s' /\
    heap s' = heap s ++ [mkPromise 0 2 value DNull] /\
    queue s' = queue s.
Proof.
  unfold Promise_reject. eexists. split.
  - eapply new_Promise_returns.
    + cbn [call2]. erewrite bind_ok; [reflexivity|].
      apply reject_callback_first with (r := mkPromise 0 0 VNull DNull);
        [by apply list_lookup_middle|exact (lookup_alloc (heap s) _)|done].
    + cbn [settle_store set_latch latches with_new_latch set_heap].
      apply list_lookup_insert_eq. rewrite length_app. cbn. lia.
  - split; [exact (insert_alloc (heap s) _ _)|]. cbn. by rewrite app_nil_r.
Qed.

(** ** [Promise.resolve] on values that are no promises *)

Lemma Promise_resolve_plain (dr : Executor -> nat -> M unit) value s :
  cache_intact s ->
  plain value = true ->
  exists p s',
    Promise_resolve_with dr value s = Ok p s' /\
    heap s' !! p = Some (valuePromise_rec (resolved_value value)) /\
    ((s' = s /\ (p <= EMPTYSTRING)%nat) \/
     (p = length (heap s) /\
      s' = set_heap (heap s ++ [valuePromise_rec (resolved_value value)])
                    s)) /\
    (value = VNum NNegZero -> p = ZERO /\ s' = s).
Proof.
  intros (HT & HF & HN & HU & HZ & HE) Hplain.
  assert (forall v,
            valuePromise v s
            = Ok (length (heap s))
                 (set_heap (heap s ++ [valuePromise_rec v]) s)) as Hnew
    by done.
  assert (forall v w,
            w <> VNum NNegZero ->
            exists p s',
              Ok (length (heap s))
                 (set_heap (heap s ++ [valuePromise_rec v]) s) = Ok p s' /\
              heap s' !! p = Some (valuePromise_rec v) /\
              ((s' = s /\ (p <= EMPTYSTRING)%nat) \/
               (p = length (heap s) /\
                s' = set_heap (heap s ++ [valuePromise_rec v]) s)) /\
              (w = VNum NNegZero -> p = ZERO /\ s' = s)) as Hfresh.
  { intros v w Hw. eexists _, _. split; [reflexivity|].
    split; [exact (lookup_alloc (heap s) _)|]. split; [by right|done]. }
  assert (forall p v w,
            heap s !! p = Some (valuePromise_rec v) ->
            (p <= EMPTYSTRING)%nat ->
            (w = VNum NNegZero -> p = ZERO) ->
            exists p' s',
              Ok p s = Ok p' s' /\
              heap s' !! p' = Some (valuePromise_rec v) /\
              ((s' = s /\ (p' <= EMPTYSTRING)%nat) \/
               (p' = length (heap s) /\
                s' = set_heap (heap s ++ [valuePromise_rec v]) s)) /\
              (w = VNum NNegZero -> p' = ZERO /\ s' = s)) as Hold.
  { intros p v w Hp Hle Hw. eexists _, _. split; [reflexivity|].
    split; [exact Hp|]. split; [by left|]. intros E. by split; [apply Hw|]. }
  unfold Promise_resolve_with.
  destruct value as [| |b|n|str|q|xs|msg|errs msg|st payload|[|ex|cs rs]|f];
    try discriminate Hplain; cbn [strict_equal is_object_or_function];
    try (unfold try_catch, bind; cbn [read_then ret resolved_value];
         rewrite Hnew; by apply Hfresh).
  - apply Hold; [done|unfold UNDEFINED, EMPTYSTRING; lia|done].
  - apply Hold; [done|unfold NULL, EMPTYSTRING; lia|done].
  - destruct b; cbn [Bool.eqb].
    + apply Hold; [done|unfold TRUE, EMPTYSTRING; lia|done].
    + apply Hold; [done|unfold FALSE, EMPTYSTRING; lia|done].
  - destruct n as [z|]; cbn [number_equal resolved_value].
    + destruct (Z.eqb_spec z 0) as [->|Hn].
      * apply Hold; [done|unfold ZERO, EMPTYSTRING; lia|done].
      * rewrite Hnew. by apply Hfresh.
    + apply Hold; [done|unfold ZERO, EMPTYSTRING; lia|done].
  - destruct (String.eqb_spec str EmptyString) as [->|Hn].
    + apply Hold; [done|unfold EMPTYSTRING; lia|done].
    + rewrite Hnew. by apply Hfresh.
Qed.



(** X10: [Promise.resolve(obj)] of an object that is no promise returns a
    new promise and schedules nothing.  When reading [obj.then] raises, the
    promise is rejected with the exception.  When [obj.then] is a function,
    the promise is what that function, run as its start routine, makes of
    it: the outcome of its first call of a callback, of its exception when it
    calls none, and pending when it calls none and returns. *)
Theorem Promise_resolve_of_thenable (user_fn : UserFns) fuel calls raises
    ex s :
  first_call_plain (calls, raises) = true ->
  (exists s',
     Promise_resolve user_fn (S (S (S (S fuel))))
                     (VObject (ThenFn calls raises)) s
     = Ok (length (heap s)) s' /\
     heap s' = heap s ++ [match script_outcome (calls, raises) with
                          | None => mkPromise 0 0 VNull DNull
                          | Some (st, v) => mkPromise 0 st v DNull
                          end] /\
     queue s' = queue s) /\
  (exists s',
     Promise_resolve user_fn (S (S (S fuel))) (VObject (ThenThrows ex)) s
     = Ok (length (heap s)) s' /\
     heap s' = heap s ++ [mkPromise 0 2 ex DNull] /\
     queue s' = queue s).
Proof.
  intros Hplain. split.
  - unfold Promise_resolve, Promise_resolve_with.
    cbn [strict_equal is_object_or_function].
    unfold try_catch, bind at 1. cbn [read_then ret].
    unfold new_Promise.
    rewrite (bind_ok new_noop _ s _ _ eq_refl).
    erewrite bind_ok; cycle 1.
    { apply doResolve_script with (r := mkPromise 0 0 VNull DNull);
        [exact (lookup_alloc (heap s) _)|done|exact Hplain]. }
    eexists. split; [reflexivity|]. unfold after_script.
    destruct (script_outcome (calls, raises)) as [[st v]|]; [|done].
    split; [exact (insert_alloc (heap s) _ _)|]. cbn. by rewrite app_nil_r.
  - unfold Promise_resolve, Promise_resolve_with.
    cbn [strict_equal is_object_or_function].
    unfold try_catch, bind at 1. cbn [read_then throw].
    eexists. split.
    + eapply new_Promise_returns.
      * cbn [call2]. erewrite bind_ok; [reflexivity|].
        apply reject_callback_first with (r := mkPromise 0 0 VNull DNull);
          [by apply list_lookup_middle|exact (lookup_alloc (heap s) _)|done].
      * cbn [settle_store set_latch latches with_new_latch set_heap].
        apply list_lookup_insert_eq. rewrite length_app. cbn. lia.
    + split; [exact (insert_alloc (heap s) _ _)|]. cbn. by rewrite app_nil_r.
Qed.

Lemma Promise_resolve_of_thenable_witness :
  (exists s',
     Promise_resolve sample_fn 4
       (VObject (ThenFn [] (Some (VStr "bad")))) init_state
     = Ok 6%nat s' /\
     heap s' = heap init_state ++ [mkPromise 0 2 (VStr "bad") DNull] /\
     queue s' = []) /\
  (exists s',
     Promise_resolve sample_fn 3 (VObject (ThenThrows (VStr "getter")))
                     init_state
     = Ok 6%nat s' /\
     heap s' = heap init_state ++ [mkPromise 0 2 (VStr "getter") DNull] /\
     queue s' = []).
Proof.
  exact (Promise_resolve_of_thenable sample_fn 0 [] (Some (VStr "bad"))
           (VStr "getter") init_state eq_refl).
Defined.

(** ** [Promise.all] and an input whose [then] cannot be read *)

Lemma all_scan_fulfilled_prefix (user_fn : UserFns) fuel env :
  forall pre (g : nat -> nat) s e,
    allEnvs s !! env = Some e ->
    Forall (ready_fulfilled s) pre ->
    Z.of_nat (length pre) < all_remaining e ->
    exists s' e',
      for_each (fun iv => all_res user_fn (S (S fuel)) env (fst iv) (snd iv))
               (imap (fun i v => (g i, v)) pre) s = Ok tt s' /\
      heap s' = heap s /\ latches s' = latches s /\ queue s' = queue s /\
      allEnvs s' !! env = Some e' /\
      all_resolve e' = all_resolve e /\ all_reject e' = all_reject e.
Proof.
  induction pre as [|x pre IH]; intros g s e He Hpre Hrem.
  - by exists s, e.
  - apply Forall_cons in Hpre as [Hx Hpre]. simpl length in Hrem.
    destruct (all_res_ready_fulfilled_not_last user_fn fuel env e (g 0%nat)
                x s He Hx ltac:(lia)) as [_ Hstep].
    set (e1 := all_env_with e (<[g 0%nat := value_of s x]> (all_args e))
                            (all_remaining e - 1)) in Hstep.
    destruct (IH (fun i => g (S i)) (set_allEnv env e1 s) e1)
      as (s' & e' & Hrest & Hh & Hl & Hq & He' & Hres & Hrej).
    + apply list_lookup_insert_eq. by apply lookup_lt_Some in He.
    + eapply Forall_impl; [exact Hpre|]. intros y.
      apply ready_fulfilled_mono with []. by rewrite app_nil_r.
    + cbn [e1 all_env_with all_remaining]. lia.
    + exists s', e'. split.
      { rewrite imap_cons. cbn [for_each fst snd].
        by erewrite bind_ok by exact Hstep. }
      done.
Qed.

(** X11: when the inputs of [Promise.all] before the first object whose
    [then] raises on reading are values or fulfilled promises, the call
    returns a new promise rejected with that exception; it schedules
    nothing and changes no other promise, whatever the inputs after that
    object are. *)
Theorem all_rejects_when_then_cannot_be_read (user_fn : UserFns) fuel pre ex
    post s :
  Forall (ready_fulfilled s) pre ->
  exists s',
    Promise_all user_fn (S (S (S (S fuel))))
                (pre ++ VObject (ThenThrows ex) :: post) s
    = Ok (length (heap s)) s' /\
    heap s' = heap s ++ [mkPromise 0 2 ex DNull] /\
    queue s' = queue s.
Proof.
  intros Hpre. unfold Promise_all, new_Promise.
  rewrite (bind_ok new_noop _ s _ _ eq_refl).
  set (p := length (heap s)). set (l := length (latches s)).
  set (args := pre ++ VObject (ThenThrows ex) :: post).
  set (s0 := set_heap (heap s ++ [mkPromise 0 0 VNull DNull]) s).
  set (e := mkAllEnv args (Z.of_nat (length args)) (FnResolveCb l p)
                     (FnRejectCb l p)).
  set (s1 := mkState (heap (with_new_latch s0)) (latches (with_new_latch s0))
                     (queue (with_new_latch s0))
                     (allEnvs (with_new_latch s0) ++ [e])
                     (anyEnvs (with_new_latch s0))).
  set (env := length (allEnvs s)).
  destruct (all_scan_fulfilled_prefix user_fn fuel env pre (fun i => i) s1 e)
    as (s2 & e2 & Hscan & Hh & Hl & Hq & He2 & Hres & Hrej).
  { by apply list_lookup_middle. }
  { eapply Forall_impl; [exact Hpre|]. intros y.
    by apply ready_fulfilled_mono with [mkPromise 0 0 VNull DNull]. }
  { cbn [e all_remaining]. unfold args. rewrite length_app. simpl length.
    lia. }
  assert (latches s2 !! l = Some false) as Hl2.
  { rewrite Hl. by apply list_lookup_middle. }
  assert (heap s2 !! p = Some (mkPromise 0 0 VNull DNull)) as Hp2.
  { rewrite Hh. exact (lookup_alloc (heap s) _). }
  assert (doResolve user_fn (S (S (S (S fuel)))) (ExAll args) p s0
          = Ok tt (settle_store 2 ex p (mkPromise 0 0 VNull DNull)
                     (set_latch l s2))) as Hdo.
  { cbn [doResolve]. rewrite (bind_ok new_latch _ s0 _ _ eq_refl).
    fold (with_new_latch s0). change (length (latches s0)) with l.
    erewrite bind_ok; cycle 1.
    { unfold tryCallTwo, try_catch. cbn [call2].
      replace (length args =? 0)%nat with false; cycle 1.
      { unfold args. rewrite length_app. simpl length. symmetry.
        apply Nat.eqb_neq. lia. }
      rewrite (bind_ok (new_allEnv e) _ (with_new_latch s0) _ _ eq_refl).
      fold s1. change (length (allEnvs (with_new_latch s0))) with env.
      unfold args. rewrite imap_app.
      rewrite (for_each_app _ _ _ _ _ Hscan).
      rewrite imap_cons. cbn [for_each fst snd]. unfold bind at 1.
      cbn [all_res]. unfold bind at 1, get_allEnv. rewrite He2.
      cbn [is_object_or_function]. unfold bind at 1. cbn [read_then throw].
      reflexivity. }
    rewrite (bind_ok _ _ _ _ _ (get_done_ok _ _ _ Hl2)). cbn [negb].
    rewrite (bind_ok _ _ _ _ _ (set_done_ok _ _ _ Hl2)).
    apply reject_spec; [exact Hp2|done]. }
  eexists. split; [by erewrite bind_ok by exact Hdo|].
  cbn [settle_store heap queue set_latch].
  rewrite Hh, Hq. cbn. split; [exact (insert_alloc (heap s) _ _)|].
  by rewrite app_nil_r.
Qed.

Lemma all_rejects_when_then_cannot_be_read_witness :
  exists s',
    Promise_all sample_fn 4
      [VNum 1; VPromise 0; VObject (ThenThrows (VStr "getter")); VPromise 9]
      init_state
    = Ok 6%nat s' /\
    heap s' = heap init_state ++ [mkPromise 0 2 (VStr "getter") DNull] /\
    queue s' = [].
Proof.
  apply (all_rejects_when_then_cannot_be_read sample_fn 0
           [VNum 1; VPromise 0] (VStr "getter") [VPromise 9] init_state).
  apply Forall_cons. split; [reflexivity|].
  apply Forall_cons. split; [|apply Forall_nil_2].
  exists (valuePromise_rec (VBool true)). by repeat split.
Defined.

(** ** [then] and [catch] on a settled promise, one turn of the scheduler
    later *)

Lemma then_and_step (user_fn : UserFns) fuel self r onF onR f g s :
  heap s !! self = Some r ->
  _state r = 1 \/ _state r = 2 ->
  queue s = [] ->
  as_callable onF = option_map FnUser f ->
  as_callable onR = option_map FnUser g ->
  (fst (reaction user_fn r f g) = 1 ->
   plain (snd (reaction user_fn r f g)) = true) ->
  (res <- then_ (S fuel) self onF onR ;;
   step user_fn (S fuel) ;;; ret res) s
  = Ok (length (heap s))
       (mkState (heap s ++ [mkPromise 0 (fst (reaction user_fn r f g))
                                      (snd (reaction user_fn r f g)) DNull])
                (latches s) [] (allEnvs s) (anyEnvs s)).
Proof.
  intros Hr Hst Hq HF HR Hplain.
  erewrite bind_ok; cycle 1.
  { apply then_settled with r; [done|lia|lia]. }
  set (res := length (heap s)).
  set (s1 := mkState (heap s ++ [mkPromise 0 0 VNull DNull]) (latches s) []
                     (allEnvs s) (anyEnvs s)).
  assert (heap s1 !! self = Some r) as Hr1 by (by apply lookup_app_l_Some).
  assert (heap s1 !! res = Some (mkPromise 0 0 VNull DNull)) as Hres
    by exact (lookup_alloc (heap s) _).
  assert (forall st v,
            settle_store st v res (mkPromise 0 0 VNull DNull) s1
            = mkState (heap s ++ [mkPromise 0 st v DNull]) (latches s) []
                      (allEnvs s) (anyEnvs s)) as Hsettle.
  { intros st v. unfold settle_store, s1. cbn.
    by rewrite (insert_alloc (heap s)). }
  assert (run_task user_fn (S fuel) (self, new_Handler onF onR res) s1
          = Ok tt (mkState (heap s ++
                              [mkPromise 0 (fst (reaction user_fn r f g))
                                 (snd (reaction user_fn r f g)) DNull])
                           (latches s) [] (allEnvs s) (anyEnvs s))) as Hrun.
  { unfold run_task, new_Handler.
    rewrite (bind_ok _ _ _ _ _ (get_promise_ok _ _ _ Hr1)).
    cbv zeta. cbn [onFulfilled onRejected promise]. rewrite HF, HR.
    unfold reaction in *.
    destruct (_state r =? 1) eqn:E1.
    - destruct f as [n|]; cbn [option_map].
      + unfold bind, tryCallOne, try_catch. cbn [call1].
        destruct (user_fn n (_value r)) as [v|ex]; cbn [ret throw fst snd] in *.
        * rewrite resolve_plain by (by apply Hplain).
          rewrite <- Hsettle. by apply fulfill_spec.
        * rewrite <- Hsettle. by apply reject_spec.
      + apply Z.eqb_eq in E1. cbn [fst snd] in *.
        rewrite resolve_plain by (by apply Hplain).
        rewrite E1, <- Hsettle. by apply fulfill_spec.
    - assert (_state r = 2) as E2.
      { apply Z.eqb_neq in E1. by destruct Hst. }
      destruct g as [n|]; cbn [option_map].
      + unfold bind, tryCallOne, try_catch. cbn [call1].
        destruct (user_fn n (_value r)) as [v|ex]; cbn [ret throw fst snd] in *.
        * rewrite resolve_plain by (by apply Hplain).
          rewrite <- Hsettle. by apply fulfill_spec.
        * rewrite <- Hsettle. by apply reject_spec.
      + cbn [fst snd]. rewrite E2, <- Hsettle. by apply reject_spec. }
  unfold then_settled_store. rewrite Hq. cbn [app].
  unfold bind at 1, step at 1. cbn [queue]. fold res. fold s1.
  by rewrite (bind_ok _ _ _ _ _ Hrun).
Qed.

(** X12: when the scheduler is idle (its queue is empty), [then] called
    with user functions (or nothing) on a settled promise, followed by one
    turn of the scheduler, leaves a new promise that holds what the handler
    for the receiver's state made of its value: fulfilled with the value the
    handler returned, rejected with what it raised, and settled like the
    receiver when there is no handler for that state.  The other handler is
    not called.  The value with which the new promise is fulfilled (returned
    by the handler, or passed through from a fulfilled receiver) is assumed
    to be no promise and no thenable. *)
Theorem then_settles_downstream_with_reaction (user_fn : UserFns) fuel self r
    f g s :
  heap s !! self = Some r ->
  _state r = 1 \/ _state r = 2 ->
  queue s = [] ->
  (fst (reaction user_fn r f g) = 1 ->
   plain (snd (reaction user_fn r f g)) = true) ->
  (res <- then_ (S fuel) self (user_handler f) (user_handler g) ;;
   step user_fn (S fuel) ;;; ret res) s
  = Ok (length (heap s))
       (mkState (heap s ++ [mkPromise 0 (fst (reaction user_fn r f g))
                                      (snd (reaction user_fn r f g)) DNull])
                (latches s) [] (allEnvs s) (anyEnvs s)).
Proof.
  intros Hr Hst Hq Hplain.
  apply then_and_step; try done; [by destruct f|by destruct g].
Qed.

Lemma then_settles_downstream_with_reaction_witness :
  (res <- then_ 1 TRUE (user_handler (Some 1%nat))
                (user_handler (Some 0%nat)) ;;
   step sample_fn 1 ;;; ret res) init_state
  = Ok 6%nat
       (mkState (heap init_state ++ [mkPromise 0 2 (VStr "oops") DNull])
                [] [] [] []).
Proof.
  exact (then_settles_downstream_with_reaction sample_fn 0 TRUE
           (valuePromise_rec (VBool true)) (Some 1%nat) (Some 0%nat)
           init_state eq_refl (or_introl eq_refl) eq_refl
           ltac:(discriminate)).
Defined.

(** X13: when the scheduler is idle (its queue is empty), [catch(f)] with a
    user function [f] on a promise fulfilled with a value that is no promise
    and no thenable, one turn of the scheduler later, leaves a new promise
    fulfilled with the same value, and [f] is not called; on a rejected
    promise the new promise is fulfilled with what [f] returns for the
    reason, provided that is no promise and no thenable, or rejected with
    what [f] raises. *)
Theorem catch_recovers_from_rejection (user_fn : UserFns) fuel self r n s :
  heap s !! self = Some r ->
  queue s = [] ->
  (_state r = 1 ->
   plain (_value r) = true ->
   (res <- Promise_catch (S fuel) self (VFunction (FnUser n)) ;;
    step user_fn (S fuel) ;;; ret res) s
   = Ok (length (heap s))
        (mkState (heap s ++ [mkPromise 0 1 (_value r) DNull])
                 (latches s) [] (allEnvs s) (anyEnvs s))) /\
  (_state r = 2 ->
   (forall v, user_fn n (_value r) = inl v -> plain v = true) ->
   (res <- Promise_catch (S fuel) self (VFunction (FnUser n)) ;;
    step user_fn (S fuel) ;;; ret res) s
   = Ok (length (heap s))
        (mkState (heap s ++
                    [match user_fn n (_value r) with
                     | inl v => mkPromise 0 1 v DNull
                     | inr ex => mkPromise 0 2 ex DNull
                     end])
                 (latches s) [] (allEnvs s) (anyEnvs s))).
Proof.
  intros Hr Hq. unfold Promise_catch. split.
  - intros H1 Hplain.
    rewrite (then_and_step user_fn fuel self r VNull (VFunction (FnUser n))
               None (Some n) s Hr (or_introl H1) Hq eq_refl eq_refl);
      unfold reaction; rewrite H1; [done|done].
  - intros H2 Hplain.
    rewrite (then_and_step user_fn fuel self r VNull (VFunction (FnUser n))
               None (Some n) s Hr (or_intror H2) Hq eq_refl eq_refl);
      unfold reaction; rewrite H2; cbn [Z.eqb Pos.eqb].
    + by destruct (user_fn n (_value r)).
    + destruct (user_fn n (_value r)) as [v|ex]; [|done].
      intros _. by apply Hplain.
Qed.

Lemma catch_recovers_from_rejection_witness :
  (res <- Promise_catch 1 0 (VFunction (FnUser 0)) ;;
   step sample_fn 1 ;;; ret res)
    (mkState [mkPromise 0 2 (VStr "e") DNull] [] [] [] [])
  = Ok 1%nat
       (mkState [mkPromise 0 2 (VStr "e") DNull;
                 mkPromise 0 1 (VStr "e") DNull] [] [] [] []).
Proof.
  exact (proj2 (catch_recovers_from_rejection sample_fn 0 0
                  (mkPromise 0 2 (VStr "e") DNull) 0
                  (mkState [mkPromise 0 2 (VStr "e") DNull] [] [] [] [])
                  eq_refl eq_refl)
           eq_refl (fun v H => match H in _ = y return
                                 match y with inl w => plain w = true
                                         | inr _ => True end
                               with eq_refl => eq_refl end)).
Defined.

(** ** [Promise.allSettled] on values *)

Lemma mapAllSettled_plain (user_fn : UserFns) fuel x s :
  plain x = true ->
  mapAllSettled user_fn fuel x s = Ok (onSettledFulfill x) s.
Proof. by destruct x as [| | | | | | | | | |[]|]. Qed.

Lemma map_mapAllSettled_plain (user_fn : UserFns) fuel xs s :
  Forall (fun x => plain x = true) xs ->
  map_m (mapAllSettled user_fn fuel) xs s = Ok (map onSettledFulfill xs) s.
Proof.
  induction 1 as [|x xs Hx _ IH]; [done|]. cbn [map_m map].
  erewrite bind_ok by (by apply mapAllSettled_plain).
  by erewrite bind_ok by exact IH.
Qed.

Lemma Promise_all_empty_store (user_fn : UserFns) fuel s :
  exists s',
    Promise_all user_fn (S (S (S (S fuel)))) [] s = Ok (length (heap s)) s' /\
    heap s' = heap s ++ [mkPromise 0 1 (VArray []) DNull] /\
    queue s' = queue s.
Proof.
  unfold Promise_all. eexists. split.
  - eapply new_Promise_returns.
    + cbn [call2 length Nat.eqb]. erewrite bind_ok; [reflexivity|].
      apply resolve_callback_first with (r := mkPromise 0 0 VNull DNull);
        [done|by apply list_lookup_middle|exact (lookup_alloc (heap s) _)
        |done].
    + cbn [settle_store set_latch latches with_new_latch set_heap].
      apply list_lookup_insert_eq. rewrite length_app. cbn. lia.
  - split; [exact (insert_alloc (heap s) _ _)|]. cbn. by rewrite app_nil_r.
Qed.

Lemma Promise_all_ready_fulfilled_store (user_fn : UserFns) fuel xs s :
  xs <> [] ->
  Forall (ready_fulfilled s) xs ->
  exists s',
    Promise_all user_fn (S (S (S (S (S (S fuel)))))) xs s
    = Ok (length (heap s)) s' /\
    heap s' = heap s ++ [mkPromise 0 1 (VArray (map (value_of s) xs)) DNull] /\
    queue s' = queue s.
Proof.
  intros Hne Hready.
  set (p := length (heap s)). set (l := length (latches s)).
  set (env := length (allEnvs s)).
  set (e0 := mkAllEnv xs (Z.of_nat (length xs)) (FnResolveCb l p)
                      (FnRejectCb l p)).
  set (rec0 := mkPromise 0 0 VNull DNull).
  set (s1 := mkState (heap s ++ [rec0]) (latches s ++ [false]) (queue s)
                     (allEnvs s ++ [e0]) (anyEnvs s)).
  assert (Forall (ready_fulfilled s1) xs) as Hready1.
  { eapply Forall_impl; [exact Hready|]. intros y Hy.
    by apply ready_fulfilled_mono with s [rec0]. }
  assert (map (value_of s1) xs = map (value_of s) xs) as Hvals.
  { apply Forall_fmap_ext_1. eapply Forall_impl; [exact Hready|].
    intros [| | | | |q| | | | | |] Hy; try done.
    simpl in Hy. destruct Hy as (r & Hq & _). cbn [value_of s1 heap].
    by rewrite (lookup_app_l_Some _ _ _ _ Hq), Hq. }
  pose proof (all_scan_fulfilled user_fn fuel env l p rec0 xs [] s1 e0)
    as Hscan.
  rewrite Hvals in Hscan. cbn [app length] in Hscan.
  eexists. split.
  - unfold Promise_all. eapply new_Promise_returns with (b := true).
    + cbn [call2]. fold p. fold l.
      destruct (Nat.eqb_spec (length xs) 0) as [Hz|_];
        [by destruct xs|].
      erewrite bind_ok by reflexivity. fold e0. fold rec0. fold env.
      change (mkState _ _ _ _ _) with s1.
      apply Hscan; try done.
      * by apply list_lookup_middle.
      * by apply list_lookup_middle.
      * by apply list_lookup_middle.
    + fold l. cbn [all_fulfilled_store latches settle_store set_latch
                   set_allEnv s1].
      apply list_lookup_insert_eq. rewrite length_app. simpl. lia.
  - cbn [all_fulfilled_store settle_store set_latch set_allEnv heap queue s1].
    split; [exact (insert_alloc (heap s) _ _)|]. cbn. by rewrite app_nil_r.
Qed.

(** X14: [Promise.allSettled] of values that are neither promises nor
    thenables returns a new promise that is already fulfilled with one
    [{status: 'fulfilled', value}] record per input, in input order, and
    schedules nothing. *)
Theorem allSettled_of_values_is_fulfilled_at_once (user_fn : UserFns) fuel xs
    s :
  Forall (fun x => plain x = true) xs ->
  exists s',
    Promise_allSettled user_fn (S (S (S (S (S (S fuel)))))) xs s
    = Ok (length (heap s)) s' /\
    heap s' = heap s ++ [mkPromise 0 1 (VArray (map onSettledFulfill xs))
                                   DNull] /\
    queue s' = queue s.
Proof.
  intros Hxs. unfold Promise_allSettled.
  erewrite bind_ok by (by apply map_mapAllSettled_plain).
  destruct xs as [|x xs].
  - exact (Promise_all_empty_store user_fn (S (S fuel)) s).
  - destruct (Promise_all_ready_fulfilled_store user_fn fuel
                (map onSettledFulfill (x :: xs)) s) as (s' & Hall & Hh & Hq).
    + done.
    + apply Forall_forall. intros y Hy. apply list_elem_of_In in Hy.
      apply in_map_iff in Hy as (z & <- & _). done.
    + exists s'. split; [exact Hall|]. split; [|exact Hq].
      rewrite Hh, map_map. do 3 f_equal.
Qed.

Lemma allSettled_of_values_is_fulfilled_at_once_witness :
  exists s',
    Promise_allSettled sample_fn 6 [VNum 1; VStr "a"] init_state
    = Ok 6%nat s' /\
    heap s' = heap init_state ++
              [mkPromise 0 1 (VArray [VSettled "fulfilled" (VNum 1);
                                      VSettled "fulfilled" (VStr "a")])
                         DNull] /\
    queue s' = [].
Proof.
  apply (allSettled_of_values_is_fulfilled_at_once sample_fn 0
           [VNum 1; VStr "a"] init_state).
  by repeat constructor.
Defined.

(** ** The records of [Promise.allSettled] *)

(** X15: when the scheduler is idle (its queue is empty), for an input of
    [Promise.allSettled] that is a settled promise, [mapAllSettled] returns
    a new promise which, one turn of the scheduler later, is fulfilled with
    the record of the input: [{status: 'fulfilled', value}] for a fulfilled
    input and [{status: 'rejected', reason}] for a rejected one.  It is
    never rejected. *)
Theorem allSettled_turns_outcome_into_record (user_fn : UserFns) fuel p r s :
  heap s !! p = Some r ->
  _state r = 1 \/ _state r = 2 ->
  queue s = [] ->
  (item <- mapAllSettled user_fn (S fuel) (VPromise p) ;;
   step user_fn (S fuel) ;;; ret item) s
  = Ok (VPromise (length (heap s)))
       (mkState (heap s ++
                   [mkPromise 0 1
                      (if _state r =? 1 then onSettledFulfill (_value r)
                       else onSettledReject (_value r)) DNull])
                (latches s) [] (allEnvs s) (anyEnvs s)).
Proof.
  intros Hr Hst Hq. cbn [mapAllSettled].
  erewrite bind_ok; cycle 1.
  { erewrite bind_ok; [reflexivity|].
    apply then_settled with r; [done|lia|lia]. }
  set (res := length (heap s)).
  set (s1 := mkState (heap s ++ [mkPromise 0 0 VNull DNull]) (latches s) []
                     (allEnvs s) (anyEnvs s)).
  assert (heap s1 !! p = Some r) as Hr1 by (by apply lookup_app_l_Some).
  assert (heap s1 !! res = Some (mkPromise 0 0 VNull DNull)) as Hres
    by exact (lookup_alloc (heap s) _).
  assert (forall v,
            settle_store 1 v res (mkPromise 0 0 VNull DNull) s1
            = mkState (heap s ++ [mkPromise 0 1 v DNull]) (latches s) []
                      (allEnvs s) (anyEnvs s)) as Hsettle.
  { intros v. unfold settle_store, s1. cbn.
    by rewrite (insert_alloc (heap s)). }
  unfold then_settled_store. rewrite Hq. cbn [app ret].
  unfold bind at 1, step at 1. cbn [queue]. fold res. fold s1.
  erewrite bind_ok; [reflexivity|].
  unfold run_task, new_Handler.
  rewrite (bind_ok _ _ _ _ _ (get_promise_ok _ _ _ Hr1)).
  cbv zeta. cbn [onFulfilled onRejected promise as_callable].
  rewrite <- Hsettle.
  destruct (_state r =? 1); unfold bind, tryCallOne, try_catch;
    cbn [call1 ret]; by apply fulfill_spec.
Qed.

Lemma allSettled_turns_outcome_into_record_witness :
  (item <- mapAllSettled sample_fn 1 (VPromise 0) ;;
   step sample_fn 1 ;;; ret item)
    (mkState [mkPromise 0 2 (VStr "e") DNull] [] [] [] [])
  = Ok (VPromise 1)
       (mkState [mkPromise 0 2 (VStr "e") DNull;
                 mkPromise 0 1 (VSettled "rejected" (VStr "e")) DNull]
                [] [] [] []).
Proof.
  exact (allSettled_turns_outcome_into_record sample_fn 0 0
           (mkPromise 0 2 (VStr "e") DNull)
           (mkState [mkPromise 0 2 (VStr "e") DNull] [] [] [] [])
           eq_refl (or_intror eq_refl) eq_refl).
Defined.

(** ** [Promise.any]: the first fulfilment *)

Lemma deliver_to_any_resolved (user_fn : UserFns) fuel env l p d s :
  any_resolved env l p s ->
  exists s',
    deliver_to_any user_fn (S fuel) env d s = Ok tt s' /\
    heap s' = heap s /\ queue s' = queue s /\ any_resolved env l p s'.
Proof.
  intros (e & He & Hres & Hrej & Hl). destruct d as [v|reason].
  - exists s. split; [|by repeat split; try exists e].
    unfold deliver_to_any. erewrite bind_ok; [reflexivity|]. cbn [call1].
    rewrite (bind_ok _ _ _ _ _ (get_anyEnv_ok _ _ _ He)). by rewrite Hres.
  - set (e' := mkAnyEnv (any_length e) (any_hasResolved e)
                        (any_rejectionReasons e ++ [reason]) (any_resolve e)
                        (any_reject e)).
    set (s' := mkState (heap s) (latches s) (queue s) (allEnvs s)
                       (<[env := e']> (anyEnvs s))).
    assert (latched l s') as Hl' by exact Hl.
    exists s'. split; [|repeat split].
    + unfold deliver_to_any. erewrite bind_ok; [reflexivity|]. cbn [call1].
      rewrite (bind_ok _ _ _ _ _ (get_anyEnv_ok _ _ _ He)). cbv zeta.
      rewrite (bind_ok (put_anyEnv env e') _ s _ _ eq_refl). fold s'.
      erewrite bind_ok; [reflexivity|].
      destruct (_ =? _)%nat; [|done].
      erewrite bind_ok; [reflexivity|]. rewrite Hrej.
      exact (completion_callback_ignored user_fn fuel false l p _ s' Hl').
    + exists e'. split; [|done].
      cbn [s' anyEnvs]. apply list_lookup_insert_eq.
      by apply lookup_lt_Some in He.
Qed.

Lemma deliveries_to_any_resolved (user_fn : UserFns) fuel env l p later :
  forall s,
    any_resolved env l p s ->
    exists s',
      for_each (deliver_to_any user_fn (S fuel) env) later s = Ok tt s' /\
      heap s' = heap s /\ queue s' = queue s.
Proof.
  induction later as [|d later IH]; intros s Hs; [by exists s|].
  destruct (deliver_to_any_resolved user_fn fuel env l p d s Hs)
    as (s1 & Hd & Hh & Hq & Hs1).
  destruct (IH s1 Hs1) as (s2 & Hrest & Hh2 & Hq2).
  exists s2. cbn [for_each]. erewrite bind_ok by exact Hd.
  split; [done|]. by rewrite Hh2, Hq2.
Qed.

(** X16: in an activation of [Promise.any] that has not yet passed a value
    on, the first fulfilment [v] of an input (no thenable) fulfils the
    promise of [any] with [v] and schedules its waiters; whatever
    fulfilments and rejections of inputs arrive afterwards, in any number
    and order, change no promise and schedule nothing. *)
Theorem any_first_fulfilment_wins (user_fn : UserFns) fuel env l p r e v s :
  anyEnvs s !! env = Some e ->
  any_hasResolved e = false ->
  any_resolve e = FnResolveCb l p ->
  any_reject e = FnRejectCb l p ->
  latches s !! l = Some false ->
  heap s !! p = Some r ->
  wf_deferreds r = true ->
  plain v = true ->
  exists s1,
    deliver_to_any user_fn (S (S (S fuel))) env (inl v) s = Ok tt s1 /\
    heap s1 = <[p := settled 1 v r]> (heap s) /\
    queue s1 = queue s ++ map (pair p) (waiters r) /\
    forall later fuel', exists s2,
      for_each (deliver_to_any user_fn (S fuel') env) later s1 = Ok tt s2 /\
      heap s2 = heap s1 /\ queue s2 = queue s1.
Proof.
  intros He Hres Hresolve Hreject Hl Hp Hwf Hplain.
  set (e' := mkAnyEnv (any_length e) true (any_rejectionReasons e)
                      (any_resolve e) (any_reject e)).
  set (s0 := mkState (heap s) (latches s) (queue s) (allEnvs s)
                     (<[env := e']> (anyEnvs s))).
  exists (settle_store 1 v p r (set_latch l s0)).
  split; [|split; [done|split; [done|]]].
  - unfold deliver_to_any. erewrite bind_ok; [reflexivity|]. cbn [call1].
    rewrite (bind_ok _ _ _ _ _ (get_anyEnv_ok _ _ _ He)). rewrite Hres.
    rewrite (bind_ok (put_anyEnv env e') _ s _ _ eq_refl). fold s0.
    erewrite bind_ok; [reflexivity|]. rewrite Hresolve.
    by apply resolve_callback_first.
  - intros later fuel'.
    apply deliveries_to_any_resolved with l p.
    exists e'. split; [|split; [done|split; [done|]]].
    + cbn [settle_store set_latch anyEnvs s0].
      apply list_lookup_insert_eq. by apply lookup_lt_Some in He.
    + apply latched_settle_store. by apply lookup_lt_Some in Hl.
Qed.

Lemma any_first_fulfilment_wins_witness :
  exists s1,
    deliver_to_any sample_fn 3 0 (inl (VNum 1)) any_waiting_state
    = Ok tt s1 /\
    heap s1 = [mkPromise 0 1 (VNum 1) DNull] /\
    queue s1 = [] /\
    forall later fuel', exists s2,
      for_each (deliver_to_any sample_fn (S fuel') 0) later s1 = Ok tt s2 /\
      heap s2 = heap s1 /\ queue s2 = queue s1.
Proof.
  exact (any_first_fulfilment_wins sample_fn 0 0 0 0
           (mkPromise 0 0 VNull DNull)
           (mkAnyEnv 2 false [] (FnResolveCb 0 0) (FnRejectCb 0 0))
           (VNum 1) any_waiting_state
           eq_refl eq_refl eq_refl eq_refl eq_refl eq_refl eq_refl eq_refl).
Defined.

(** ** [Promise.race] on inputs that are ready *)

Lemma cache_intact_mono s s' ext :
  heap s' = heap s ++ ext -> cache_intact s -> cache_intact s'.
Proof.
  intros Hh (HT & HF & HN & HU & HZ & HE). unfold cache_intact. rewrite Hh.
  repeat split; by apply lookup_app_l_Some.
Qed.

Lemma race_task_mono l p s s' ext t :
  heap s' = heap s ++ ext -> race_task l p s t -> race_task l p s' t.
Proof.
  intros Hh (HF & HR & Hne & (rq & Hq & Hst) & (rd & Hd & Hds)).
  repeat split; try done.
  - exists rq. split; [|done]. rewrite Hh. by apply lookup_app_l_Some.
  - exists rd. split; [|done]. rewrite Hh. by apply lookup_app_l_Some.
Qed.

(** [Promise.resolve] on an input that is ready. *)
Lemma Promise_resolve_ready (dr : Executor -> nat -> M unit) x s :
  cache_intact s ->
  ready s x ->
  exists q s1 ext rq,
    Promise_resolve_with dr x s = Ok q s1 /\
    heap s1 = heap s ++ ext /\ latches s1 = latches s /\
    queue s1 = queue s /\
    heap s1 !! q = Some rq /\
    (_state rq, _value rq) = outcome_of s x /\
    (_state rq = 1 \/ _state rq = 2) /\
    (_state rq = 1 -> plain (_value rq) = true).
Proof.
  intros Hc Hx.
  assert ((exists q, x = VPromise q) \/ plain x = true) as [[q ->]|Hplain].
  { destruct x; try (by right); [by left; eexists|].
    destruct Hx as [Hx|[]]. by right. }
  - assert (exists rq, heap s !! q = Some rq /\
                       (_state rq = 1 \/ _state rq = 2) /\
                       (_state rq = 1 -> plain (_value rq) = true))
      as (rq & Hq & Hst & Hpl).
    { destruct Hx as [(r & Hq & H1 & Hv)|(r & Hq & H2)]; exists r.
      - split; [done|]. split; [by left|done].
      - split; [done|]. split; [by right|]. intros H1. congruence. }
    exists q, s, [], rq. rewrite app_nil_r. cbn [outcome_of]. rewrite Hq.
    by repeat split.
  - assert (plain (resolved_value x) = true) as Hplain'.
    { by destruct x as [| | |[|]| | | | | | | |]. }
    assert (outcome_of s x = (1, resolved_value x)) as Hout.
    { by destruct x. }
    destruct (Promise_resolve_plain dr x s Hc Hplain)
      as (q & s1 & Hres & Hq & [[-> Hle]|[-> ->]] & _).
    + exists q, s, [], (valuePromise_rec (resolved_value x)).
      rewrite app_nil_r, Hout.
      repeat split; try done. by left.
    + exists (length (heap s)),
        (set_heap (heap s ++ [valuePromise_rec (resolved_value x)]) s),
        [valuePromise_rec (resolved_value x)],
        (valuePromise_rec (resolved_value x)).
      rewrite Hout. repeat split; try done. by left.
Qed.

(** One turn of the loop of [race] on an input that is ready: a closure for
    the input goes to the end of the queue. *)
Lemma race_turn_ready (user_fn : UserFns) fuel fuel' l p x s :
  cache_intact s ->
  ready s x ->
  (p < length (heap s))%nat ->
  exists s' ext q d rq,
    (q <- Promise_resolve_with (doResolve user_fn fuel') x ;;
     then_ (S fuel) q (VFunction (FnResolveCb l p))
           (VFunction (FnRejectCb l p)) ;;; ret tt) s = Ok tt s' /\
    heap s' = heap s ++ ext /\ latches s' = latches s /\
    queue s' = queue s ++ [(q, mkHandler (Some (FnResolveCb l p))
                                          (Some (FnRejectCb l p)) d)] /\
    race_task l p s' (q, mkHandler (Some (FnResolveCb l p))
                                   (Some (FnRejectCb l p)) d) /\
    heap s' !! q = Some rq /\
    (_state rq, _value rq) = outcome_of s x /\
    (_state rq = 1 -> plain (_value rq) = true) /\
    heap s' !! d = Some (mkPromise 0 0 VNull DNull).
Proof.
  intros Hc Hx Hp.
  destruct (Promise_resolve_ready (doResolve user_fn fuel') x s Hc Hx)
    as (q & s1 & ext & rq & Hres & Hh & Hl & Hq & Hrq & Hout & Hst & Hpl).
  set (d := length (heap s1)).
  set (s' := then_settled_store q (VFunction (FnResolveCb l p))
                                (VFunction (FnRejectCb l p)) s1).
  assert (heap s' !! q = Some rq) as Hrq'
    by (by apply lookup_app_l_Some).
  assert (heap s' !! d = Some (mkPromise 0 0 VNull DNull)) as Hd
    by exact (lookup_alloc (heap s1) _).
  exists s', (ext ++ [mkPromise 0 0 VNull DNull]), q, d, rq.
  split; [|split; [|split; [|split; [|split]]]].
  - erewrite bind_ok by exact Hres.
    erewrite bind_ok; [reflexivity|].
    apply then_settled with rq; [done|lia|lia].
  - cbn [s' then_settled_store heap]. by rewrite Hh, app_assoc.
  - done.
  - cbn [s' then_settled_store queue]. by rewrite Hq.
  - repeat split; cbn [fst snd onFulfilled onRejected promise].
    + unfold d. rewrite Hh, length_app. lia.
    + by exists rq.
    + by eexists.
  - done.
Qed.

Lemma race_scan_ready (user_fn : UserFns) fuel fuel' l p :
  forall rest s,
    cache_intact s ->
    Forall (ready s) rest ->
    (p < length (heap s))%nat ->
    exists s' ext tasks,
      for_each (fun value =>
                  q <- Promise_resolve_with (doResolve user_fn fuel') value ;;
                  then_ (S fuel) q (VFunction (FnResolveCb l p))
                        (VFunction (FnRejectCb l p)) ;;; ret tt) rest s
      = Ok tt s' /\
      heap s' = heap s ++ ext /\ latches s' = latches s /\
      queue s' = queue s ++ tasks /\
      Forall (race_task l p s') tasks.
Proof.
  induction rest as [|x rest IH]; intros s Hc Hrest Hp.
  - exists s, [], []. by rewrite !app_nil_r.
  - apply Forall_cons in Hrest as [Hx Hrest].
    destruct (race_turn_ready user_fn fuel fuel' l p x s Hc Hx Hp)
      as (s1 & ext1 & q & d & rq & Hturn & Hh1 & Hl1 & Hq1 & Ht1 & _).
    destruct (IH s1) as (s' & ext & tasks & Hscan & Hh & Hl & Hq & Hts).
    + by apply cache_intact_mono with s ext1.
    + eapply Forall_impl; [exact Hrest|]. intros y.
      by apply ready_mono with ext1.
    + rewrite Hh1, length_app. lia.
    + exists s', (ext1 ++ ext),
        ((q, mkHandler (Some (FnResolveCb l p)) (Some (FnRejectCb l p)) d)
           :: tasks).
      split; [|split; [|split; [|split]]].
      * cbn [for_each]. by erewrite bind_ok by exact Hturn.
      * by rewrite Hh, Hh1, app_assoc.
      * by rewrite Hl, Hl1.
      * rewrite Hq, Hq1, <- app_assoc. reflexivity.
      * apply Forall_cons. split; [|done].
        by apply race_task_mono with s1 ext.
Qed.

Lemma outcome_of_mono s s' ext x :
  heap s' = heap s ++ ext -> ready s x -> outcome_of s' x = outcome_of s x.
Proof.
  intros Hh Hx. destruct x as [| | | | |q| | | | | |]; try done.
  assert (exists r, heap s !! q = Some r) as [r Hq].
  { destruct Hx as [(r & Hq & _)|(r & Hq & _)]; by exists r. }
  cbn [outcome_of]. by rewrite Hh, (lookup_app_l_Some _ _ _ _ Hq), Hq.
Qed.

Lemma wf_deferreds_fresh r : _deferredState r = 0 -> wf_deferreds r = true.
Proof. unfold wf_deferreds. by intros ->. Qed.

Lemma waiters_fresh r : _deferredState r = 0 -> waiters r = [].
Proof. unfold waiters. by intros ->. Qed.

Lemma settled_fresh st v r :
  _deferredState r = 0 -> settled st v r = mkPromise 0 st v (_deferreds r).
Proof. unfold settled. by intros ->. Qed.

(** Settling a promise on which nothing waits leaves the closures of [race]
    what they are. *)
Lemma race_task_settle l p st v d rd s0 s t :
  st = 1 \/ st = 2 ->
  _deferredState rd = 0 ->
  heap s0 = heap s ->
  race_task l p s t ->
  race_task l p (settle_store st v d rd s0) t.
Proof.
  intros Hst Hds Hh (HF & HR & Hne & (rq & Hq & Hstq) & (rd' & Hd & Hds')).
  repeat split; try done; cbn [settle_store heap]; rewrite Hh.
  - destruct (decide (fst t = d)) as [E|Hn].
    + rewrite E in *. exists (settled st v rd). split; [|done].
      apply list_lookup_insert_eq. by apply lookup_lt_Some in Hq.
    + exists rq. split; [|done]. by rewrite list_lookup_insert_ne.
  - destruct (decide (promise (snd t) = d)) as [E|Hn].
    + rewrite E in *. exists (settled st v rd). split; [|done].
      apply list_lookup_insert_eq. by apply lookup_lt_Some in Hd.
    + exists rd'. split; [|done]. by rewrite list_lookup_insert_ne.
Qed.

(** A closure of [race] that runs after the promise of [race] is settled
    leaves that promise as it is. *)
Lemma run_race_task_latched (user_fn : UserFns) fuel l p rp t s :
  latched l s ->
  race_task l p s t ->
  heap s !! p = Some rp ->
  exists s',
    run_task user_fn (S fuel) t s = Ok tt s' /\
    heap s' !! p = Some rp /\ latched l s' /\ queue s' = queue s /\
    forall t', race_task l p s t' -> race_task l p s' t'.
Proof.
  intros Hl Ht Hp. pose proof Ht as Ht0.
  destruct t as [q [oF oR d]].
  destruct Ht as (HF & HR & Hne & (rq & Hq & Hst) & (rd & Hd & Hds)).
  cbn [fst snd onFulfilled onRejected promise] in *. subst oF oR.
  exists (settle_store 1 VUndefined d rd s).
  split; [|split; [|split; [|split]]].
  - unfold run_task.
    rewrite (bind_ok _ _ _ _ _ (get_promise_ok _ _ _ Hq)).
    cbv zeta. cbn [onFulfilled onRejected promise].
    assert (forall b v,
              (ret_ <- tryCallOne (call1 user_fn (S fuel))
                                  (completion_callback b l p) v ;;
               match ret_ with
               | inr LAST_ERROR => reject (S fuel) d LAST_ERROR
               | inl v => resolve user_fn (S fuel) d v
               end) s
              = Ok tt (settle_store 1 VUndefined d rd s)) as Hcall.
    { intros b v. unfold bind, tryCallOne, try_catch.
      rewrite (completion_callback_ignored user_fn (S fuel) b l p v s Hl).
      rewrite resolve_plain by done.
      apply fulfill_spec; [done|by apply wf_deferreds_fresh]. }
    destruct (_state rq =? 1).
    + exact (Hcall true (_value rq)).
    + exact (Hcall false (_value rq)).
  - cbn [settle_store heap]. by rewrite list_lookup_insert_ne.
  - done.
  - cbn [settle_store queue]. by rewrite waiters_fresh, app_nil_r.
  - intros t'. apply race_task_settle; [by left|done|done].
Qed.

Lemma run_race_tasks_latched (user_fn : UserFns) fuel l p rp :
  forall n s,
    latched l s ->
    Forall (race_task l p s) (queue s) ->
    heap s !! p = Some rp ->
    exists s',
      run user_fn (S fuel) n s = Ok tt s' /\ heap s' !! p = Some rp.
Proof.
  induction n as [|n IH]; intros s Hl Hts Hp; [by exists s|].
  cbn [run]. unfold bind at 1, step.
  destruct (queue s) as [|t ts] eqn:Eq; [by exists s|].
  apply Forall_cons in Hts as [Ht Hts].
  set (s0 := mkState (heap s) (latches s) ts (allEnvs s) (anyEnvs s)).
  destruct (run_race_task_latched user_fn fuel l p rp t s0 Hl Ht Hp)
    as (s1 & Hrun & Hp1 & Hl1 & Hq1 & Hkeep).
  rewrite (bind_ok _ _ _ _ _ Hrun). cbn [ret].
  apply IH; [done| |done].
  rewrite Hq1. cbn [s0 queue].
  eapply Forall_impl; [exact Hts|]. exact Hkeep.
Qed.

(** The first closure of [race] settles the promise of [race] as its
    receiver is settled. *)
Lemma run_race_task_first (user_fn : UserFns) fuel l p rp q d rq s :
  latches s !! l = Some false ->
  heap s !! p = Some rp ->
  _deferredState rp = 0 ->
  race_task l p s (q, mkHandler (Some (FnResolveCb l p))
                                (Some (FnRejectCb l p)) d) ->
  heap s !! q = Some rq ->
  (_state rq = 1 -> plain (_value rq) = true) ->
  exists s',
    run_task user_fn (S (S fuel))
             (q, mkHandler (Some (FnResolveCb l p)) (Some (FnRejectCb l p)) d)
             s = Ok tt s' /\
    heap s' !! p = Some (settled (_state rq) (_value rq) rp) /\
    latched l s' /\ queue s' = queue s /\
    forall t', race_task l p s t' -> race_task l p s' t'.
Proof.
  intros Hl Hp Hdp Ht Hq Hplain.
  destruct Ht as (_ & _ & Hne & (rq' & Hq' & Hst) & (rd & Hd & Hds)).
  cbn [fst snd promise] in *.
  assert (rq' = rq) as -> by congruence.
  set (s1 := settle_store (_state rq) (_value rq) p rp (set_latch l s)).
  assert (heap s1 !! d = Some rd) as Hd1.
  { cbn [s1 settle_store heap set_latch]. by rewrite list_lookup_insert_ne. }
  assert (latched l s1) as Hl1.
  { apply latched_settle_store. by apply lookup_lt_Some in Hl. }
  exists (settle_store 1 VUndefined d rd s1).
  split; [|split; [|split; [|split]]].
  - unfold run_task.
    rewrite (bind_ok _ _ _ _ _ (get_promise_ok _ _ _ Hq)).
    cbv zeta. cbn [onFulfilled onRejected promise].
    destruct (Z.eqb_spec (_state rq) 1) as [E1|E1].
    + unfold bind, tryCallOne, try_catch.
      rewrite (resolve_callback_first user_fn fuel l p (_value rq) rp s
                 (Hplain E1) Hl Hp (wf_deferreds_fresh _ Hdp)).
      rewrite resolve_plain by done.
      unfold s1. rewrite E1.
      apply fulfill_spec; [|by apply wf_deferreds_fresh].
      unfold s1 in Hd1. by rewrite E1 in Hd1.
    + assert (_state rq = 2) as E2 by (by destruct Hst).
      unfold bind, tryCallOne, try_catch.
      rewrite (reject_callback_first user_fn (S fuel) l p (_value rq) rp s
                 Hl Hp (wf_deferreds_fresh _ Hdp)).
      rewrite resolve_plain by done.
      unfold s1. rewrite E2.
      apply fulfill_spec; [|by apply wf_deferreds_fresh].
      unfold s1 in Hd1. by rewrite E2 in Hd1.
  - cbn [settle_store heap]. rewrite list_lookup_insert_ne by done.
    cbn [s1 settle_store heap set_latch].
    apply list_lookup_insert_eq. by apply lookup_lt_Some in Hp.
  - done.
  - cbn [settle_store queue s1 set_latch].
    by rewrite !waiters_fresh, !app_nil_r.
  - intros t' Ht'. apply race_task_settle with s1; [by left|done|done|].
    by apply race_task_settle with s.
Qed.

(** X17: when the scheduler is idle (its queue is empty) and the six
    promises made when the module is loaded are as they were made, and
    every input of [Promise.race] is ready (a value that is no thenable, or
    a promise that is already rejected, or fulfilled with such a value) and
    there is at least one, the promise that [race] returns is settled, after one turn of the
    scheduler, like the first input in input order: with the state and the
    value of a promise, and fulfilled with a value, where the negative zero
    counts as [0] (the inputs go through [Promise.resolve]).  The turns
    after that one leave it as it is. *)
Theorem race_settles_as_first_ready_input (user_fn : UserFns) fuel fuel' n x
    rest s :
  cache_intact s ->
  queue s = [] ->
  Forall (ready s) (x :: rest) ->
  exists s',
    (p <- Promise_race user_fn (S (S fuel)) (x :: rest) ;;
     run user_fn (S (S fuel')) (S n) ;;; ret p) s
    = Ok (length (heap s)) s' /\
    heap s' !! length (heap s)
    = Some (mkPromise 0 (fst (outcome_of s x)) (snd (outcome_of s x)) DNull).
Proof.
  intros Hc Hqs Hall. apply Forall_cons in Hall as [Hx Hrest].
  set (p := length (heap s)). set (l := length (latches s)).
  set (rp := mkPromise 0 0 VNull DNull).
  set (s0 := with_new_latch (set_heap (heap s ++ [rp]) s)).
  assert (heap s0 = heap s ++ [rp]) as Hh0 by done.
  destruct (race_turn_ready user_fn fuel fuel l p x s0)
    as (s1 & ext1 & q & d & rq & Hturn & Hh1 & Hl1 & Hq1 & Ht1 & Hrq & Hout
        & Hplain & Hd).
  { by apply cache_intact_mono with s [rp]. }
  { by apply ready_mono with s [rp]. }
  { rewrite Hh0, length_app. cbn. lia. }
  rewrite (outcome_of_mono s s0 [rp] x Hh0 Hx) in Hout.
  destruct (race_scan_ready user_fn fuel fuel l p rest s1)
    as (s2 & ext & tasks & Hscan & Hh2 & Hl2 & Hq2 & Hts).
  { apply cache_intact_mono with s0 ext1; [done|].
    by apply cache_intact_mono with s [rp]. }
  { eapply Forall_impl; [exact Hrest|]. intros y Hy.
    apply ready_mono with s0 ext1; [done|]. by apply ready_mono with s [rp]. }
  { rewrite Hh1, Hh0, !length_app. cbn. lia. }
  set (t1 := (q, mkHandler (Some (FnResolveCb l p)) (Some (FnRejectCb l p))
                           d)) in *.
  assert (queue s2 = t1 :: tasks) as Hqueue.
  { rewrite Hq2, Hq1. cbn [s0 with_new_latch set_heap queue]. by rewrite Hqs. }
  assert (heap s2 !! p = Some rp) as Hp2.
  { rewrite Hh2, Hh1, Hh0.
    apply lookup_app_l_Some, lookup_app_l_Some.
    exact (lookup_alloc (heap s) _). }
  assert (latches s2 !! l = Some false) as Hlatch.
  { rewrite Hl2, Hl1. by apply list_lookup_middle. }
  assert (Promise_race user_fn (S (S fuel)) (x :: rest) s = Ok p s2) as Hrace.
  { unfold Promise_race. eapply new_Promise_returns; [|exact Hlatch].
    cbn [call2 for_each]. fold p. fold l. fold rp. fold s0.
    erewrite bind_ok by exact Hturn. exact Hscan. }
  rewrite (bind_ok _ _ _ _ _ Hrace).
  set (s2' := mkState (heap s2) (latches s2) tasks (allEnvs s2) (anyEnvs s2)).
  destruct (run_race_task_first user_fn fuel' l p rp q d rq s2')
    as (s3 & Hrun & Hp3 & Hl3 & Hq3 & Hkeep); try done.
  { by apply race_task_mono with s1 ext. }
  { cbn [s2' heap]. rewrite Hh2. by apply lookup_app_l_Some. }
  destruct (run_race_tasks_latched user_fn (S fuel') l p
              (settled (_state rq) (_value rq) rp) n s3)
    as (s4 & Hrest4 & Hp4); [done| |done|].
  { rewrite Hq3. cbn [s2' queue].
    eapply Forall_impl; [exact Hts|]. exact Hkeep. }
  exists s4. split.
  - erewrite bind_ok; [reflexivity|].
    cbn [run]. unfold bind at 1, step. rewrite Hqueue. fold s2'.
    by rewrite (bind_ok _ _ _ _ _ Hrun).
  - rewrite Hp4, <- Hout. done.
Qed.

Lemma race_settles_as_first_ready_input_witness :
  exists s',
    (p <- Promise_race sample_fn 2 [VPromise FALSE; VNum 5; VPromise TRUE] ;;
     run sample_fn 2 3 ;;; ret p) init_state
    = Ok 6%nat s' /\
    heap s' !! 6%nat = Some (mkPromise 0 1 (VBool false) DNull).
Proof.
  apply (race_settles_as_first_ready_input sample_fn 0 0 2 (VPromise FALSE)
           [VNum 5; VPromise TRUE] init_state).
  - by repeat split.
  - reflexivity.
  - apply Forall_cons. split.
    { left. exists (valuePromise_rec (VBool false)). by repeat split. }
    apply Forall_cons. split; [by left|].
    apply Forall_cons. split; [|apply Forall_nil_2].
    left. exists (valuePromise_rec (VBool true)). by repeat split.
Defined.

(** ** [Promise.all] and an input that is pending *)

(** The loop of [all] over inputs that are ready and fulfilled, when more
    inputs are awaited than it visits: their values replace them in
    [args]. *)
Lemma all_scan_fulfilled_args (user_fn : UserFns) fuel env :
  forall pre filled tail s e,
    allEnvs s !! env = Some e ->
    all_args e = filled ++ pre ++ tail ->
    Forall (ready_fulfilled s) pre ->
    Z.of_nat (length pre) < all_remaining e ->
    for_each (fun iv => all_res user_fn (S (S fuel)) env (fst iv) (snd iv))
             (imap (fun i v => ((length filled + i)%nat, v)) pre) s
    = Ok tt (set_allEnv env
               (all_env_with e (filled ++ map (value_of s) pre ++ tail)
                             (all_remaining e - Z.of_nat (length pre))) s).
Proof.
  induction pre as [|x pre IH]; intros filled tail s e He Hargs Hpre Hrem.
  - cbn [imap for_each ret map app length]. f_equal.
    cbn [app] in Hargs. unfold set_allEnv, all_env_with.
    rewrite <- Hargs, Z.sub_0_r.
    destruct s, e. cbn in *. f_equal. by rewrite list_insert_id.
  - apply Forall_cons in Hpre as [Hx Hpre]. simpl length in Hrem.
    destruct (all_res_ready_fulfilled_not_last user_fn fuel env e
                (length filled + 0) x s He Hx ltac:(lia)) as [_ Hstep].
    rewrite imap_cons. cbn [for_each fst snd].
    erewrite bind_ok by exact Hstep.
    pose proof (lookup_lt_Some _ _ _ He) as Hlt.
    set (e1 := all_env_with e (<[(length filled + 0)%nat := value_of s x]>
                                 (all_args e)) (all_remaining e - 1)).
    rewrite (imap_ext _ (fun i v =>
                           ((length (filled ++ [value_of s x]) + i)%nat, v)));
      cycle 1.
    { intros i z _. simpl. rewrite length_app. simpl. f_equal. lia. }
    rewrite (IH (filled ++ [value_of s x]) tail (set_allEnv env e1 s) e1).
    + change (value_of (set_allEnv env e1 s)) with (value_of s).
      unfold set_allEnv, e1, all_env_with.
      cbn [allEnvs heap latches queue anyEnvs all_resolve all_reject
           all_remaining map].
      rewrite list_insert_insert_eq, <- app_assoc. cbn [app].
      replace (all_remaining e - 1 - Z.of_nat (length pre))
        with (all_remaining e - Z.of_nat (length (x :: pre)))
        by (simpl length; lia).
      reflexivity.
    + cbn [allEnvs set_allEnv]. by apply list_lookup_insert_eq.
    + cbn [e1 all_env_with all_args]. rewrite Hargs.
      rewrite insert_app_r, <- app_assoc. reflexivity.
    + done.
    + cbn [e1 all_env_with all_remaining]. lia.
Qed.

(** [res] on an input that is a pending promise: the promise gets one more
    waiter. *)
Lemma all_res_pending_promise (user_fn : UserFns) fuel env i q rq e s :
  allEnvs s !! env = Some e ->
  heap s !! q = Some rq ->
  _state rq = 0 ->
  registrable rq = true ->
  all_res user_fn (S fuel) env i (VPromise q) s
  = Ok tt (set_heap
             (<[q := register (mkHandler (Some (FnAllRes env i))
                                         (Some (all_reject e))
                                         (length (heap s))) rq]>
                (heap s ++ [mkPromise 0 0 VNull DNull])) s).
Proof.
  intros He Hq Hst Hreg. rewrite all_res_promise_eq.
  rewrite (bind_ok _ _ _ _ _ (get_allEnv_ok _ _ _ He)).
  erewrite bind_ok by (eapply follow_settled; [done|lia]).
  rewrite (bind_ok _ _ _ _ _ (get_promise_ok _ _ _ Hq)).
  rewrite Hst. cbn [Z.eqb].
  erewrite bind_ok by reflexivity.
  erewrite bind_ok; [reflexivity|].
  unfold then_. rewrite (bind_ok new_noop _ s _ _ eq_refl).
  erewrite bind_ok; [reflexivity|].
  erewrite handle_pending; [reflexivity| |done|done].
  cbn [heap set_heap]. by apply lookup_app_l_Some.
Qed.

Lemma insert_last {A} (h : list A) (x y : A) :
  <[length h := y]> (h ++ [x]) = h ++ [y].
Proof.
  rewrite insert_app_r_alt by lia. by rewrite Nat.sub_diag.
Qed.

(** A store that has the fulfilled promises of [s] as they are reads the
    same values from the inputs that are ready and fulfilled. *)
Lemma ready_fulfilled_kept s s' x :
  (forall k r, heap s !! k = Some r -> _state r = 1 ->
               heap s' !! k = Some r) ->
  ready_fulfilled s x ->
  ready_fulfilled s' x /\ value_of s' x = value_of s x.
Proof.
  intros Hkeep Hx. destruct x as [| | | | |k| | | | | |]; try done.
  destruct Hx as (r & Hk & Hst & Hv).
  pose proof (Hkeep k r Hk Hst) as Hk'. split.
  - by exists r.
  - cbn [value_of]. by rewrite Hk, Hk'.
Qed.

Lemma Forall_ready_fulfilled_kept s s' xs :
  (forall k r, heap s !! k = Some r -> _state r = 1 ->
               heap s' !! k = Some r) ->
  Forall (ready_fulfilled s) xs ->
  Forall (ready_fulfilled s') xs /\
  map (value_of s') xs = map (value_of s) xs.
Proof.
  intros Hkeep. induction 1 as [|x xs Hx _ [IH1 IH2]]; [done|].
  destruct (ready_fulfilled_kept s s' x Hkeep Hx) as [Hx' Hv].
  split; [by apply Forall_cons|]. cbn [map]. by rewrite Hv, IH2.
Qed.

Lemma Promise_all_pending_input (user_fn : UserFns) fuel pre q rq post s :
  Forall (ready_fulfilled s) pre ->
  Forall (ready_fulfilled s) post ->
  heap s !! q = Some rq ->
  _state rq = 0 ->
  registrable rq = true ->
  Promise_all user_fn (S (S (S (S fuel)))) (pre ++ VPromise q :: post) s
  = Ok (length (heap s)) (all_waiting_store s pre post q rq).
Proof.
  intros Hpre Hpost Hq Hst Hreg.
  set (p := length (heap s)). set (l := length (latches s)).
  set (env := length (allEnvs s)).
  set (args := pre ++ VPromise q :: post).
  set (rp := mkPromise 0 0 VNull DNull).
  set (e0 := mkAllEnv args (Z.of_nat (length args)) (FnResolveCb l p)
                      (FnRejectCb l p)).
  set (s0 := mkState (heap s ++ [rp]) (latches s ++ [false]) (queue s)
                     (allEnvs s ++ [e0]) (anyEnvs s)).
  assert (length args = S (length pre + length post)) as Hlen.
  { unfold args. rewrite length_app. simpl length. lia. }
  (* the inputs before [q] *)
  destruct (Forall_ready_fulfilled_kept s s0 pre) as [Hpre0 Hvpre];
    [by intros k r Hk _; apply lookup_app_l_Some|done|].
  pose proof (all_scan_fulfilled_args user_fn fuel env pre []
                (VPromise q :: post) s0 e0) as HscanA.
  rewrite Hvpre in HscanA. cbn [app length Nat.add] in HscanA.
  set (eA := all_env_with e0 (map (value_of s) pre ++ VPromise q :: post)
                          (all_remaining e0 - Z.of_nat (length pre)))
    in HscanA.
  set (sA := set_allEnv env eA s0) in HscanA.
  assert (allEnvs sA !! env = Some eA) as HeA.
  { cbn [sA set_allEnv allEnvs s0]. apply list_lookup_insert_eq.
    rewrite length_app. cbn. lia. }
  (* the input [q] *)
  pose proof (all_res_pending_promise user_fn (S fuel) env
                (length pre + 0) q rq eA sA HeA) as HstepB.
  set (w := mkHandler (Some (FnAllRes env (length pre + 0)))
                      (Some (all_reject eA)) (length (heap sA))) in HstepB.
  set (sB := set_heap (<[q := register w rq]> (heap sA ++ [rp])) sA)
    in HstepB.
  (* the inputs after [q] *)
  destruct (Forall_ready_fulfilled_kept s sB post) as [HpostB Hvpost];
    [|done|].
  { intros k r Hk Hk1. cbn [sB set_heap heap sA set_allEnv s0].
    rewrite list_lookup_insert_ne by congruence.
    by apply lookup_app_l_Some, lookup_app_l_Some. }
  pose proof (all_scan_fulfilled_args user_fn fuel env post
                (map (value_of s) pre ++ [VPromise q]) [] sB eA HeA)
    as HscanC.
  rewrite Hvpost, !app_nil_r in HscanC.
  set (eC := all_env_with eA
               ((map (value_of s) pre ++ [VPromise q]) ++
                map (value_of s) post)
               (all_remaining eA - Z.of_nat (length post))) in HscanC.
  assert (w = mkHandler (Some (FnAllRes env (length pre)))
                        (Some (FnRejectCb l p)) (S p)) as Hw.
  { unfold w. rewrite Nat.add_0_r. f_equal.
    cbn [sA set_allEnv heap s0]. rewrite length_app. cbn. fold p. lia. }
  assert (all_waiting_store s pre post q rq = set_allEnv env eC sB) as ->.
  { unfold all_waiting_store, set_allEnv, sB, set_heap, sA, set_allEnv, s0.
    cbn [heap latches queue allEnvs anyEnvs]. fold p l env rp.
    rewrite Hw. f_equal.
    - by rewrite <- app_assoc.
    - rewrite list_insert_insert_eq. unfold env.
      rewrite insert_last. do 2 f_equal.
      unfold eC, eA, all_env_with.
      cbn [all_resolve all_reject all_remaining e0].
      rewrite <- app_assoc. cbn [app]. f_equal. rewrite Hlen. lia. }
  unfold Promise_all. eapply new_Promise_returns with (b := false).
  - cbn [call2]. fold p. fold l.
    destruct (Nat.eqb_spec (length args) 0) as [Hz|_]; [lia|].
    erewrite bind_ok by reflexivity. fold e0. fold rp. fold env.
    change (mkState _ _ _ _ _) with s0.
    unfold args. rewrite imap_app.
    erewrite for_each_app; cycle 1.
    { apply HscanA; [by apply list_lookup_middle|done|done|].
      cbn [e0 all_remaining]. rewrite Hlen. lia. }
    rewrite imap_cons. cbn [for_each fst snd].
    erewrite bind_ok by (by apply HstepB; [apply lookup_app_l_Some| |]).
    rewrite (imap_ext _ (fun i v =>
               ((length (map (value_of s) pre ++ [VPromise q]) + i)%nat, v)));
      cycle 1.
    { intros i z _. unfold compose. f_equal.
      rewrite length_app, length_map. simpl. lia. }
    apply HscanC.
    + cbn [eA all_env_with all_args]. by rewrite <- app_assoc.
    + done.
    + cbn [eA all_env_with all_remaining e0]. rewrite Hlen. lia.
  - cbn [set_allEnv latches sB set_heap sA s0]. fold l.
    by apply list_lookup_middle.
Qed.

Lemma run_task_with_callback (user_fn : UserFns) fuel self d r cb v s s1 :
  heap s !! self = Some r ->
  chosen_handler r d = Some cb ->
  call1 user_fn fuel cb (_value r) s = Ok v s1 ->
  run_task user_fn fuel (self, d) s = resolve user_fn fuel (promise d) v s1.
Proof.
  intros Hr Hcb Hcall. unfold run_task, chosen_handler in *.
  rewrite (bind_ok _ _ _ _ _ (get_promise_ok _ _ _ Hr)). cbv zeta.
  rewrite Hcb. unfold bind, tryCallOne, try_catch. by rewrite Hcall.
Qed.

(** X18: when the scheduler is idle (its queue is empty), [Promise.all]
    called with one pending promise (on which nothing waits yet) among
    inputs that are ready and fulfilled (values that are no thenables, and
    promises fulfilled with such values) returns a pending promise and
    schedules nothing.  When the pending input is later
    fulfilled with a value (no thenable), one turn of the scheduler fulfils
    the promise of [all] with the values of all the inputs in input order;
    when it is rejected, one turn rejects the promise of [all] with the
    same reason. *)
Theorem all_waits_for_pending_input (user_fn : UserFns) fuel fuel' pre q rq
    post s :
  Forall (ready_fulfilled s) pre ->
  Forall (ready_fulfilled s) post ->
  heap s !! q = Some rq ->
  _state rq = 0 ->
  _deferredState rq = 0 ->
  queue s = [] ->
  exists s1,
    Promise_all user_fn (S (S (S (S fuel)))) (pre ++ VPromise q :: post) s
    = Ok (length (heap s)) s1 /\
    heap s1 !! length (heap s) = Some (mkPromise 0 0 VNull DNull) /\
    queue s1 = [] /\
    (forall v, plain v = true ->
       exists s2,
         (resolve user_fn (S fuel') q v ;;;
          step user_fn (S (S (S (S fuel')))) ;;; ret tt) s1 = Ok tt s2 /\
         heap s2 !! length (heap s)
         = Some (mkPromise 0 1
                   (VArray (map (value_of s) pre ++
                            v :: map (value_of s) post)) DNull)) /\
    (forall reason,
       exists s2,
         (reject (S fuel') q reason ;;;
          step user_fn (S (S (S (S fuel')))) ;;; ret tt) s1 = Ok tt s2 /\
         heap s2 !! length (heap s) = Some (mkPromise 0 2 reason DNull)).
Proof.
  intros Hpre Hpost Hq Hst Hds Hqueue.
  assert (registrable rq = true) as Hreg
    by (unfold registrable, wf_deferreds; by rewrite Hds).
  exists (all_waiting_store s pre post q rq).
  split; [by apply Promise_all_pending_input|].
  set (p := length (heap s)). set (l := length (latches s)).
  set (env := length (allEnvs s)).
  set (rp := mkPromise 0 0 VNull DNull).
  set (w := mkHandler (Some (FnAllRes env (length pre)))
                      (Some (FnRejectCb l p)) (S p)).
  set (args := map (value_of s) pre ++ VPromise q :: map (value_of s) post).
  set (e := mkAllEnv args 1 (FnResolveCb l p) (FnRejectCb l p)).
  set (s1 := all_waiting_store s pre post q rq).
  pose proof (lookup_lt_Some _ _ _ Hq) as Hlt. fold p in Hlt.
  assert (heap s1 = <[q := register w rq]> (heap s ++ [rp; rp])) as Hh1
    by done.
  assert (heap s1 !! p = Some rp) as Hp1.
  { rewrite Hh1, list_lookup_insert_ne by lia. by apply list_lookup_middle. }
  assert (heap s1 !! S p = Some rp) as Hd1.
  { rewrite Hh1, list_lookup_insert_ne by lia.
    change (heap s ++ [rp; rp]) with (heap s ++ [rp] ++ [rp]).
    rewrite app_assoc. apply list_lookup_middle.
    rewrite length_app. cbn. fold p. lia. }
  assert (heap s1 !! q = Some (register w rq)) as Hq1.
  { rewrite Hh1. apply list_lookup_insert_eq. rewrite length_app. lia. }
  assert (queue s1 = []) as Hq0 by exact Hqueue.
  assert (waiters (register w rq) = [w]) as Hw.
  { rewrite waiters_register by done. by rewrite waiters_fresh. }
  assert (wf_deferreds (register w rq) = true) as Hwf.
  { by apply wf_deferreds_registrable, registrable_register. }
  assert (forall st u,
            st = 1 \/ st = 2 ->
            exists sR,
              settle_store st u q (register w rq) s1
              = mkState (heap sR) (latches sR) [(q, w)] (allEnvs sR)
                        (anyEnvs sR) /\
              queue sR = [] /\
              heap sR !! q = Some (settled st u (register w rq)) /\
              heap sR !! p = Some rp /\ heap sR !! S p = Some rp /\
              latches sR !! l = Some false /\
              allEnvs sR !! env = Some e) as Hsettle.
  { intros st u _.
    exists (mkState (<[q := settled st u (register w rq)]> (heap s1))
                    (latches s1) [] (allEnvs s1) (anyEnvs s1)).
    split; [|split; [done|split; [|split; [|split; [|split]]]]].
    - unfold settle_store. by rewrite Hw, Hq0.
    - cbn [heap]. apply list_lookup_insert_eq.
      by apply lookup_lt_Some in Hq1.
    - cbn [heap]. by rewrite list_lookup_insert_ne by lia.
    - cbn [heap]. by rewrite list_lookup_insert_ne by lia.
    - by apply list_lookup_middle.
    - by apply list_lookup_middle. }
  split; [done|]. split; [done|]. split.
  - intros v Hplain.
    destruct (Hsettle 1 v (or_introl eq_refl))
      as (sR & HsR & HqR & HqR1 & HpR & HdR & HlR & HeR).
    set (sR' := mkState (heap sR) (latches sR) [] (allEnvs sR) (anyEnvs sR)).
    set (sS := settle_store 1 (VArray (<[length pre := v]> args)) p rp
                 (set_latch l
                    (set_allEnv env
                       (all_env_with e (<[length pre := v]> args) 0) sR'))).
    exists (settle_store 1 VUndefined (S p) rp sS). split.
    + rewrite resolve_plain by done.
      erewrite bind_ok by (by apply fulfill_spec).
      rewrite HsR. unfold bind at 1, step at 1. cbn [queue].
      erewrite bind_ok; [reflexivity|].
      cbn [heap latches allEnvs anyEnvs]. fold sR'.
      rewrite (run_task_with_callback user_fn _ q w
                 (settled 1 v (register w rq)) (FnAllRes env (length pre))
                 VUndefined sR' sS); cycle 1.
      * done.
      * done.
      * cbn [call1]. erewrite bind_ok; [reflexivity|].
        cbn [settled _value].
        exact (all_res_store_last user_fn fuel' env e (length pre) v l p rp
                 sR' HeR Hplain eq_refl eq_refl HlR HpR eq_refl).
      * rewrite resolve_plain by done. cbn [promise w].
        apply fulfill_spec; [|done].
        cbn [sS settle_store heap set_latch set_allEnv].
        by rewrite list_lookup_insert_ne by lia.
    + cbn [settle_store heap]. rewrite list_lookup_insert_ne by lia.
      cbn [sS settle_store heap set_latch set_allEnv].
      rewrite list_lookup_insert_eq by (by apply lookup_lt_Some in HpR).
      cbn. do 3 f_equal. unfold args.
      rewrite insert_app_r_alt by (by rewrite length_map).
      by rewrite length_map, Nat.sub_diag.
  - intros reason.
    destruct (Hsettle 2 reason (or_intror eq_refl))
      as (sR & HsR & HqR & HqR1 & HpR & HdR & HlR & HeR).
    set (sR' := mkState (heap sR) (latches sR) [] (allEnvs sR) (anyEnvs sR)).
    set (sS := settle_store 2 reason p rp (set_latch l sR')).
    exists (settle_store 1 VUndefined (S p) rp sS). split.
    + erewrite bind_ok by (by apply reject_spec).
      rewrite HsR. unfold bind at 1, step at 1. cbn [queue].
      erewrite bind_ok; [reflexivity|].
      cbn [heap latches allEnvs anyEnvs]. fold sR'.
      rewrite (run_task_with_callback user_fn _ q w
                 (settled 2 reason (register w rq)) (FnRejectCb l p)
                 VUndefined sR' sS); cycle 1.
      * done.
      * done.
      * cbn [settled _value].
        exact (reject_callback_first user_fn _ l p reason rp sR' HlR HpR
                 eq_refl).
      * rewrite resolve_plain by done. cbn [promise w].
        apply fulfill_spec; [|done].
        cbn [sS settle_store heap set_latch].
        by rewrite list_lookup_insert_ne by lia.
    + cbn [settle_store heap]. rewrite list_lookup_insert_ne by lia.
      cbn [sS settle_store heap set_latch].
      by rewrite list_lookup_insert_eq by (by apply lookup_lt_Some in HpR).
Qed.

Lemma all_waits_for_pending_input_witness :
  exists s1,
    Promise_all sample_fn 4 [VNum 1; VPromise 1; VStr "z"] one_waiter_state
    = Ok 2%nat s1 /\
    heap s1 !! 2%nat = Some (mkPromise 0 0 VNull DNull) /\
    queue s1 = [] /\
    (forall v, plain v = true ->
       exists s2,
         (resolve sample_fn 1 1 v ;;; step sample_fn 4 ;;; ret tt) s1
         = Ok tt s2 /\
         heap s2 !! 2%nat
         = Some (mkPromise 0 1 (VArray [VNum 1; v; VStr "z"]) DNull)) /\
    (forall reason,
       exists s2,
         (reject 1 1 reason ;;; step sample_fn 4 ;;; ret tt) s1 = Ok tt s2 /\
         heap s2 !! 2%nat = Some (mkPromise 0 2 reason DNull)).
Proof.
  apply (all_waits_for_pending_input sample_fn 0 0 [VNum 1] 1
           (mkPromise 0 0 VNull DNull) [VStr "z"] one_waiter_state);
    try reflexivity.
  - apply Forall_cons. split; [reflexivity|apply Forall_nil_2].
  - apply Forall_cons. split; [reflexivity|apply Forall_nil_2].
Defined.

(** ** [Promise.all] and an input that is a thenable *)

(** The turn of the scheduler that runs the closure of the last awaited
    input of [all]. *)
Lemma all_last_delivery (user_fn : UserFns) fuel env e i l p d q rq s :
  queue s
  = [(q, mkHandler (Some (FnAllRes env i)) (Some (FnRejectCb l p)) d)] ->
  heap s !! q = Some rq ->
  _state rq = 1 \/ _state rq = 2 ->
  (_state rq = 1 -> plain (_value rq) = true) ->
  allEnvs s !! env = Some e ->
  all_remaining e = 1 ->
  all_resolve e = FnResolveCb l p ->
  latches s !! l = Some false ->
  heap s !! p = Some (mkPromise 0 0 VNull DNull) ->
  heap s !! d = Some (mkPromise 0 0 VNull DNull) ->
  d <> p ->
  exists s2,
    step user_fn (S (S (S (S fuel)))) s = Ok true s2 /\
    heap s2 !! p
    = Some (if _state rq =? 1
            then mkPromise 0 1 (VArray (<[i := _value rq]> (all_args e))) DNull
            else mkPromise 0 2 (_value rq) DNull).
Proof.
  intros Hqueue Hq Hst Hplain He Hrem Hres Hl Hp Hd Hne.
  set (rp := mkPromise 0 0 VNull DNull) in *.
  set (w := mkHandler (Some (FnAllRes env i)) (Some (FnRejectCb l p)) d) in *.
  set (s' := mkState (heap s) (latches s) [] (allEnvs s) (anyEnvs s)).
  unfold step. rewrite Hqueue. fold s'.
  destruct (Z.eqb_spec (_state rq) 1) as [E1|E1].
  - set (args := <[i := _value rq]> (all_args e)).
    set (sS := settle_store 1 (VArray args) p rp
                 (set_latch l
                    (set_allEnv env (all_env_with e args 0) s'))).
    exists (settle_store 1 VUndefined d rp sS). split.
    + erewrite bind_ok; [reflexivity|].
      rewrite (run_task_with_callback user_fn _ q w rq (FnAllRes env i)
                 VUndefined s' sS); cycle 1.
      * done.
      * unfold chosen_handler. by rewrite E1.
      * cbn [call1]. erewrite bind_ok; [reflexivity|].
        exact (all_res_store_last user_fn fuel env e i (_value rq) l p rp
                 s' He (Hplain E1) ltac:(lia) Hres Hl Hp eq_refl).
      * rewrite resolve_plain by done. cbn [promise w].
        apply fulfill_spec; [|done].
        cbn [sS settle_store heap set_latch set_allEnv s'].
        by rewrite list_lookup_insert_ne.
    + cbn [settle_store heap]. rewrite list_lookup_insert_ne by done.
      cbn [sS settle_store heap set_latch set_allEnv s'].
      by rewrite list_lookup_insert_eq by (by apply lookup_lt_Some in Hp).
  - assert (_state rq = 2) as E2 by (by destruct Hst).
    set (sS := settle_store 2 (_value rq) p rp (set_latch l s')).
    exists (settle_store 1 VUndefined d rp sS). split.
    + erewrite bind_ok; [reflexivity|].
      rewrite (run_task_with_callback user_fn _ q w rq (FnRejectCb l p)
                 VUndefined s' sS); cycle 1.
      * done.
      * unfold chosen_handler. by rewrite E2.
      * exact (reject_callback_first user_fn _ l p (_value rq) rp s' Hl Hp
                 eq_refl).
      * rewrite resolve_plain by done. cbn [promise w].
        apply fulfill_spec; [|done].
        cbn [sS settle_store heap set_latch s'].
        by rewrite list_lookup_insert_ne.
    + cbn [settle_store heap]. rewrite list_lookup_insert_ne by done.
      cbn [sS settle_store heap set_latch s'].
      by rewrite list_lookup_insert_eq by (by apply lookup_lt_Some in Hp).
Qed.

Lemma script_outcome_settles body st v :
  script_outcome body = Some (st, v) -> st = 1 \/ st = 2.
Proof.
  destruct body as [[|[u|u] calls] [ex|]]; cbn; intros [= <- _]; auto.
Qed.

(** [res] on an input that is a thenable whose [then] settles the promise
    made for it before it returns: the promise is settled, and the closure
    for it is scheduled. *)
Lemma all_res_thenable (user_fn : UserFns) fuel env i calls raises st v e s :
  allEnvs s !! env = Some e ->
  first_call_plain (calls, raises) = true ->
  script_outcome (calls, raises) = Some (st, v) ->
  all_res user_fn (S (S (S (S (S fuel))))) env i
          (VObject (ThenFn calls raises)) s
  = Ok tt (mkState
             (heap s ++ [mkPromise 0 st v DNull; mkPromise 0 0 VNull DNull])
             (latches s ++ [true])
             (queue s ++
                [(length (heap s),
                  mkHandler (Some (FnAllRes env i)) (Some (all_reject e))
                            (S (length (heap s))))])
             (allEnvs s) (anyEnvs s)).
Proof.
  intros He Hplain Hout.
  set (t := length (heap s)). set (rp := mkPromise 0 0 VNull DNull).
  set (s0 := set_heap (heap s ++ [rp]) s).
  set (sT := settle_store st v t rp
               (set_latch (length (latches s0)) (with_new_latch s0))).
  assert (heap sT !! t = Some (settled st v rp)) as Ht.
  { cbn [sT settle_store heap set_latch with_new_latch s0 set_heap].
    apply list_lookup_insert_eq. rewrite length_app. cbn. lia. }
  destruct (script_outcome_settles _ _ _ Hout) as [E|E].
  all: cbn [all_res];
    rewrite (bind_ok _ _ _ _ _ (get_allEnv_ok _ _ _ He)); cbv zeta;
    cbn [is_object_or_function]; unfold bind at 1; cbn [read_then ret];
    (erewrite bind_ok; cycle 1);
    [ unfold new_Promise; rewrite (bind_ok new_noop _ s _ _ eq_refl);
      fold t; fold rp; fold s0;
      (erewrite bind_ok; [reflexivity|]);
      rewrite (doResolve_script user_fn fuel (calls, raises) t rp s0
                 (lookup_alloc (heap s) rp) eq_refl Hplain);
      unfold after_script; rewrite Hout; reflexivity
    | fold sT;
      (erewrite bind_ok; [reflexivity|]);
      rewrite (then_settled _ t (settled st v rp) _ _ sT Ht);
        [|cbn; lia|cbn; lia];
      unfold then_settled_store, new_Handler;
      cbn [as_callable sT settle_store heap latches queue allEnvs anyEnvs
           set_latch with_new_latch s0 set_heap];
      rewrite (insert_alloc (heap s)), (insert_last (latches s));
      rewrite length_app; cbn [length waiters rp _deferredState Z.eqb map];
      rewrite app_nil_r, <- app_assoc, Nat.add_1_r; reflexivity ].
Qed.

(** X19: when the scheduler is idle (its queue is empty), [Promise.all]
    called with one thenable among inputs that are ready and fulfilled
    (values that are no thenables, and promises fulfilled with such values),
    where the [then] of the thenable calls a callback (or raises) before it
    returns, still returns a pending promise, with one closure scheduled;
    one turn of the scheduler later the promise of [all] is fulfilled with
    the values of all the inputs in input order when the thenable passed a
    value (no promise and no thenable), and rejected with its reason when
    it called [reject] or raised. *)
Theorem all_settles_thenable_input_a_turn_later (user_fn : UserFns)
    fuel fuel' pre calls raises st v post s :
  Forall (ready_fulfilled s) pre ->
  Forall (ready_fulfilled s) post ->
  first_call_plain (calls, raises) = true ->
  script_outcome (calls, raises) = Some (st, v) ->
  queue s = [] ->
  exists s1 s2,
    Promise_all user_fn (S (S (S (S (S (S (S fuel)))))))
                (pre ++ VObject (ThenFn calls raises) :: post) s
    = Ok (length (heap s)) s1 /\
    heap s1 !! length (heap s) = Some (mkPromise 0 0 VNull DNull) /\
    length (queue s1) = 1%nat /\
    step user_fn (S (S (S (S fuel')))) s1 = Ok true s2 /\
    heap s2 !! length (heap s)
    = Some (if st =? 1
            then mkPromise 0 1
                   (VArray (map (value_of s) pre ++
                            v :: map (value_of s) post)) DNull
            else mkPromise 0 2 v DNull).
Proof.
  intros Hpre Hpost Hplain Hout Hqueue.
  set (obj := VObject (ThenFn calls raises)).
  set (p := length (heap s)). set (l := length (latches s)).
  set (env := length (allEnvs s)).
  set (args := pre ++ obj :: post).
  set (rp := mkPromise 0 0 VNull DNull).
  set (e0 := mkAllEnv args (Z.of_nat (length args)) (FnResolveCb l p)
                      (FnRejectCb l p)).
  set (s0 := mkState (heap s ++ [rp]) (latches s ++ [false]) (queue s)
                     (allEnvs s ++ [e0]) (anyEnvs s)).
  assert (length args = S (length pre + length post)) as Hlen.
  { unfold args. rewrite length_app. simpl length. lia. }
  (* the inputs before the thenable *)
  destruct (Forall_ready_fulfilled_kept s s0 pre) as [Hpre0 Hvpre];
    [by intros k r Hk _; apply lookup_app_l_Some|done|].
  pose proof (all_scan_fulfilled_args user_fn (S (S (S fuel))) env pre []
                (obj :: post) s0 e0) as HscanA.
  rewrite Hvpre in HscanA. cbn [app length Nat.add] in HscanA.
  set (eA := all_env_with e0 (map (value_of s) pre ++ obj :: post)
                          (all_remaining e0 - Z.of_nat (length pre)))
    in HscanA.
  set (sA := set_allEnv env eA s0) in HscanA.
  assert (allEnvs sA !! env = Some eA) as HeA.
  { cbn [sA set_allEnv allEnvs s0]. apply list_lookup_insert_eq.
    rewrite length_app. cbn. lia. }
  (* the thenable *)
  pose proof (all_res_thenable user_fn fuel env (length pre + 0) calls raises
                st v eA sA HeA Hplain Hout) as HstepB.
  set (w := mkHandler (Some (FnAllRes env (length pre + 0)))
                      (Some (FnRejectCb l p)) (S (S p))).
  set (sB := mkState (heap sA ++ [mkPromise 0 st v DNull; rp])
                     (latches sA ++ [true]) (queue sA ++ [(S p, w)])
                     (allEnvs sA) (anyEnvs sA)).
  assert (length (heap sA) = S p) as HlenA.
  { cbn [sA set_allEnv heap s0]. rewrite length_app. cbn. fold p. lia. }
  rewrite HlenA in HstepB. change (Ok tt _) with (Ok tt sB) in HstepB.
  (* the inputs after the thenable *)
  destruct (Forall_ready_fulfilled_kept s sB post) as [HpostB Hvpost];
    [|done|].
  { intros k r Hk _. cbn [sB heap sA set_allEnv s0].
    by apply lookup_app_l_Some, lookup_app_l_Some. }
  pose proof (all_scan_fulfilled_args user_fn (S (S (S fuel))) env post
                (map (value_of s) pre ++ [obj]) [] sB eA HeA) as HscanC.
  rewrite Hvpost, !app_nil_r in HscanC.
  set (eC := all_env_with eA
               ((map (value_of s) pre ++ [obj]) ++ map (value_of s) post)
               (all_remaining eA - Z.of_nat (length post))) in HscanC.
  set (sC := set_allEnv env eC sB) in HscanC.
  assert (heap sC = (heap s ++ [rp]) ++ [mkPromise 0 st v DNull; rp]) as HhC
    by done.
  assert (heap sC !! p = Some rp) as HpC.
  { rewrite HhC. apply lookup_app_l_Some. exact (lookup_alloc (heap s) rp). }
  assert (heap sC !! S p = Some (mkPromise 0 st v DNull)) as HtC.
  { rewrite HhC. apply list_lookup_middle. rewrite length_app. cbn.
    fold p. lia. }
  assert (heap sC !! S (S p) = Some rp) as HdC.
  { rewrite HhC.
    change [mkPromise 0 st v DNull; rp] with ([mkPromise 0 st v DNull] ++ [rp]).
    rewrite app_assoc. apply list_lookup_middle. rewrite !length_app. cbn.
    fold p. lia. }
  assert (queue sC = [(S p, w)]) as HqC.
  { cbn [sC set_allEnv queue sB sA s0]. by rewrite Hqueue. }
  assert (latches sC !! l = Some false) as HlC.
  { cbn [sC set_allEnv latches sB sA s0].
    apply lookup_app_l_Some. by apply list_lookup_middle. }
  assert (allEnvs sC !! env = Some eC) as HeC.
  { cbn [sC set_allEnv allEnvs sB]. apply list_lookup_insert_eq.
    by apply lookup_lt_Some in HeA. }
  destruct (all_last_delivery user_fn fuel' env eC (length pre + 0) l p
              (S (S p)) (S p) (mkPromise 0 st v DNull) sC)
    as (s2 & Hstep & Hp2); try done.
  { exact (script_outcome_settles _ _ _ Hout). }
  { cbn [_state _value]. intros ->.
    destruct calls as [|[u|u] calls], raises; cbn in Hout, Hplain;
      by inversion Hout; subst. }
  { cbn [eC eA all_env_with all_remaining e0]. rewrite Hlen. lia. }
  { lia. }
  exists sC, s2. split; [|split; [done|split; [by rewrite HqC|split]]].
  - unfold Promise_all. eapply new_Promise_returns with (b := false).
    + cbn [call2]. fold p. fold l.
      destruct (Nat.eqb_spec (length args) 0) as [Hz|_]; [lia|].
      erewrite bind_ok by reflexivity. fold e0. fold rp. fold env.
      change (mkState _ _ _ _ _) with s0.
      unfold args. rewrite imap_app.
      erewrite for_each_app; cycle 1.
      { apply HscanA; [by apply list_lookup_middle|done|done|].
        cbn [e0 all_remaining]. rewrite Hlen. lia. }
      rewrite imap_cons. cbn [for_each fst snd].
      erewrite bind_ok by exact HstepB.
      rewrite (imap_ext _ (fun i u =>
                 ((length (map (value_of s) pre ++ [obj]) + i)%nat, u)));
        cycle 1.
      { intros i z _. unfold compose. f_equal.
        rewrite length_app, length_map. simpl. lia. }
      apply HscanC.
      * cbn [eA all_env_with all_args]. by rewrite <- app_assoc.
      * done.
      * cbn [eA all_env_with all_remaining e0]. rewrite Hlen. lia.
    + exact HlC.
  - exact Hstep.
  - rewrite Hp2. cbn [_state _value]. f_equal.
    destruct (st =? 1); [|done]. do 2 f_equal.
    cbn [eC all_env_with all_args]. rewrite <- app_assoc. cbn [app].
    rewrite Nat.add_0_r, insert_app_r_alt by (by rewrite length_map).
    by rewrite length_map, Nat.sub_diag.
Qed.

Lemma all_settles_thenable_input_a_turn_later_witness :
  exists s1 s2,
    Promise_all sample_fn 7
      [VNum 1; VObject (ThenFn [CallResolve (VNum 2)] None); VPromise TRUE]
      init_state
    = Ok 6%nat s1 /\
    heap s1 !! 6%nat = Some (mkPromise 0 0 VNull DNull) /\
    length (queue s1) = 1%nat /\
    step sample_fn 4 s1 = Ok true s2 /\
    heap s2 !! 6%nat
    = Some (mkPromise 0 1 (VArray [VNum 1; VNum 2; VBool true]) DNull).
Proof.
  apply (all_settles_thenable_input_a_turn_later sample_fn 0 0 [VNum 1]
           [CallResolve (VNum 2)] None 1 (VNum 2) [VPromise TRUE]
           init_state); try reflexivity.
  - apply Forall_cons. split; [reflexivity|apply Forall_nil_2].
  - apply Forall_cons. split; [|apply Forall_nil_2].
    exists (valuePromise_rec (VBool true)). by repeat split.
Defined.

(** ** [Promise.any] on promises that are settled *)

Lemma settled_promise_mono s s' ext q :
  heap s' = heap s ++ ext -> settled_promise s q -> settled_promise s' q.
Proof.
  intros Hh (r & Hq & Hst). exists r. split; [|done].
  rewrite Hh. by apply lookup_app_l_Some.
Qed.

(** The loop of [any] over promises that are settled: one closure each, in
    input order, and one new promise each. *)
Lemma any_scan_settled (user_fn : UserFns) fuel fuel' env :
  forall qs s,
    Forall (settled_promise s) qs ->
    for_each (fun value =>
                q <- Promise_resolve_with (doResolve user_fn fuel') value ;;
                then_ (S fuel) q (VFunction (FnAnyResolveOnce env))
                      (VFunction (FnAnyRejectionCheck env)) ;;; ret tt)
             (map VPromise qs) s
    = Ok tt (mkState
               (heap s ++ replicate (length qs) (mkPromise 0 0 VNull DNull))
               (latches s)
               (queue s ++ map (any_task env)
                               (with_derived (length (heap s)) qs))
               (allEnvs s) (anyEnvs s)).
Proof.
  induction qs as [|q qs IH]; intros s Hqs.
  - cbn. rewrite !app_nil_r. by destruct s.
  - apply Forall_cons in Hqs as [(r & Hq & Hst) Hqs].
    cbn [map for_each Promise_resolve_with].
    erewrite bind_ok; cycle 1.
    { erewrite bind_ok by reflexivity.
      erewrite bind_ok; [reflexivity|].
      apply then_settled with r; [done|lia|lia]. }
    rewrite IH; cycle 1.
    { eapply Forall_impl; [exact Hqs|]. intros y.
      by apply settled_promise_mono with [mkPromise 0 0 VNull DNull]. }
    unfold then_settled_store, new_Handler.
    cbn [heap latches queue allEnvs anyEnvs as_callable].
    rewrite length_app. cbn [length]. rewrite Nat.add_1_r, <- !app_assoc.
    assert (map (any_task env) (with_derived (length (heap s)) (q :: qs))
            = [(q, mkHandler (Some (FnAnyResolveOnce env))
                             (Some (FnAnyRejectionCheck env))
                             (length (heap s)))] ++
              map (any_task env) (with_derived (S (length (heap s))) qs))
      as ->; [|done].
    unfold with_derived. rewrite imap_cons. cbn [map app].
    unfold any_task at 1. cbn [fst snd]. rewrite Nat.add_0_r.
    do 2 f_equal. apply imap_ext. intros i z _. unfold compose. f_equal. lia.
Qed.

Lemma Promise_any_settled (user_fn : UserFns) fuel qs s :
  qs <> [] ->
  Forall (settled_promise s) qs ->
  Promise_any user_fn (S (S fuel)) (map VPromise qs) s
  = Ok (length (heap s)) (any_waiting_store s qs).
Proof.
  intros Hne Hqs. unfold Promise_any.
  eapply new_Promise_returns with (b := false).
  - cbn [call2]. rewrite length_map.
    erewrite bind_ok by reflexivity.
    destruct (Nat.eqb_spec (length qs) 0) as [Hz|_]; [by destruct qs|].
    rewrite any_scan_settled; cycle 1.
    { eapply Forall_impl; [exact Hqs|]. intros y.
      by apply settled_promise_mono with [mkPromise 0 0 VNull DNull]. }
    unfold any_waiting_store.
    cbn [heap latches queue allEnvs anyEnvs with_new_latch set_heap].
    rewrite <- app_assoc, length_app. cbn [app length].
    by rewrite Nat.add_1_r.
  - cbn [any_waiting_store latches]. by apply list_lookup_middle.
Qed.

(** The turn of the scheduler for a rejected input of [any] that is not the
    last one awaited: the reason is recorded. *)
Lemma step_any_rejection (user_fn : UserFns) fuel env q d rq rd e rest s :
  queue s = any_task env (q, d) :: rest ->
  heap s !! q = Some rq ->
  _state rq = 2 ->
  anyEnvs s !! env = Some e ->
  length (any_rejectionReasons e ++ [_value rq]) <> any_length e ->
  heap s !! d = Some rd ->
  _deferredState rd = 0 ->
  step user_fn (S fuel) s
  = Ok true
       (mkState (<[d := settled 1 VUndefined rd]> (heap s)) (latches s) rest
                (allEnvs s)
                (<[env := any_env_with e
                            (any_rejectionReasons e ++ [_value rq])]>
                   (anyEnvs s))).
Proof.
  intros Hqueue Hq Hst He Hlen Hd Hds.
  unfold any_task in Hqueue. cbn [fst snd] in Hqueue.
  unfold step. rewrite Hqueue.
  set (s' := mkState (heap s) (latches s) rest (allEnvs s) (anyEnvs s)).
  erewrite bind_ok; [reflexivity|].
  erewrite (run_task_with_callback user_fn (S fuel) q _ rq
              (FnAnyRejectionCheck env) VUndefined s'); cycle 1.
  - done.
  - unfold chosen_handler. by rewrite Hst.
  - by apply rejectionCheck_not_last.
  - rewrite resolve_plain by done. cbn [promise snd].
    erewrite fulfill_spec; [|exact Hd|by apply wf_deferreds_fresh].
    unfold settle_store. cbn [heap latches queue allEnvs anyEnvs s'].
    by rewrite waiters_fresh, app_nil_r.
Qed.

(** The turns of the scheduler for rejected inputs of [any], as long as
    more inputs are awaited than closures run. *)
Lemma run_any_rejections (user_fn : UserFns) fuel env p rest :
  forall ts s e,
    queue s = map (any_task env) ts ++ rest ->
    anyEnvs s !! env = Some e ->
    (length (any_rejectionReasons e) + length ts < any_length e)%nat ->
    Forall (fun qd =>
              (fst qd < p)%nat /\ (p < snd qd)%nat /\
              (exists r, heap s !! fst qd = Some r /\ _state r = 2) /\
              (exists rd, heap s !! snd qd = Some rd /\
                          _deferredState rd = 0)) ts ->
    exists s',
      (forall m, run user_fn (S fuel) (length ts + m) s
                 = run user_fn (S fuel) m s') /\
      queue s' = rest /\ latches s' = latches s /\
      anyEnvs s'
      = <[env := any_env_with e
                   (any_rejectionReasons e ++
                    map (fun qd => value_of s (VPromise (fst qd))) ts)]>
          (anyEnvs s) /\
      (forall k, (k <= p)%nat -> heap s' !! k = heap s !! k) /\
      (forall k rd,
         heap s !! k = Some rd -> _deferredState rd = 0 ->
         exists rd', heap s' !! k = Some rd' /\ _deferredState rd' = 0).
Proof.
  induction ts as [|[q d] ts IH]; intros s e Hqueue He Hlen Hts.
  - exists s. split; [done|]. split; [done|]. split; [done|].
    split; [|split; [done|by eauto]].
    cbn [map]. rewrite app_nil_r.
    replace (any_env_with e (any_rejectionReasons e)) with e
      by (by destruct e).
    by rewrite list_insert_id.
  - apply Forall_cons in Hts
      as [(Hqp & Hpd & (rq & Hq & Hst) & (rd & Hd & Hds)) Hts].
    cbn [fst snd] in *. simpl length in Hlen.
    pose proof (step_any_rejection user_fn fuel env q d rq rd e
                  (map (any_task env) ts ++ rest) s Hqueue Hq Hst He)
      as Hstep.
    set (e1 := any_env_with e (any_rejectionReasons e ++ [_value rq]))
      in Hstep.
    set (s1 := mkState (<[d := settled 1 VUndefined rd]> (heap s)) (latches s)
                       (map (any_task env) ts ++ rest) (allEnvs s)
                       (<[env := e1]> (anyEnvs s))) in Hstep.
    specialize (Hstep ltac:(rewrite length_app; cbn; lia) Hd Hds).
    destruct (IH s1 e1) as (s' & Hrun & Hq' & Hl' & He' & Hlow & Hfresh).
    + done.
    + cbn [s1 anyEnvs]. apply list_lookup_insert_eq.
      by apply lookup_lt_Some in He.
    + cbn [e1 any_env_with any_rejectionReasons any_length].
      rewrite length_app. cbn. lia.
    + eapply Forall_impl; [exact Hts|].
      intros [q' d'] (Hq'p & Hpd' & (r' & Hr' & Hst') & (rd' & Hd' & Hds')).
      cbn [fst snd] in *. repeat split; try done.
      * exists r'. split; [|done]. cbn [s1 heap].
        by rewrite list_lookup_insert_ne by lia.
      * cbn [s1 heap]. destruct (decide (d' = d)) as [->|Hn].
        -- exists (settled 1 VUndefined rd). split; [|done].
           apply list_lookup_insert_eq. by apply lookup_lt_Some in Hd.
        -- exists rd'. split; [|done]. by rewrite list_lookup_insert_ne.
    + exists s'. split; [|split; [done|split; [done|split; [|split]]]].
      * intros m. cbn [length Nat.add run].
        unfold bind at 1. rewrite Hstep. apply Hrun.
      * rewrite He'. cbn [s1 anyEnvs e1 any_env_with any_rejectionReasons
                          any_length any_hasResolved any_resolve any_reject].
        rewrite list_insert_insert_eq. do 2 f_equal.
        rewrite <- app_assoc. cbn [app map]. do 2 f_equal.
        -- cbn [value_of fst]. by rewrite Hq.
        -- apply Forall_fmap_ext_1. eapply Forall_impl; [exact Hts|].
           intros [q' d'] (Hq'p & Hpd' & _).
           cbn [fst snd value_of s1 heap] in *.
           by rewrite list_lookup_insert_ne by lia.
      * intros k Hk. rewrite Hlow by done. cbn [s1 heap].
        by rewrite list_lookup_insert_ne by lia.
      * intros k rk Hk Hdk.
        destruct (decide (k = d)) as [->|Hn].
        -- apply (Hfresh d (settled 1 VUndefined rd)); [|done].
           cbn [s1 heap]. apply list_lookup_insert_eq.
           by apply lookup_lt_Some in Hd.
        -- apply (Hfresh k rk); [|done].
           cbn [s1 heap]. by rewrite list_lookup_insert_ne.
Qed.

(** The turn of the scheduler for the last awaited rejection: the promise
    of [any] is rejected with the aggregate of the reasons. *)
Lemma step_any_last_rejection (user_fn : UserFns) fuel env l p q d rq rd rp e
    rest s :
  queue s = any_task env (q, d) :: rest ->
  heap s !! q = Some rq ->
  _state rq = 2 ->
  anyEnvs s !! env = Some e ->
  length (any_rejectionReasons e ++ [_value rq]) = any_length e ->
  any_reject e = FnRejectCb l p ->
  latches s !! l = Some false ->
  heap s !! p = Some rp ->
  _deferredState rp = 0 ->
  heap s !! d = Some rd ->
  _deferredState rd = 0 ->
  d <> p ->
  exists s',
    step user_fn (S (S fuel)) s = Ok true s' /\
    queue s' = rest /\
    heap s' !! p
    = Some (settled 2 (getAggregateError
                         (any_rejectionReasons e ++ [_value rq])) rp).
Proof.
  intros Hqueue Hq Hst He Hlen Hrej Hl Hp Hdp Hd Hds Hne.
  unfold any_task in Hqueue. cbn [fst snd] in Hqueue.
  set (s0 := mkState (heap s) (latches s) rest (allEnvs s) (anyEnvs s)).
  set (s1 := any_all_rejected_store env l p e rp
               (any_rejectionReasons e ++ [_value rq]) s0).
  exists (settle_store 1 VUndefined d rd s1). split; [|split].
  - unfold step. rewrite Hqueue. fold s0.
    erewrite bind_ok; [reflexivity|].
    erewrite (run_task_with_callback user_fn (S (S fuel)) q _ rq
                (FnAnyRejectionCheck env) VUndefined s0 s1); cycle 1.
    + done.
    + unfold chosen_handler. by rewrite Hst.
    + apply rejectionCheck_last; try done. by apply wf_deferreds_fresh.
    + rewrite resolve_plain by done. cbn [promise].
      apply fulfill_spec; [|by apply wf_deferreds_fresh].
      cbn [s1 any_all_rejected_store settle_store heap set_latch s0].
      by rewrite list_lookup_insert_ne.
  - cbn [settle_store queue s1 any_all_rejected_store set_latch s0].
    by rewrite !waiters_fresh, !app_nil_r.
  - cbn [settle_store heap]. rewrite list_lookup_insert_ne by done.
    cbn [s1 any_all_rejected_store settle_store heap set_latch s0].
    apply list_lookup_insert_eq. by apply lookup_lt_Some in Hp.
Qed.

(** The turn of the scheduler for the first fulfilled input of [any]: the
    promise of [any] is fulfilled with its value. *)
Lemma step_any_fulfilment (user_fn : UserFns) fuel env l p q d rq rd rp e
    rest s :
  queue s = any_task env (q, d) :: rest ->
  heap s !! q = Some rq ->
  _state rq = 1 ->
  plain (_value rq) = true ->
  anyEnvs s !! env = Some e ->
  any_hasResolved e = false ->
  any_resolve e = FnResolveCb l p ->
  any_reject e = FnRejectCb l p ->
  latches s !! l = Some false ->
  heap s !! p = Some rp ->
  _deferredState rp = 0 ->
  heap s !! d = Some rd ->
  _deferredState rd = 0 ->
  d <> p ->
  exists s',
    step user_fn (S (S (S fuel))) s = Ok true s' /\
    queue s' = rest /\
    heap s' !! p = Some (settled 1 (_value rq) rp) /\
    any_resolved env l p s' /\
    heap s' = <[d := settled 1 VUndefined rd]>
                (<[p := settled 1 (_value rq) rp]> (heap s)).
Proof.
  intros Hqueue Hq Hst Hplain He Hres Hresolve Hreject Hl Hp Hdp Hd Hds Hne.
  unfold any_task in Hqueue. cbn [fst snd] in Hqueue.
  set (s0 := mkState (heap s) (latches s) rest (allEnvs s) (anyEnvs s)).
  set (e' := mkAnyEnv (any_length e) true (any_rejectionReasons e)
                      (any_resolve e) (any_reject e)).
  set (s1 := settle_store 1 (_value rq) p rp
               (set_latch l
                  (mkState (heap s0) (latches s0) (queue s0) (allEnvs s0)
                           (<[env := e']> (anyEnvs s0))))).
  exists (settle_store 1 VUndefined d rd s1).
  split; [|split; [|split; [|split]]].
  - unfold step. rewrite Hqueue. fold s0.
    erewrite bind_ok; [reflexivity|].
    erewrite (run_task_with_callback user_fn (S (S (S fuel))) q _ rq
                (FnAnyResolveOnce env) VUndefined s0 s1); cycle 1.
    + done.
    + unfold chosen_handler. by rewrite Hst.
    + cbn [call1].
      rewrite (bind_ok _ _ _ _ _ (get_anyEnv_ok env e s0 He)). rewrite Hres.
      rewrite (bind_ok (put_anyEnv env e') _ s0 _ _ eq_refl).
      erewrite bind_ok; [reflexivity|]. rewrite Hresolve.
      apply resolve_callback_first; try done.
      by apply wf_deferreds_fresh.
    + rewrite resolve_plain by done. cbn [promise].
      apply fulfill_spec; [|by apply wf_deferreds_fresh].
      cbn [s1 settle_store heap set_latch s0].
      by rewrite list_lookup_insert_ne.
  - cbn [settle_store queue s1 set_latch s0].
    by rewrite !waiters_fresh, !app_nil_r.
  - cbn [settle_store heap]. rewrite list_lookup_insert_ne by done.
    cbn [s1 settle_store heap set_latch s0].
    apply list_lookup_insert_eq. by apply lookup_lt_Some in Hp.
  - exists e'. split; [|split; [done|split; [done|]]].
    + cbn [settle_store anyEnvs s1 set_latch s0].
      apply list_lookup_insert_eq. by apply lookup_lt_Some in He.
    + unfold latched. cbn [settle_store latches s1 set_latch s0].
      apply list_lookup_insert_eq. by apply lookup_lt_Some in Hl.
  - done.
Qed.

(** Once [any] has passed a value on, its two helper functions change
    neither a promise nor the queue. *)
Lemma any_helper_resolved (user_fn : UserFns) fuel env l p (b : bool) a s :
  any_resolved env l p s ->
  exists s',
    call1 user_fn (S fuel)
          (if b then FnAnyResolveOnce env else FnAnyRejectionCheck env) a s
    = Ok VUndefined s' /\
    heap s' = heap s /\ queue s' = queue s /\ any_resolved env l p s'.
Proof.
  intros (e & He & Hres & Hrej & Hl). destruct b.
  - exists s. split; [|by repeat split; try exists e].
    cbn [call1].
    rewrite (bind_ok _ _ _ _ _ (get_anyEnv_ok _ _ _ He)). by rewrite Hres.
  - set (e' := mkAnyEnv (any_length e) (any_hasResolved e)
                        (any_rejectionReasons e ++ [a]) (any_resolve e)
                        (any_reject e)).
    set (s' := mkState (heap s) (latches s) (queue s) (allEnvs s)
                       (<[env := e']> (anyEnvs s))).
    assert (latched l s') as Hl' by exact Hl.
    exists s'. split; [|repeat split].
    + cbn [call1].
      rewrite (bind_ok _ _ _ _ _ (get_anyEnv_ok _ _ _ He)). cbv zeta.
      rewrite (bind_ok (put_anyEnv env e') _ s _ _ eq_refl). fold s'.
      erewrite bind_ok; [reflexivity|].
      destruct (_ =? _)%nat; [|done].
      erewrite bind_ok; [reflexivity|]. rewrite Hrej.
      exact (completion_callback_ignored user_fn fuel false l p _ s' Hl').
    + exists e'. split; [|done].
      cbn [s' anyEnvs]. apply list_lookup_insert_eq.
      by apply lookup_lt_Some in He.
Qed.

(** The turns of the scheduler after [any] has passed a value on leave the
    promise of [any] as it is. *)
Lemma run_any_resolved (user_fn : UserFns) fuel env l p rp :
  forall n ts s,
    any_resolved env l p s ->
    queue s = map (any_task env) ts ->
    Forall (fun qd =>
              settled_promise s (fst qd) /\ snd qd <> p /\
              (exists rd, heap s !! snd qd = Some rd /\
                          _deferredState rd = 0)) ts ->
    heap s !! p = Some rp ->
    exists s',
      run user_fn (S fuel) n s = Ok tt s' /\ heap s' !! p = Some rp.
Proof.
  induction n as [|n IH]; intros ts s Hs Hqueue Hts Hp; [by exists s|].
  cbn [run]. unfold bind at 1, step. rewrite Hqueue.
  destruct ts as [|[q d] ts]; [by exists s|].
  apply Forall_cons in Hts
    as [((rq & Hq & Hst) & Hne & (rd & Hd & Hds)) Hts].
  cbn [fst snd map any_task] in *.
  set (s0 := mkState (heap s) (latches s) (map (any_task env) ts) (allEnvs s)
                     (anyEnvs s)).
  destruct (any_helper_resolved user_fn fuel env l p (_state rq =? 1)
              (_value rq) s0 Hs) as (s1 & Hcall & Hh1 & Hq1 & Hs1).
  assert (run_task user_fn (S fuel)
            (q, mkHandler (Some (FnAnyResolveOnce env))
                          (Some (FnAnyRejectionCheck env)) d) s0
          = Ok tt (settle_store 1 VUndefined d rd s1)) as Hrun.
  { erewrite (run_task_with_callback user_fn (S fuel) q _ rq
                (if _state rq =? 1 then FnAnyResolveOnce env
                 else FnAnyRejectionCheck env) VUndefined s0 s1); cycle 1.
    - done.
    - unfold chosen_handler. cbn [onFulfilled onRejected].
      by destruct (_state rq =? 1).
    - exact Hcall.
    - rewrite resolve_plain by done. cbn [promise].
      apply fulfill_spec; [by rewrite Hh1|by apply wf_deferreds_fresh]. }
  rewrite (bind_ok _ _ _ _ _ Hrun). cbn [ret].
  apply (IH ts).
  - destruct Hs1 as (e & He & Hres & Hrej & Hl). by exists e.
  - cbn [settle_store queue]. by rewrite Hq1, waiters_fresh, app_nil_r.
  - eapply Forall_impl; [exact Hts|].
    intros [q' d'] ((r' & Hr' & Hst') & Hne' & (rd' & Hd' & Hds')).
    unfold settled_promise. cbn [fst snd settle_store heap] in *.
    rewrite Hh1. cbn [s0 heap].
    split; [|split; [done|]].
    + destruct (decide (q' = d)) as [->|Hn].
      * exists (settled 1 VUndefined rd). split; [|by left].
        apply list_lookup_insert_eq. by apply lookup_lt_Some in Hd.
      * exists r'. split; [|done]. by rewrite list_lookup_insert_ne.
    + destruct (decide (d' = d)) as [->|Hn].
      * exists (settled 1 VUndefined rd). split; [|done].
        apply list_lookup_insert_eq. by apply lookup_lt_Some in Hd.
      * exists rd'. split; [|done]. by rewrite list_lookup_insert_ne.
  - cbn [settle_store heap]. rewrite Hh1. cbn [s0 heap].
    by rewrite list_lookup_insert_ne.
Qed.

Lemma run_empty_queue (user_fn : UserFns) fuel n s :
  queue s = [] -> run user_fn fuel n s = Ok tt s.
Proof.
  intros Hq. destruct n; [done|]. cbn [run]. unfold bind, step.
  by rewrite Hq.
Qed.

Lemma Forall_with_derived (P : nat * nat -> Prop) base xs :
  (forall i q, xs !! i = Some q -> P (q, (base + i)%nat)) ->
  Forall P (with_derived base xs).
Proof.
  intros HP. apply Forall_forall. intros x Hx.
  apply elem_of_lookup_imap_1 in Hx as (i & q & -> & Hq). by apply HP.
Qed.

Lemma map_fst_with_derived xs : forall base,
  map fst (with_derived base xs) = xs.
Proof.
  unfold with_derived. induction xs as [|x xs IH]; intros base; [done|].
  rewrite imap_cons. cbn [map fst]. f_equal.
  rewrite <- (IH (S base)) at 2. f_equal. apply imap_ext.
  intros i z _. unfold compose. f_equal. lia.
Qed.

Lemma with_derived_app base xs ys :
  with_derived base (xs ++ ys)
  = with_derived base xs ++ with_derived (base + length xs) ys.
Proof.
  unfold with_derived. rewrite imap_app. f_equal. apply imap_ext.
  intros i z _. f_equal. lia.
Qed.

Lemma length_with_derived base xs : length (with_derived base xs) = length xs.
Proof. apply length_imap. Qed.

(** The promises of the store of [any_waiting_store]. *)
Lemma any_waiting_store_old s qs k r :
  heap s !! k = Some r -> heap (any_waiting_store s qs) !! k = Some r.
Proof. intros Hk. by apply lookup_app_l_Some. Qed.

Lemma any_waiting_store_new s qs i :
  (i <= length qs)%nat ->
  heap (any_waiting_store s qs) !! (length (heap s) + i)%nat
  = Some (mkPromise 0 0 VNull DNull).
Proof.
  intros Hi. cbn [any_waiting_store heap].
  rewrite lookup_app_r by lia.
  replace (length (heap s) + i - length (heap s))%nat with i by lia.
  change (mkPromise 0 0 VNull DNull :: replicate (length qs) _)
    with (replicate (S (length qs)) (mkPromise 0 0 VNull DNull)).
  apply lookup_replicate_2. lia.
Qed.

(** The turns of the scheduler for the rejected inputs of [any] that come
    before an input [q]. *)
Lemma any_rejected_prefix (user_fn : UserFns) fuel pre q post s :
  Forall (fun q => exists r, heap s !! q = Some r /\ _state r = 2) pre ->
  queue s = [] ->
  exists s1,
    (forall m,
       run user_fn (S fuel) (length pre + m)
           (any_waiting_store s (pre ++ q :: post))
       = run user_fn (S fuel) m s1) /\
    queue s1
    = any_task (length (anyEnvs s)) (q, (S (length (heap s)) + length pre)%nat)
      :: map (any_task (length (anyEnvs s)))
             (with_derived (S (length (heap s)) + S (length pre)) post) /\
    latches s1 !! length (latches s) = Some false /\
    anyEnvs s1 !! length (anyEnvs s)
    = Some (mkAnyEnv (length (pre ++ q :: post)) false
              (map (fun q => value_of s (VPromise q)) pre)
              (FnResolveCb (length (latches s)) (length (heap s)))
              (FnRejectCb (length (latches s)) (length (heap s)))) /\
    (forall k r, heap s !! k = Some r -> heap s1 !! k = Some r) /\
    heap s1 !! length (heap s) = Some (mkPromise 0 0 VNull DNull) /\
    (forall i, (i < length (pre ++ q :: post))%nat ->
       exists rd, heap s1 !! (S (length (heap s)) + i)%nat = Some rd /\
                  _deferredState rd = 0).
Proof.
  intros Hpre Hqueue.
  set (qs := pre ++ q :: post). set (p := length (heap s)).
  set (l := length (latches s)). set (env := length (anyEnvs s)).
  set (sA := any_waiting_store s qs).
  set (e0 := mkAnyEnv (length qs) false [] (FnResolveCb l p) (FnRejectCb l p)).
  assert (length qs = S (length pre + length post)) as Hlen.
  { unfold qs. rewrite length_app. simpl length. lia. }
  assert (queue sA
          = map (any_task env) (with_derived (S p) pre) ++
            any_task env (q, (S p + length pre)%nat)
            :: map (any_task env)
                   (with_derived (S p + S (length pre)) post)) as HqA.
  { cbn [sA any_waiting_store queue]. rewrite Hqueue. cbn [app].
    fold p env. unfold qs. rewrite with_derived_app, map_app. f_equal.
    unfold with_derived at 1. rewrite imap_cons. cbn [map]. f_equal.
    - by rewrite Nat.add_0_r.
    - f_equal. apply imap_ext. intros i z _. unfold compose. f_equal. lia. }
  destruct (run_any_rejections user_fn fuel env p
              (any_task env (q, (S p + length pre)%nat)
               :: map (any_task env)
                      (with_derived (S p + S (length pre)) post))
              (with_derived (S p) pre) sA e0)
    as (s1 & Hrun & Hq1 & Hl1 & He1 & Hlow & Hfresh).
  - exact HqA.
  - by apply list_lookup_middle.
  - cbn [e0 any_rejectionReasons any_length length].
    rewrite length_with_derived. lia.
  - apply Forall_with_derived. intros i x Hx.
    destruct (proj1 (Forall_lookup _ _) Hpre i x Hx) as (r & Hr & Hst).
    pose proof (lookup_lt_Some _ _ _ Hr) as Hlt.
    pose proof (lookup_lt_Some _ _ _ Hx) as Hi. fold p in Hlt.
    cbn [fst snd]. split; [done|]. split; [lia|]. split.
    + exists r. split; [|done]. by apply any_waiting_store_old.
    + exists (mkPromise 0 0 VNull DNull). split; [|done].
      replace (S p + i)%nat with (p + S i)%nat by lia.
      apply any_waiting_store_new. lia.
  - exists s1. split; [|split; [done|split; [|split; [|split; [|split]]]]].
    + intros m. rewrite <- Hrun. by rewrite length_with_derived.
    + rewrite Hl1. by apply list_lookup_middle.
    + rewrite He1. fold env.
      rewrite list_lookup_insert_eq; cycle 1.
      { cbn [sA any_waiting_store anyEnvs]. rewrite length_app. cbn.
        fold env. lia. }
      f_equal. unfold any_env_with.
      cbn [e0 any_length any_hasResolved any_rejectionReasons any_resolve
           any_reject app].
      f_equal.
      rewrite <- (map_fst_with_derived pre (S p)) at 2.
      rewrite map_map. apply Forall_fmap_ext_1.
      apply Forall_with_derived. intros i x Hx. cbn [fst].
      destruct (proj1 (Forall_lookup _ _) Hpre i x Hx) as (r & Hr & Hst).
      cbn [value_of]. unfold sA.
      by rewrite (any_waiting_store_old s qs x r Hr), Hr.
    + intros k r Hk. rewrite Hlow.
      * by apply any_waiting_store_old.
      * apply lookup_lt_Some in Hk. fold p in Hk. lia.
    + rewrite Hlow by lia.
      pose proof (any_waiting_store_new s qs 0 ltac:(lia)) as H0.
      by rewrite Nat.add_0_r in H0.
    + intros i Hi.
      apply (Hfresh (S p + i)%nat (mkPromise 0 0 VNull DNull)); [|done].
      replace (S p + i)%nat with (p + S i)%nat by lia.
      apply any_waiting_store_new. fold qs. lia.
Qed.

(** X20: when the scheduler is idle (its queue is empty), [Promise.any]
    called with promises that are all rejected already (at least one)
    returns a promise which, once the scheduler has run as many turns as
    there are inputs, is rejected with the aggregate error that lists the
    reasons in input order; further turns change nothing. *)
Theorem any_of_rejected_promises_aggregates_in_input_order
    (user_fn : UserFns) fuel fuel' n qs s :
  qs <> [] ->
  Forall (fun q => exists r, heap s !! q = Some r /\ _state r = 2) qs ->
  queue s = [] ->
  exists s',
    (p <- Promise_any user_fn (S (S fuel)) (map VPromise qs) ;;
     run user_fn (S (S fuel')) (length qs + n) ;;; ret p) s
    = Ok (length (heap s)) s' /\
    heap s' !! length (heap s)
    = Some (mkPromise 0 2
              (getAggregateError (map (fun q => value_of s (VPromise q)) qs))
              DNull).
Proof.
  intros Hne Hall Hqueue.
  assert (Forall (settled_promise s) qs) as Hsettled.
  { eapply Forall_impl; [exact Hall|]. intros q (r & Hr & Hst).
    exists r. split; [done|by right]. }
  rewrite (bind_ok _ _ _ _ _ (Promise_any_settled user_fn fuel qs s Hne
                                Hsettled)).
  destruct (exists_last Hne) as (init & ql & ->).
  apply Forall_app in Hall as [Hinit Hql].
  apply Forall_singleton in Hql as (rq & Hq & Hst).
  destruct (any_rejected_prefix user_fn (S fuel') init ql [] s Hinit Hqueue)
    as (s1 & Hrun & Hq1 & Hl1 & He1 & Hold & Hp1 & Hnew).
  destruct (Hnew (length init)) as (rd & Hd & Hds).
  { rewrite length_app. cbn. lia. }
  destruct (step_any_last_rejection user_fn fuel' (length (anyEnvs s))
              (length (latches s)) (length (heap s)) ql
              (S (length (heap s)) + length init) rq rd
              (mkPromise 0 0 VNull DNull) _ [] s1 Hq1 (Hold _ _ Hq) Hst He1)
    as (s2 & Hstep & Hq2 & Hp2); try done.
  { cbn [any_rejectionReasons any_length].
    rewrite !length_app, length_map. reflexivity. }
  { lia. }
  exists s2. split.
  - erewrite bind_ok; [reflexivity|].
    rewrite length_app. cbn [length].
    replace (length init + 1 + n)%nat with (length init + S n)%nat by lia.
    rewrite Hrun. cbn [run]. unfold bind at 1. rewrite Hstep.
    by apply run_empty_queue.
  - rewrite Hp2. cbn [any_rejectionReasons]. rewrite map_app. cbn [map].
    cbn [value_of]. by rewrite Hq.
Qed.

Lemma any_of_rejected_promises_aggregates_in_input_order_witness :
  exists s',
    (p <- Promise_any sample_fn 2 (map VPromise [1; 0]%nat) ;;
     run sample_fn 2 2 ;;; ret p) two_rejected_state
    = Ok 2%nat s' /\
    heap s' !! 2%nat
    = Some (mkPromise 0 2 (getAggregateError [VStr "a"; VStr "b"]) DNull).
Proof.
  apply (any_of_rejected_promises_aggregates_in_input_order sample_fn 0 0 0
           [1; 0]%nat two_rejected_state); [done| |reflexivity].
  apply Forall_cons. split; [by eexists|].
  apply Forall_cons. split; [by eexists|apply Forall_nil_2].
Defined.

(** X21: when the scheduler is idle (its queue is empty), [Promise.any]
    called with settled promises of which one is fulfilled (with a value
    that is no promise and no thenable) and those before it are rejected
    returns a promise which is fulfilled with the value of that input once
    the scheduler has run one turn for it and for each input before it; the
    turns for the inputs after it, whatever their outcomes, leave it as it
    is. *)
Theorem any_of_settled_promises_takes_first_fulfilled (user_fn : UserFns)
    fuel fuel' n pre q rq post s :
  Forall (fun q => exists r, heap s !! q = Some r /\ _state r = 2) pre ->
  heap s !! q = Some rq ->
  _state rq = 1 ->
  plain (_value rq) = true ->
  Forall (settled_promise s) post ->
  queue s = [] ->
  exists s',
    (p <- Promise_any user_fn (S (S fuel))
                      (map VPromise (pre ++ q :: post)) ;;
     run user_fn (S (S (S fuel'))) (length pre + S n) ;;; ret p) s
    = Ok (length (heap s)) s' /\
    heap s' !! length (heap s) = Some (mkPromise 0 1 (_value rq) DNull).
Proof.
  intros Hpre Hq Hst Hplain Hpost Hqueue.
  set (p := length (heap s)). set (l := length (latches s)).
  set (env := length (anyEnvs s)).
  assert (Forall (settled_promise s) (pre ++ q :: post)) as Hsettled.
  { apply Forall_app. split.
    - eapply Forall_impl; [exact Hpre|]. intros x (r & Hr & Hr2).
      exists r. split; [done|by right].
    - apply Forall_cons. split; [|done]. exists rq. split; [done|by left]. }
  assert (pre ++ q :: post <> []) as Hne by (by destruct pre).
  rewrite (bind_ok _ _ _ _ _ (Promise_any_settled user_fn fuel _ s Hne
                                Hsettled)).
  destruct (any_rejected_prefix user_fn (S (S fuel')) pre q post s Hpre
              Hqueue)
    as (s1 & Hrun & Hq1 & Hl1 & He1 & Hold & Hp1 & Hnew).
  fold p l env in Hrun, Hq1, Hl1, He1, Hp1, Hnew.
  destruct (Hnew (length pre)) as (rd & Hd & Hds).
  { rewrite length_app. cbn. lia. }
  destruct (step_any_fulfilment user_fn fuel' env l p q
              (S p + length pre) rq rd (mkPromise 0 0 VNull DNull) _ _ s1
              Hq1 (Hold _ _ Hq) Hst Hplain He1)
    as (s2 & Hstep & Hq2 & Hp2 & Hres2 & Hh2); try done.
  { lia. }
  destruct (run_any_resolved user_fn (S (S fuel')) env l p
              (settled 1 (_value rq) (mkPromise 0 0 VNull DNull)) n
              (with_derived (S p + S (length pre)) post) s2 Hres2 Hq2)
    as (s3 & Hrest & Hp3); [|done|].
  { apply Forall_with_derived. intros i x Hx. cbn [fst snd].
    destruct (proj1 (Forall_lookup _ _) Hpost i x Hx) as (r & Hr & Hrs).
    pose proof (lookup_lt_Some _ _ _ Hr) as Hlt. fold p in Hlt.
    pose proof (lookup_lt_Some _ _ _ Hx) as Hi.
    split; [|split; [lia|]].
    - exists r. split; [|done]. rewrite Hh2.
      rewrite !list_lookup_insert_ne by lia. by apply Hold.
    - destruct (Hnew (S (length pre) + i)%nat) as (rd' & Hd' & Hds').
      { rewrite length_app. cbn. lia. }
      exists rd'. split; [|done]. rewrite Hh2.
      rewrite !list_lookup_insert_ne by lia. rewrite <- Hd'. f_equal. lia. }
  exists s3. split; [|done].
  erewrite bind_ok; [reflexivity|].
  rewrite Hrun. cbn [run]. unfold bind at 1. by rewrite Hstep.
Qed.

Lemma any_of_settled_promises_takes_first_fulfilled_witness :
  exists s',
    (p <- Promise_any sample_fn 2 (map VPromise [0; 1; 2]%nat) ;;
     run sample_fn 3 3 ;;; ret p)
      (mkState [mkPromise 0 2 (VStr "no") DNull; mkPromise 0 1 (VNum 1) DNull;
                mkPromise 0 1 (VNum 2) DNull] [] [] [] [])
    = Ok 3%nat s' /\
    heap s' !! 3%nat = Some (mkPromise 0 1 (VNum 1) DNull).
Proof.
  apply (any_of_settled_promises_takes_first_fulfilled sample_fn 0 0 1
           [0%nat] 1 (mkPromise 0 1 (VNum 1) DNull) [2%nat]
           (mkState [mkPromise 0 2 (VStr "no") DNull;
                     mkPromise 0 1 (VNum 1) DNull;
                     mkPromise 0 1 (VNum 2) DNull] [] [] [] []));
    try reflexivity.
  - apply Forall_cons. split; [by eexists|apply Forall_nil_2].
  - apply Forall_cons. split; [|apply Forall_nil_2].
    eexists. split; [reflexivity|by left].
Defined.

(** ** [Promise.allSettled] with a promise among its inputs *)

Lemma map_mapAllSettled_one_promise (user_fn : UserFns) fuel q rq post :
  forall pre s,
    Forall (fun x => plain x = true) pre ->
    Forall (fun x => plain x = true) post ->
    heap s !! q = Some rq ->
    _state rq = 1 \/ _state rq = 2 ->
    map_m (mapAllSettled user_fn (S fuel)) (pre ++ VPromise q :: post) s
    = Ok (map onSettledFulfill pre ++
          VPromise (length (heap s)) :: map onSettledFulfill post)
         (then_settled_store q (VFunction FnOnSettledFulfill)
                             (VFunction FnOnSettledReject) s).
Proof.
  induction pre as [|x pre IH]; intros s Hpre Hpost Hq Hst.
  - cbn [app map_m map mapAllSettled].
    erewrite bind_ok; cycle 1.
    { erewrite bind_ok; [reflexivity|].
      apply then_settled with rq; [done|lia|lia]. }
    by erewrite bind_ok by (by apply map_mapAllSettled_plain).
  - apply Forall_cons in Hpre as [Hx Hpre]. cbn [app map_m map].
    erewrite bind_ok by (by apply mapAllSettled_plain).
    by erewrite bind_ok by (by apply IH).
Qed.

Lemma Forall_ready_fulfilled_records s xs :
  Forall (ready_fulfilled s) (map onSettledFulfill xs) /\
  map (value_of s) (map onSettledFulfill xs) = map onSettledFulfill xs.
Proof.
  split.
  - apply Forall_forall. intros y Hy. apply list_elem_of_In in Hy.
    by apply in_map_iff in Hy as (z & <- & _).
  - by rewrite map_map.
Qed.

(** X22: when the scheduler is idle (its queue is empty),
    [Promise.allSettled] called with one settled promise among values that
    are no promises and no thenables returns a promise which, two turns of
    the scheduler later, is fulfilled with one record per input in input
    order: [{status: 'fulfilled', value}] for the values and for a
    fulfilled promise, [{status: 'rejected', reason}] for a rejected
    promise.  A rejected input does not reject it. *)
Theorem allSettled_records_settled_promise (user_fn : UserFns) fuel fuel'
    pre q rq post s :
  Forall (fun x => plain x = true) pre ->
  Forall (fun x => plain x = true) post ->
  heap s !! q = Some rq ->
  _state rq = 1 \/ _state rq = 2 ->
  queue s = [] ->
  exists s',
    (p <- Promise_allSettled user_fn (S (S (S (S fuel))))
                             (pre ++ VPromise q :: post) ;;
     run user_fn (S (S (S (S fuel')))) 2 ;;; ret p) s
    = Ok (S (length (heap s))) s' /\
    heap s' !! S (length (heap s))
    = Some (mkPromise 0 1
              (VArray (map onSettledFulfill pre ++
                       (if _state rq =? 1 then onSettledFulfill (_value rq)
                        else onSettledReject (_value rq))
                       :: map onSettledFulfill post)) DNull).
Proof.
  intros Hpre Hpost Hq Hst Hqueue.
  set (d := length (heap s)). set (rp := mkPromise 0 0 VNull DNull).
  set (hS := new_Handler (VFunction FnOnSettledFulfill)
                         (VFunction FnOnSettledReject) d).
  set (s1 := then_settled_store q (VFunction FnOnSettledFulfill)
                                (VFunction FnOnSettledReject) s).
  set (pre' := map onSettledFulfill pre).
  set (post' := map onSettledFulfill post).
  set (record := if _state rq =? 1 then onSettledFulfill (_value rq)
                 else onSettledReject (_value rq)).
  destruct (Forall_ready_fulfilled_records s1 pre) as [Hpre1 Hvpre].
  destruct (Forall_ready_fulfilled_records s1 post) as [Hpost1 Hvpost].
  fold pre' in Hpre1, Hvpre. fold post' in Hpost1, Hvpost.
  pose proof (lookup_lt_Some _ _ _ Hq) as Hlt. fold d in Hlt.
  assert (length (heap s1) = S d) as Hlen1.
  { cbn [s1 then_settled_store heap]. rewrite length_app. cbn. fold d. lia. }
  set (p := S d). set (l := length (latches s)).
  set (env := length (allEnvs s)).
  set (w := mkHandler (Some (FnAllRes env (length pre')))
                      (Some (FnRejectCb l p)) (S p)).
  set (eW := mkAllEnv (pre' ++ VPromise d :: post') 1 (FnResolveCb l p)
                      (FnRejectCb l p)).
  set (sW := mkState (<[d := register w rp]> (heap s1 ++ [rp; rp]))
                     (latches s ++ [false]) [(q, hS)] (allEnvs s ++ [eW])
                     (anyEnvs s)).
  assert (Promise_allSettled user_fn (S (S (S (S fuel))))
                             (pre ++ VPromise q :: post) s = Ok p sW)
    as Hcall.
  { unfold Promise_allSettled.
    erewrite bind_ok
      by (by apply map_mapAllSettled_one_promise with (rq := rq)).
    fold d pre' post' s1.
    rewrite (Promise_all_pending_input user_fn fuel pre' d rp post' s1
               Hpre1 Hpost1 (lookup_alloc (heap s) rp) eq_refl eq_refl).
    rewrite Hlen1. f_equal. unfold all_waiting_store.
    rewrite Hlen1, Hvpre, Hvpost.
    cbn [s1 then_settled_store latches queue allEnvs anyEnvs].
    by rewrite Hqueue. }
  assert (heap sW !! q = Some rq) as HqW.
  { cbn [sW heap]. rewrite list_lookup_insert_ne by lia.
    by apply lookup_app_l_Some, lookup_app_l_Some. }
  assert (heap sW !! d = Some (register w rp)) as HdW.
  { cbn [sW heap]. apply list_lookup_insert_eq. rewrite length_app. lia. }
  (* the turn for the input promise *)
  set (sW0 := mkState (heap sW) (latches sW) [] (allEnvs sW) (anyEnvs sW)).
  set (sX := settle_store 1 record d (register w rp) sW0).
  assert (step user_fn (S (S (S (S fuel')))) sW = Ok true sX) as Hstep1.
  { unfold step. cbn [sW queue]. fold sW. fold sW0.
    erewrite bind_ok; [reflexivity|].
    erewrite (run_task_with_callback user_fn _ q hS rq
                (if _state rq =? 1 then FnOnSettledFulfill
                 else FnOnSettledReject) record sW0 sW0); cycle 1.
    - exact HqW.
    - unfold chosen_handler, hS, new_Handler.
      cbn [onFulfilled onRejected as_callable].
      by destruct (_state rq =? 1).
    - unfold record. by destruct (_state rq =? 1).
    - rewrite resolve_plain by (unfold record; by destruct (_state rq =? 1)).
      cbn [promise hS new_Handler]. by apply fulfill_spec. }
  assert (queue sX = [(d, w)]) as HqX by done.
  assert (heap sX !! p = Some rp) as HpX.
  { cbn [sX settle_store heap sW0 sW].
    rewrite !list_lookup_insert_ne by lia.
    by apply list_lookup_middle. }
  assert (heap sX !! S p = Some rp) as HdX.
  { cbn [sX settle_store heap sW0 sW].
    rewrite !list_lookup_insert_ne by lia.
    change (heap s1 ++ [rp; rp]) with (heap s1 ++ [rp] ++ [rp]).
    rewrite app_assoc. apply list_lookup_middle.
    rewrite length_app, Hlen1. cbn. lia. }
  assert (heap sX !! d = Some (settled 1 record (register w rp))) as HdsX.
  { cbn [sX settle_store heap]. apply list_lookup_insert_eq.
    by apply lookup_lt_Some in HdW. }
  (* the turn for the promise that stands for it in [all] *)
  destruct (all_last_delivery user_fn fuel' env eW (length pre') l p (S p) d
              (settled 1 record (register w rp)) sX HqX HdsX)
    as (s3 & Hstep2 & Hp3); try done.
  { by left. }
  { intros _. unfold record. by destruct (_state rq =? 1). }
  { by apply list_lookup_middle. }
  { by apply list_lookup_middle. }
  exists s3. split.
  - rewrite (bind_ok _ _ _ _ _ Hcall).
    erewrite bind_ok; [reflexivity|].
    cbn [run]. unfold bind at 1. rewrite Hstep1.
    unfold bind at 1. by rewrite Hstep2.
  - rewrite Hp3. cbn [settled _state _value Z.eqb Pos.eqb eW all_args].
    do 3 f_equal. unfold pre'.
    rewrite insert_app_r_alt by (by rewrite length_map).
    by rewrite Nat.sub_diag.
Qed.

Lemma allSettled_records_settled_promise_witness :
  exists s',
    (p <- Promise_allSettled sample_fn 4 [VNum 1; VPromise 0; VStr "z"] ;;
     run sample_fn 4 2 ;;; ret p)
      (mkState [mkPromise 0 2 (VStr "e") DNull] [] [] [] [])
    = Ok 2%nat s' /\
    heap s' !! 2%nat
    = Some (mkPromise 0 1
              (VArray [VSettled "fulfilled" (VNum 1);
                       VSettled "rejected" (VStr "e");
                       VSettled "fulfilled" (VStr "z")]) DNull).
Proof.
  apply (allSettled_records_settled_promise sample_fn 0 0 [VNum 1] 0
           (mkPromise 0 2 (VStr "e") DNull) [VStr "z"]
           (mkState [mkPromise 0 2 (VStr "e") DNull] [] [] [] []));
    try reflexivity.
  - by repeat constructor.
  - by repeat constructor.
  - by right.
Defined.

(** ** A handler that returns a promise *)

(** Adoption by a promise on which nothing waits. *)
Lemma adopt_fresh fuel self r v s :
  heap s !! self = Some r ->
  _deferredState r = 0 ->
  adopt fuel self v s
  = Ok tt (set_heap (<[self := set_value v (set_state 3 r)]> (heap s)) s).
Proof.
  intros Hr Hds. pose proof (lookup_lt_Some _ _ _ Hr) as Hlt. unfold adopt.
  erewrite bind_ok by (by eapply modify_promise_ok).
  erewrite bind_ok; cycle 1.
  { eapply modify_promise_ok. simpl. by apply list_lookup_insert_eq. }
  cbn [heap set_heap]. rewrite list_insert_insert_eq.
  set (r3 := set_value v (set_state 3 r)).
  set (s3 := set_heap (<[self := r3]> (heap s)) (set_heap _ s)).
  assert (heap s3 !! self = Some r3) as Hr3
    by (simpl; by apply list_lookup_insert_eq).
  unfold finale.
  rewrite (bind_ok _ _ _ _ _ (get_promise_ok _ _ _ Hr3)).
  cbn [r3 set_value set_state _deferredState]. rewrite Hds. cbn [Z.eqb].
  erewrite bind_ok by reflexivity.
  rewrite (bind_ok _ _ _ _ _ (get_promise_ok _ _ _ Hr3)).
  cbn [r3 set_value set_state _deferredState]. by rewrite Hds.
Qed.

(** X23: when the scheduler is idle (its queue is empty) and the handler
    that [then] runs for a settled receiver is a user function that returns
    a promise of this library which existed already when [then] was called
    (the handler does not make it), the promise that [then] returned adopts
    it one turn of the scheduler later: it is in state 3 with that promise
    as its value, nothing is scheduled, and (when the returned promise has
    not itself adopted another one) it stands at the head of an adoption
    chain that ends in the returned promise, so that [then] on it acts on
    the returned promise. *)
Theorem then_adopts_promise_returned_by_handler (user_fn : UserFns) fuel self
    r f g n q rq s :
  heap s !! self = Some r ->
  _state r = 1 \/ _state r = 2 ->
  queue s = [] ->
  (if _state r =? 1 then f else g) = Some n ->
  user_fn n (_value r) = inl (VPromise q) ->
  heap s !! q = Some rq ->
  (res <- then_ (S fuel) self (user_handler f) (user_handler g) ;;
   step user_fn (S fuel) ;;; ret res) s
  = Ok (length (heap s))
       (mkState (heap s ++ [mkPromise 0 3 (VPromise q) DNull]) (latches s) []
                (allEnvs s) (anyEnvs s)) /\
  (_state rq <> 3 ->
   adoption_chain
     (mkState (heap s ++ [mkPromise 0 3 (VPromise q) DNull]) (latches s) []
              (allEnvs s) (anyEnvs s))
     (length (heap s)) [q] q).
Proof.
  intros Hr Hst Hqueue Hn Hu Hq. split.
  - erewrite bind_ok; cycle 1.
    { apply then_settled with r; [done|lia|lia]. }
    set (res := length (heap s)).
    set (rp := mkPromise 0 0 VNull DNull).
    set (s1 := mkState (heap s ++ [rp]) (latches s) [] (allEnvs s)
                       (anyEnvs s)).
    unfold then_settled_store. rewrite Hqueue. cbn [app].
    unfold bind at 1, step at 1. cbn [queue]. fold res. fold s1.
    erewrite bind_ok; [reflexivity|].
    rewrite (run_task_with_callback user_fn (S fuel) self _ r (FnUser n)
               (VPromise q) s1 s1); cycle 1.
    + by apply lookup_app_l_Some.
    + unfold chosen_handler, new_Handler. cbn [onFulfilled onRejected].
      destruct (_state r =? 1); subst; done.
    + cbn [call1]. by rewrite Hu.
    + cbn [promise new_Handler].
      rewrite resolve_own_promise; cycle 1.
      { apply lookup_lt_Some in Hq. fold res in Hq. lia. }
      rewrite (adopt_fresh (S fuel) res rp (VPromise q) s1
                 (lookup_alloc (heap s) rp) eq_refl).
      cbn [s1 set_heap heap]. by rewrite (insert_alloc (heap s)).
  - intros H3. cbn [adoption_chain heap]. split.
    + exists (mkPromise 0 3 (VPromise q) DNull).
      split; [exact (lookup_alloc (heap s) _)|done].
    + split; [done|]. exists rq. split; [|done]. by apply lookup_app_l_Some.
Qed.

Lemma then_adopts_promise_returned_by_handler_witness :
  (res <- then_ 1 2 (user_handler None) (user_handler (Some 0%nat)) ;;
   step sample_fn 1 ;;; ret res)
    (mkState [mkPromise 0 0 VNull DNull; mkPromise 0 0 VNull DNull;
              mkPromise 0 2 (VPromise 1) DNull] [] [] [] [])
  = Ok 3%nat
       (mkState [mkPromise 0 0 VNull DNull; mkPromise 0 0 VNull DNull;
                 mkPromise 0 2 (VPromise 1) DNull;
                 mkPromise 0 3 (VPromise 1) DNull] [] [] [] []).
Proof.
  exact (proj1 (then_adopts_promise_returned_by_handler sample_fn 0 2
                  (mkPromise 0 2 (VPromise 1) DNull) None (Some 0%nat) 0%nat
                  1 (mkPromise 0 0 VNull DNull)
                  (mkState [mkPromise 0 0 VNull DNull;
                            mkPromise 0 0 VNull DNull;
                            mkPromise 0 2 (VPromise 1) DNull] [] [] [] [])
                  eq_refl (or_intror eq_refl) eq_refl eq_refl eq_refl
                  eq_refl)).
Defined.

(** * The claims on handlers and start routines *)

(** ** Exceptions of handlers *)

(** C6: when the chosen handler raises [ex], the scheduled closure goes on
    as [reject(deferred.promise, ex)] from the store the handler left, and
    returns with the downstream promise in state 2 with value [ex] and its
    waiters scheduled.  When the handler returns [v], the closure goes on as
    [resolve(deferred.promise, v)], and returns with the downstream promise
    settled by the resolution procedure: fulfilled with [v] when [v] is no
    promise and no thenable; rejected with the self-resolution error when
    [v] is the downstream promise itself; in state 3 (adoption) with [v]
    when [v] is another promise (shown for a downstream promise on which
    nothing waits); rejected with [ex'] when reading [v.then] raises [ex'];
    and settled as the first callback call of [v.then] says when [v] is a
    thenable (whose first call passes a value that is no thenable).  In no
    case does the closure raise anything to the scheduler that runs it. *)
Theorem handler_exception_rejects_downstream (user_fn : UserFns)
    fuel self deferred r cb s :
  heap s !! self = Some r ->
  chosen_handler r deferred = Some cb ->
  (forall ex s1,
      call1 user_fn (S fuel) cb (_value r) s = Thrown ex s1 ->
      run_task user_fn (S fuel) (self, deferred) s
        = reject (S fuel) (promise deferred) ex s1
      /\ forall r1,
           heap s1 !! promise deferred = Some r1 ->
           wf_deferreds r1 = true ->
           run_task user_fn (S fuel) (self, deferred) s
           = Ok tt (settle_store 2 ex (promise deferred) r1 s1)) /\
  (forall v s1,
      call1 user_fn (S fuel) cb (_value r) s = Ok v s1 ->
      run_task user_fn (S fuel) (self, deferred) s
        = resolve user_fn (S fuel) (promise deferred) v s1
      /\ forall r1,
           heap s1 !! promise deferred = Some r1 ->
           wf_deferreds r1 = true ->
           (plain v = true ->
            run_task user_fn (S fuel) (self, deferred) s
            = Ok tt (settle_store 1 v (promise deferred) r1 s1)) /\
           (v = VPromise (promise deferred) ->
            run_task user_fn (S fuel) (self, deferred) s
            = Ok tt (settle_store 2 self_resolution_error (promise deferred)
                                  r1 s1)) /\
           (forall q,
              v = VPromise q -> q <> promise deferred ->
              _deferredState r1 = 0 ->
              run_task user_fn (S fuel) (self, deferred) s
              = Ok tt (set_heap
                         (<[promise deferred :=
                              set_value v (set_state 3 r1)]> (heap s1)) s1)) /\
           (forall ex',
              v = VObject (ThenThrows ex') ->
              run_task user_fn (S fuel) (self, deferred) s
              = Ok tt (settle_store 2 ex' (promise deferred) r1 s1)) /\
           (forall body fuel',
              v = VObject (ThenFn (fst body) (snd body)) ->
              first_call_plain body = true ->
              fuel = S (S (S (S fuel'))) ->
              run_task user_fn (S fuel) (self, deferred) s
              = Ok tt (after_script body (promise deferred) r1 s1))) /\
  (forall ex s', run_task user_fn (S fuel) (self, deferred) s <> Thrown ex s').
Proof.
  intros Hr Hcb. unfold chosen_handler in Hcb.
  assert (run_task user_fn (S fuel) (self, deferred) s
          = (ret_ <- tryCallOne (call1 user_fn (S fuel)) cb (_value r) ;;
             match ret_ with
             | inr LAST_ERROR => reject (S fuel) (promise deferred) LAST_ERROR
             | inl v => resolve user_fn (S fuel) (promise deferred) v
             end) s) as Hrun.
  { unfold run_task.
    rewrite (bind_ok _ _ _ _ _ (get_promise_ok _ _ _ Hr)).
    cbv zeta. by rewrite Hcb. }
  split; [|split].
  - intros ex s1 Hcall. split.
    + rewrite Hrun. unfold bind, tryCallOne, try_catch. by rewrite Hcall.
    + intros r1 Hr1 Hwf. rewrite Hrun. unfold bind, tryCallOne, try_catch.
      rewrite Hcall.
      by apply reject_spec.
  - intros v s1 Hcall.
    assert (run_task user_fn (S fuel) (self, deferred) s
            = resolve user_fn (S fuel) (promise deferred) v s1) as Hres.
    { rewrite Hrun. unfold bind, tryCallOne, try_catch. by rewrite Hcall. }
    split; [exact Hres|]. intros r1 Hr1 Hwf. rewrite Hres.
    split; [|split; [|split; [|split]]].
    + intros Hplain. rewrite resolve_plain by done. by apply fulfill_spec.
    + intros ->. cbn [resolve is_promise]. rewrite Nat.eqb_refl.
      by apply reject_spec.
    + intros q -> Hq Hds. rewrite resolve_own_promise by done.
      by apply adopt_fresh.
    + intros ex' ->. cbn [resolve is_promise is_object_or_function].
      unfold getThen, try_catch, bind at 1. cbn [read_then throw].
      by apply reject_spec.
    + intros [calls raises] fuel' -> Hplain ->.
      cbn [fst snd resolve is_promise is_object_or_function].
      unfold getThen, try_catch, bind at 1. cbn [read_then ret].
      by apply doResolve_script.
  - intros ex s'. rewrite Hrun.
    apply no_throw_bind; [apply no_throw_try_catch|].
    intros [v|e]; [apply no_throw_resolve|apply no_throw_reject].
Qed.

Lemma handler_exception_rejects_downstream_witness :
  run_task sample_fn 1
    (0%nat, mkHandler (Some (FnUser 1)) None 1)
    (mkState [mkPromise 0 1 (VNum 3) DNull; mkPromise 0 0 VNull DNull]
             [] [] [] [])
  = Ok tt (mkState [mkPromise 0 1 (VNum 3) DNull;
                    mkPromise 0 2 (VStr "oops") DNull] [] [] [] []) /\
  run_task sample_fn 1
    (0%nat, mkHandler (Some (FnUser 0)) None 1)
    (mkState [mkPromise 0 1 (VNum 3) DNull; mkPromise 0 0 VNull DNull]
             [] [] [] [])
  = Ok tt (mkState [mkPromise 0 1 (VNum 3) DNull;
                    mkPromise 0 1 (VNum 3) DNull] [] [] [] []).
Proof.
  split.
  - pose proof (handler_exception_rejects_downstream sample_fn 0 0
                  (mkHandler (Some (FnUser 1)) None 1)
                  (mkPromise 0 1 (VNum 3) DNull) (FnUser 1)
                  (mkState [mkPromise 0 1 (VNum 3) DNull;
                            mkPromise 0 0 VNull DNull] [] [] [] [])
                  eq_refl eq_refl) as [H _].
    destruct (H (VStr "oops") _ eq_refl) as [_ H2].
    exact (H2 (mkPromise 0 0 VNull DNull) eq_refl eq_refl).
  - pose proof (handler_exception_rejects_downstream sample_fn 0 0
                  (mkHandler (Some (FnUser 0)) None 1)
                  (mkPromise 0 1 (VNum 3) DNull) (FnUser 0)
                  (mkState [mkPromise 0 1 (VNum 3) DNull;
                            mkPromise 0 0 VNull DNull] [] [] [] [])
                  eq_refl eq_refl) as [_ [H _]].
    destruct (H (VNum 3) _ eq_refl) as [_ H2].
    exact (proj1 (H2 (mkPromise 0 0 VNull DNull) eq_refl eq_refl) eq_refl).
Defined.

(** ** Arguments of [then] that are not callable *)

(** [then] on a settled receiver and one turn of the scheduler, when there
    is no handler for the state of the receiver. *)
Lemma then_step_without_handler (user_fn : UserFns) fuel self r onF onR s :
  heap s !! self = Some r ->
  _state r = 1 \/ _state r = 2 ->
  queue s = [] ->
  (if _state r =? 1 then as_callable onF else as_callable onR) = None ->
  (_state r = 1 -> plain (_value r) = true) ->
  (res <- then_ (S fuel) self onF onR ;;
   step user_fn (S fuel) ;;; ret res) s
  = Ok (length (heap s))
       (mkState (heap s ++ [mkPromise 0 (_state r) (_value r) DNull])
                (latches s) [] (allEnvs s) (anyEnvs s)).
Proof.
  intros Hr Hst Hq Hcb Hplain.
  erewrite bind_ok; cycle 1.
  { apply then_settled with r; [done|lia|lia]. }
  set (res := length (heap s)).
  set (s1 := mkState (heap s ++ [mkPromise 0 0 VNull DNull]) (latches s) []
                     (allEnvs s) (anyEnvs s)).
  assert (heap s1 !! self = Some r) as Hr1 by (by apply lookup_app_l_Some).
  assert (heap s1 !! res = Some (mkPromise 0 0 VNull DNull)) as Hres
    by exact (lookup_alloc (heap s) _).
  assert (forall st v,
            settle_store st v res (mkPromise 0 0 VNull DNull) s1
            = mkState (heap s ++ [mkPromise 0 st v DNull]) (latches s) []
                      (allEnvs s) (anyEnvs s)) as Hsettle.
  { intros st v. unfold settle_store, s1. cbn.
    by rewrite (insert_alloc (heap s)). }
  assert (run_task user_fn (S fuel) (self, new_Handler onF onR res) s1
          = Ok tt (mkState (heap s ++
                              [mkPromise 0 (_state r) (_value r) DNull])
                           (latches s) [] (allEnvs s) (anyEnvs s))) as Hrun.
  { unfold run_task, new_Handler.
    rewrite (bind_ok _ _ _ _ _ (get_promise_ok _ _ _ Hr1)).
    cbv zeta. cbn [onFulfilled onRejected promise].
    destruct (_state r =? 1) eqn:E1; rewrite Hcb.
    - apply Z.eqb_eq in E1.
      rewrite resolve_plain by (by apply Hplain).
      rewrite E1, <- Hsettle. by apply fulfill_spec.
    - assert (_state r = 2) as E2.
      { apply Z.eqb_neq in E1. by destruct Hst. }
      rewrite E2, <- Hsettle. by apply reject_spec. }
  unfold then_settled_store. rewrite Hq. cbn [app].
  unfold bind at 1, step at 1. cbn [queue]. fold res. fold s1.
  by rewrite (bind_ok _ _ _ _ _ Hrun).
Qed.

(** [then] on a pending receiver on which nothing waits, the settlement of
    the receiver, and one turn of the scheduler, when there is no handler
    for the state the receiver is given. *)
Lemma then_settle_step_without_handler (user_fn : UserFns) fuel self r onF onR
    st v s :
  heap s !! self = Some r ->
  _state r = 0 ->
  _deferredState r = 0 ->
  queue s = [] ->
  st = 1 \/ st = 2 ->
  (if st =? 1 then as_callable onF else as_callable onR) = None ->
  (st = 1 -> plain v = true) ->
  exists s',
    (res <- then_ (S fuel) self onF onR ;;
     (if st =? 1 then resolve user_fn (S fuel) self v
      else reject (S fuel) self v) ;;;
     step user_fn (S fuel) ;;; ret res) s
    = Ok (length (heap s)) s' /\
    heap s' !! length (heap s) = Some (mkPromise 0 st v DNull) /\
    heap s' !! self = Some (mkPromise 1 st v DNull) /\
    queue s' = [].
Proof.
  intros Hr H0 Hds Hq Hst Hcb Hplain.
  pose proof (lookup_lt_Some _ _ _ Hr) as Hlt.
  set (res := length (heap s)).
  set (d := new_Handler onF onR res).
  set (s0 := set_heap (heap s ++ [mkPromise 0 0 VNull DNull]) s).
  assert (heap s0 !! self = Some r) as Hr0 by (by apply lookup_app_l_Some).
  assert (registrable r = true) as Hreg.
  { unfold registrable, wf_deferreds. by rewrite Hds. }
  set (s1 := set_heap (<[self := register d r]> (heap s0)) s0).
  assert (then_ (S fuel) self onF onR s = Ok res s1) as Hthen.
  { unfold then_. erewrite bind_ok by reflexivity. fold res s0 d.
    by rewrite (bind_ok _ _ _ _ _ (handle_pending fuel self r d s0 Hr0 H0
                                     Hreg)). }
  rewrite (bind_ok _ _ _ _ _ Hthen).
  assert (heap s1 !! self = Some (register d r)) as Hr1.
  { cbn. apply list_lookup_insert_eq. rewrite length_app. lia. }
  assert (register d r = mkPromise 1 0 (_value r) (DOne d)) as Ereg.
  { unfold register, set_deferreds, set_deferredState. rewrite Hds.
    cbn. by rewrite H0. }
  assert (wf_deferreds (register d r) = true) as Hwf1 by (by rewrite Ereg).
  set (s2 := settle_store st v self (register d r) s1).
  assert ((if st =? 1 then resolve user_fn (S fuel) self v
           else reject (S fuel) self v) s1 = Ok tt s2) as Hsettle.
  { destruct Hst as [->| ->]; cbn [Z.eqb Pos.eqb].
    - rewrite resolve_plain by (by apply Hplain). by apply fulfill_spec.
    - by apply reject_spec. }
  rewrite (bind_ok _ _ _ _ _ Hsettle).
  assert (queue s2 = [(self, d)]) as Hq2.
  { unfold s2, settle_store. cbn [queue s1 s0 set_heap].
    by rewrite Hq, Ereg. }
  set (s3 := mkState (heap s2) (latches s2) [] (allEnvs s2) (anyEnvs s2)).
  assert (heap s3 !! self = Some (mkPromise 1 st v DNull)) as Hr3.
  { cbn. rewrite Ereg. apply list_lookup_insert_eq.
    rewrite length_insert, length_app. lia. }
  assert (heap s3 !! res = Some (mkPromise 0 0 VNull DNull)) as Hres3.
  { cbn. assert (self <> res) as Hne by (unfold res; lia).
    rewrite !list_lookup_insert_ne by done.
    exact (lookup_alloc (heap s) _). }
  assert (run_task user_fn (S fuel) (self, d) s3
          = Ok tt (settle_store st v res (mkPromise 0 0 VNull DNull) s3))
    as Hrun.
  { unfold run_task, d, new_Handler.
    rewrite (bind_ok _ _ _ _ _ (get_promise_ok _ _ _ Hr3)).
    cbv zeta. cbn [onFulfilled onRejected promise _state _value].
    destruct Hst as [->| ->]; cbn [Z.eqb Pos.eqb] in *; rewrite Hcb.
    - rewrite resolve_plain by (by apply Hplain). by apply fulfill_spec.
    - by apply reject_spec. }
  exists (settle_store st v res (mkPromise 0 0 VNull DNull) s3).
  split; [|split; [|split]].
  - unfold bind at 1, step at 1. rewrite Hq2. fold s3.
    by rewrite (bind_ok _ _ _ _ _ Hrun).
  - cbn. apply list_lookup_insert_eq.
    rewrite !length_insert, length_app. cbn. lia.
  - cbn [settle_store heap]. assert (res <> self) as Hne by (unfold res; lia).
    rewrite list_lookup_insert_ne by done. exact Hr3.
  - reflexivity.
Qed.

(** C9: an argument of [then] that is not callable is the same as an omitted
    one ([undefined]): [then] does the same in both cases, whatever the
    store.  The outcome of the receiver then passes to the promise that
    [then] returns, and nothing is raised and nothing is called: for a
    fulfilled receiver and an [onFulfilled] that is not callable, [then]
    followed by one turn of the scheduler returns the new promise fulfilled
    with the value of the receiver; for a rejected receiver and an
    [onRejected] that is not callable, it returns the new promise rejected
    with the reason of the receiver; and for a pending receiver, once the
    receiver is fulfilled or rejected, one turn of the scheduler leaves the
    new promise fulfilled with the same value or rejected with the same
    reason.  (The scheduler is idle when [then] is called, nothing else
    waits on a pending receiver, and a value of fulfilment is no promise
    and no thenable.) *)
Theorem then_non_callable_is_omitted (user_fn : UserFns)
    fuel self r onF onR s :
  heap s !! self = Some r ->
  (callable onF = false ->
     (forall fuel', then_ fuel' self onF onR = then_ fuel' self VUndefined onR)
     /\ (_state r = 1 -> plain (_value r) = true -> queue s = [] ->
         (res <- then_ (S fuel) self onF onR ;;
          step user_fn (S fuel) ;;; ret res) s
         = Ok (length (heap s))
              (mkState (heap s ++ [mkPromise 0 1 (_value r) DNull])
                       (latches s) [] (allEnvs s) (anyEnvs s)))
     /\ (forall v,
           _state r = 0 -> _deferredState r = 0 -> queue s = [] ->
           plain v = true ->
           exists s',
             (res <- then_ (S fuel) self onF onR ;;
              resolve user_fn (S fuel) self v ;;;
              step user_fn (S fuel) ;;; ret res) s
             = Ok (length (heap s)) s' /\
             heap s' !! length (heap s) = Some (mkPromise 0 1 v DNull) /\
             queue s' = [])) /\
  (callable onR = false ->
     (forall fuel', then_ fuel' self onF onR = then_ fuel' self onF VUndefined)
     /\ (_state r = 2 -> queue s = [] ->
         (res <- then_ (S fuel) self onF onR ;;
          step user_fn (S fuel) ;;; ret res) s
         = Ok (length (heap s))
              (mkState (heap s ++ [mkPromise 0 2 (_value r) DNull])
                       (latches s) [] (allEnvs s) (anyEnvs s)))
     /\ (forall reason,
           _state r = 0 -> _deferredState r = 0 -> queue s = [] ->
           exists s',
             (res <- then_ (S fuel) self onF onR ;;
              reject (S fuel) self reason ;;;
              step user_fn (S fuel) ;;; ret res) s
             = Ok (length (heap s)) s' /\
             heap s' !! length (heap s) = Some (mkPromise 0 2 reason DNull) /\
             queue s' = [])).
Proof.
  intros Hr. split; intros Hc; apply as_callable_not_callable in Hc.
  - split; [|split].
    + intros fuel'. unfold then_, new_Handler. by rewrite Hc.
    + intros H1 Hplain Hq.
      rewrite (then_step_without_handler user_fn fuel self r onF onR s Hr
                 (or_introl H1) Hq); [by rewrite H1|by rewrite H1|done].
    + intros v H0 Hds Hq Hplain.
      destruct (then_settle_step_without_handler user_fn fuel self r onF onR
                  1 v s Hr H0 Hds Hq (or_introl eq_refl) Hc (fun _ => Hplain))
        as (s' & Hrun & Hres & _ & Hq').
      by exists s'.
  - split; [|split].
    + intros fuel'. unfold then_, new_Handler. by rewrite Hc.
    + intros H2 Hq.
      rewrite (then_step_without_handler user_fn fuel self r onF onR s Hr
                 (or_intror H2) Hq); [by rewrite H2|by rewrite H2|].
      intros H1. congruence.
    + intros reason H0 Hds Hq.
      destruct (then_settle_step_without_handler user_fn fuel self r onF onR
                  2 reason s Hr H0 Hds Hq (or_intror eq_refl) Hc
                  ltac:(discriminate))
        as (s' & Hrun & Hres & _ & Hq').
      by exists s'.
Qed.

Lemma then_non_callable_is_omitted_witness :
  ((res <- then_ 1 TRUE (VStr "x") (VFunction (FnUser 1)) ;;
    step sample_fn 1 ;;; ret res) init_state
   = Ok 6%nat
        (mkState (heap init_state ++ [mkPromise 0 1 (VBool true) DNull])
                 [] [] [] [])) /\
  ((res <- then_ 1 0 (VFunction (FnUser 1)) (VNum 5) ;;
    step sample_fn 1 ;;; ret res)
     (mkState [mkPromise 0 2 (VStr "no") DNull] [] [] [] [])
   = Ok 1%nat
        (mkState [mkPromise 0 2 (VStr "no") DNull;
                  mkPromise 0 2 (VStr "no") DNull] [] [] [] [])).
Proof.
  split.
  - pose proof (then_non_callable_is_omitted sample_fn 0 TRUE
                  (valuePromise_rec (VBool true)) (VStr "x")
                  (VFunction (FnUser 1)) init_state eq_refl) as [H _].
    destruct (H eq_refl) as (_ & H1 & _).
    exact (H1 eq_refl eq_refl eq_refl).
  - pose proof (then_non_callable_is_omitted sample_fn 0 0
                  (mkPromise 0 2 (VStr "no") DNull)
                  (VFunction (FnUser 1)) (VNum 5)
                  (mkState [mkPromise 0 2 (VStr "no") DNull] [] [] [] [])
                  eq_refl) as [_ H].
    destruct (H eq_refl) as (_ & H2 & _).
    exact (H2 eq_refl eq_refl).
Defined.

(** ** A start routine that raises after it has called a callback *)

(** C10: a start routine that calls a callback and then raises leaves the
    store exactly as the same routine returning normally does, and
    [doResolve] and [new Promise] raise nothing to their caller.  When the
    first call passes a value that is no thenable (or is a call of
    [reject]), [new Promise] returns, with enough fuel, a new promise that
    holds the outcome of that first call (fulfilled with its value, or
    rejected with its reason, and not with the exception) and schedules
    nothing; and [doResolve] on a promise that exists already returns with
    that promise settled by the first call. *)
Theorem late_exception_is_discarded (user_fn : UserFns) fuel c calls ex :
  (forall p s,
      doResolve user_fn fuel (ExScript (c :: calls, Some ex)) p s
      = doResolve user_fn fuel (ExScript (c :: calls, None)) p s) /\
  (forall s,
      new_Promise (doResolve user_fn fuel) (ExScript (c :: calls, Some ex)) s
      = new_Promise (doResolve user_fn fuel) (ExScript (c :: calls, None)) s) /\
  no_throw (new_Promise (doResolve user_fn fuel)
                        (ExScript (c :: calls, Some ex))) /\
  (first_call_plain (c :: calls, Some ex) = true ->
   let outcome := match c with
                  | CallResolve v => (1, v)
                  | CallReject reason => (2, reason)
                  end in
   (forall s,
      exists s',
        new_Promise (doResolve user_fn (S (S (S (S fuel)))))
                    (ExScript (c :: calls, Some ex)) s
        = Ok (length (heap s)) s' /\
        heap s' = heap s ++ [mkPromise 0 (fst outcome) (snd outcome) DNull] /\
        queue s' = queue s) /\
   (forall p r s,
      heap s !! p = Some r ->
      wf_deferreds r = true ->
      doResolve user_fn (S (S (S (S fuel)))) (ExScript (c :: calls, Some ex))
                p s
      = Ok tt (settle_store (fst outcome) (snd outcome) p r
                 (set_latch (length (latches s)) (with_new_latch s))))).
Proof.
  assert (forall p s,
      doResolve user_fn fuel (ExScript (c :: calls, Some ex)) p s
      = doResolve user_fn fuel (ExScript (c :: calls, None)) p s) as Heq.
  { intros p s. destruct fuel as [|[|f]]; [done|done|].
    cbn [doResolve].
    rewrite !(bind_ok new_latch _ s _ _ eq_refl).
    set (l := length (latches s)). set (s0 := mkState _ _ _ _ _).
    unfold bind at 1. unfold bind at 3. unfold tryCallTwo, try_catch.
    rewrite !call2_script.
    pose proof (script_calls_latch user_fn f l p c calls s0) as Hl.
    match type of Hl with
    | context [for_each ?b (c :: calls) s0] =>
        destruct (for_each b (c :: calls) s0) as [[] s1|e s1| |] eqn:E
    end; try done.
    specialize (Hl s1 eq_refl). unfold latched in Hl.
    unfold bind, get_done. by rewrite Hl. }
  split; [exact Heq|]. split; [|split].
  - intros s. unfold new_Promise, bind. simpl. by rewrite Heq.
  - apply no_throw_bind; [done|]. intros p.
    apply no_throw_bind; [apply no_throw_doResolve|done].
  - intros Hplain outcome.
    assert (script_outcome (c :: calls, Some ex)
            = Some (fst outcome, snd outcome)) as Hout
      by (by destruct c).
    assert (forall p r s,
              heap s !! p = Some r ->
              wf_deferreds r = true ->
              doResolve user_fn (S (S (S (S fuel))))
                        (ExScript (c :: calls, Some ex)) p s
              = Ok tt (settle_store (fst outcome) (snd outcome) p r
                         (set_latch (length (latches s)) (with_new_latch s))))
      as Hdo.
    { intros p r s Hp Hwf.
      rewrite (doResolve_script user_fn fuel (c :: calls, Some ex) p r s Hp
                 Hwf Hplain).
      unfold after_script. by rewrite Hout. }
    split; [|exact Hdo].
    intros s. unfold new_Promise.
    rewrite (bind_ok new_noop _ s _ _ eq_refl).
    erewrite bind_ok; cycle 1.
    { apply Hdo with (r := mkPromise 0 0 VNull DNull);
        [exact (lookup_alloc (heap s) _)|done]. }
    eexists. split; [reflexivity|].
    split; [exact (insert_alloc (heap s) _ _)|]. cbn. by rewrite app_nil_r.
Qed.

Lemma late_exception_is_discarded_witness :
  exists s',
    new_Promise (doResolve sample_fn 4)
      (ExScript ([CallResolve (VNum 1); CallReject (VStr "no")],
                 Some (VStr "late"))) init_state
    = Ok 6%nat s' /\
    heap s' = heap init_state ++ [mkPromise 0 1 (VNum 1) DNull] /\
    queue s' = [].
Proof.
  exact (proj1 (proj2 (proj2 (proj2
           (late_exception_is_discarded sample_fn 0 (CallResolve (VNum 1))
              [CallReject (VStr "no")] (VStr "late")))) eq_refl)
           init_state).
Defined.

(** * Inputs that settle after the combinator was called *)

(** An input that is awaited is settled and the scheduler runs its
    continuation: the handler for the new state is called with the value,
    and the promise that [then] returned is fulfilled with what the handler
    returned, here [undefined]. *)
Lemma settle_input_runs (user_fn : UserFns) fuel onF onR res e s s1 rres :
  queue s = [] ->
  awaits onF onR res s (settled_input e) ->
  settlement_plain e = true ->
  call1 user_fn (S fuel) (if settlement_state e =? 1 then onF else onR)
        (settlement_value e) (input_settled_store e s) = Ok VUndefined s1 ->
  heap s1 !! res = Some rres ->
  wf_deferreds rres = true ->
  settle_input user_fn (S fuel) e s
  = Ok tt (settle_store 1 VUndefined res rres s1).
Proof.
  intros Hq [x Hin] Hplain Hcall Hres Hwf.
  set (q := settled_input e) in *.
  set (d := mkHandler (Some onF) (Some onR) res) in *.
  set (rq := mkPromise 1 0 x (DOne d)) in *.
  pose proof (lookup_lt_Some _ _ _ Hin) as Hlt.
  assert (match e with
          | Fulfils q v => resolve user_fn (S fuel) q v
          | Rejects q reason => reject (S fuel) q reason
          end s
          = Ok tt (mkState (<[q := mkPromise 1 (settlement_state e)
                                      (settlement_value e) DNull]> (heap s))
                           (latches s) [(q, d)] (allEnvs s) (anyEnvs s)))
    as Hsettle.
  { destruct e as [q' v|q' reason]; cbn [settled_input] in q; subst q;
      cbn [settlement_state settlement_value settlement_plain] in *.
    - rewrite resolve_plain by done.
      rewrite (fulfill_spec fuel v q' rq s Hin eq_refl).
      unfold settle_store. by rewrite Hq.
    - rewrite (reject_spec fuel reason q' rq s Hin eq_refl).
      unfold settle_store. by rewrite Hq. }
  unfold settle_input. rewrite (bind_ok _ _ _ _ _ Hsettle).
  unfold bind at 1, step at 1. cbn [queue heap latches allEnvs anyEnvs].
  change (mkState _ (latches s) [] (allEnvs s) (anyEnvs s))
    with (input_settled_store e s).
  assert (run_task user_fn (S fuel) (q, d) (input_settled_store e s)
          = Ok tt (settle_store 1 VUndefined res rres s1)) as Hrun.
  { unfold run_task.
    erewrite bind_ok; cycle 1.
    { apply get_promise_ok. cbn. by apply list_lookup_insert_eq. }
    cbv zeta. cbn [_state _value d onFulfilled onRejected promise].
    assert ((if settlement_state e =? 1 then Some onF else Some onR)
            = Some (if settlement_state e =? 1 then onF else onR)) as ->
      by (by destruct (settlement_state e =? 1)).
    unfold bind at 1, tryCallOne, try_catch. rewrite Hcall.
    rewrite resolve_plain by done. by apply fulfill_spec. }
  by rewrite (bind_ok _ _ _ _ _ Hrun).
Qed.

(** The continuations of the other inputs stay as they are. *)
Lemma awaited_same_heap onF onR p s s' q :
  heap s' = heap s -> awaited onF onR p s q -> awaited onF onR p s' q.
Proof.
  intros Hh (res & rres & [x Hq] & Hres & Hds & Hne).
  exists res, rres. split; [exists x; by rewrite Hh|]. by rewrite Hh.
Qed.

Lemma awaited_heap_insert onF onR p s s' k rk r' q :
  heap s' = <[k := r']> (heap s) ->
  heap s !! k = Some rk ->
  _deferredState rk = 0 ->
  _deferredState r' = 0 ->
  awaited onF onR p s q -> awaited onF onR p s' q.
Proof.
  intros Hh Hk Hdk Hd' (res & rres & [x Hq] & Hres & Hds & Hne).
  assert (q <> k) as Hqk.
  { intros ->. rewrite Hk in Hq. injection Hq as ->. discriminate Hdk. }
  destruct (decide (res = k)) as [->|Hrk].
  - exists k, r'. split; [exists x; by rewrite Hh, list_lookup_insert_ne|].
    split; [|done]. rewrite Hh. apply list_lookup_insert_eq.
    by apply lookup_lt_Some in Hk.
  - exists res, rres. split; [exists x; by rewrite Hh, list_lookup_insert_ne|].
    split; [|done]. by rewrite Hh, list_lookup_insert_ne.
Qed.

Lemma awaited_input_settled onF onR p s e f0 r0 res0 q :
  awaits f0 r0 res0 s (settled_input e) ->
  q <> settled_input e ->
  awaited onF onR p s q -> awaited onF onR p (input_settled_store e s) q.
Proof.
  intros [x0 Hq0] Hne (res & rres & [x Hq] & Hres & Hds & Hrp).
  assert (res <> settled_input e) as Hr0.
  { intros E. rewrite E, Hq0 in Hres. injection Hres as <-.
    discriminate Hds. }
  exists res, rres.
  split; [exists x|split; [|done]]; cbn [input_settled_store heap];
    by rewrite list_lookup_insert_ne.
Qed.

(** The promise [p] of the combinator is neither the input that is settled
    nor the promise that [then] returned for it. *)
Lemma idle_not_awaiting onF onR res s q p :
  awaits onF onR res s q -> idle_pending s p -> p <> q.
Proof.
  intros [x Hq] (rp & Hp & _ & Hds) ->. rewrite Hq in Hp.
  injection Hp as <-. discriminate Hds.
Qed.

Lemma awaited_others onR p s (W : list (nat * nat)) e f0 r0 res0
    (F : nat -> Fn) :
  awaits f0 r0 res0 s (settled_input e) ->
  settled_input e ∉ map snd W ->
  Forall (fun iq => awaited (F (fst iq)) onR p s (snd iq)) W ->
  Forall (fun iq => awaited (F (fst iq)) onR p (input_settled_store e s)
                            (snd iq)) W.
Proof.
  intros Haw Hnin Hall. apply Forall_forall. intros [i' q'] Hin.
  rewrite Forall_forall in Hall. specialize (Hall _ Hin). cbn [fst snd] in *.
  apply (awaited_input_settled _ _ _ _ _ f0 r0 res0); [done| |done].
  intros E. apply Hnin. rewrite <- E.
  apply list_elem_of_fmap. by exists (i', q').
Qed.

(** What one settlement and the turn of the scheduler after it leave, when
    the handler returns [undefined] and has written to the heap at most the
    record of one promise on which nothing waits. *)
Lemma settle_input_frame (user_fn : UserFns) fuel onF0 onR0 res rres e s s1 :
  queue s = [] ->
  awaits onF0 onR0 res s (settled_input e) ->
  settlement_plain e = true ->
  heap s !! res = Some rres ->
  _deferredState rres = 0 ->
  call1 user_fn (S fuel) (if settlement_state e =? 1 then onF0 else onR0)
        (settlement_value e) (input_settled_store e s) = Ok VUndefined s1 ->
  (heap s1 = heap (input_settled_store e s) \/
   exists k rk r',
     heap s1 = <[k := r']> (heap (input_settled_store e s)) /\
     heap (input_settled_store e s) !! k = Some rk /\
     _deferredState rk = 0 /\ _deferredState r' = 0) ->
  queue s1 = [] ->
  exists s',
    settle_input user_fn (S fuel) e s = Ok tt s' /\
    queue s' = [] /\ latches s' = latches s1 /\ allEnvs s' = allEnvs s1 /\
    anyEnvs s' = anyEnvs s1 /\
    (forall onF onR p q,
        q <> settled_input e ->
        awaited onF onR p s q -> awaited onF onR p s' q) /\
    (forall y, y <> res -> heap s' !! y = heap s1 !! y).
Proof.
  intros Hq Haw Hplain Hres Hds Hcall Hheap Hq1.
  assert (res <> settled_input e) as Hne.
  { destruct Haw as [x Hin]. intros E. rewrite E, Hin in Hres.
    injection Hres as <-. discriminate Hds. }
  assert (heap (input_settled_store e s) !! res = Some rres) as Hres0.
  { cbn [input_settled_store heap]. by rewrite list_lookup_insert_ne. }
  assert (exists rres1, heap s1 !! res = Some rres1 /\
                        _deferredState rres1 = 0) as (rres1 & Hres1 & Hds1).
  { destruct Hheap as [->|(k & rk & r' & -> & Hk & Hdk & Hd')].
    - by exists rres.
    - destruct (decide (res = k)) as [->|Hrk].
      + exists r'. split; [|done]. apply list_lookup_insert_eq.
        by apply lookup_lt_Some in Hk.
      + exists rres. by rewrite list_lookup_insert_ne. }
  set (s' := settle_store 1 VUndefined res rres1 s1).
  exists s'. split; [|split; [|split; [|split; [|split; [|split]]]]].
  - apply settle_input_runs with onF0 onR0; try done.
    by apply wf_deferreds_fresh.
  - cbn [s' settle_store queue]. by rewrite Hq1, waiters_fresh.
  - done.
  - done.
  - done.
  - intros onF onR p q Hqne Hawq.
    apply (awaited_heap_insert onF onR p s1 s' res rres1
             (settled 1 VUndefined rres1)); [done|done|done| |].
    { by rewrite settled_fresh. }
    apply (awaited_input_settled onF onR p s e onF0 onR0 res q) in Hawq;
      [|done|done].
    destruct Hheap as [Hh|(k & rk & r' & Hh & Hk & Hdk & Hd')].
    + by apply awaited_same_heap with (input_settled_store e s).
    + by apply (awaited_heap_insert onF onR p (input_settled_store e s) s1
                  k rk r').
  - intros y Hy. cbn [s' settle_store heap].
    by rewrite list_lookup_insert_ne.
Qed.

(** ** [Promise.all] on pending inputs *)







Lemma all_rejected_awaiting_perm env l p W W' reason s :
  W ≡ₚ W' ->
  all_rejected_awaiting env l p W reason s ->
  all_rejected_awaiting env l p W' reason s.
Proof.
  intros HP (Hq & He & Hl & Hp & Hnd & Hall).
  split; [done|]. split; [done|]. split; [done|].
  split; [done|]. split; by rewrite <- HP.
Qed.

Lemma for_each_fmap {A B} (body : B -> M unit) (g : A -> B) xs :
  for_each body (map g xs) = for_each (fun x => body (g x)) xs.
Proof.
  induction xs as [|x xs IH]; [done|]. cbn [map for_each]. by rewrite IH.
Qed.



(** The loop in which a combinator calls [then] on each of its pending
    inputs: each input gets a continuation, for a new promise. *)
Lemma register_inputs (body : nat * nat -> M unit) (F : nat -> Fn) onR aE nE :
  (forall i q s rq,
      allEnvs s = aE -> anyEnvs s = nE ->
      heap s !! q = Some rq -> _state rq = 0 -> _deferredState rq = 0 ->
      body (i, q) s
      = Ok tt (set_heap
                 (<[q := register (mkHandler (Some (F i)) (Some onR)
                                             (length (heap s))) rq]>
                    (heap s ++ [mkPromise 0 0 VNull DNull])) s)) ->
  forall qs k s,
    NoDup qs ->
    Forall (idle_pending s) qs ->
    allEnvs s = aE -> anyEnvs s = nE ->
    exists s',
      for_each body (imap (fun i q => ((k + i)%nat, q)) qs) s = Ok tt s' /\
      latches s' = latches s /\ queue s' = queue s /\
      allEnvs s' = aE /\ anyEnvs s' = nE /\
      (forall y ry, heap s !! y = Some ry -> y ∉ qs ->
                    heap s' !! y = Some ry) /\
      Forall (fun iq =>
                exists res rres,
                  awaits (F (fst iq)) onR res s' (snd iq) /\
                  heap s' !! res = Some rres /\ _deferredState rres = 0 /\
                  (length (heap s) <= res)%nat)
             (imap (fun i q => ((k + i)%nat, q)) qs).
Proof.
  intros Hbody. induction qs as [|q qs IH]; intros k s Hnd Hall HaE HnE.
  - exists s. by repeat split.
  - apply NoDup_cons in Hnd as [Hnin Hnd].
    apply Forall_cons in Hall as [(rq & Hq & Hst & Hds) Hall].
    pose proof (lookup_lt_Some _ _ _ Hq) as Hqlt.
    set (d := mkHandler (Some (F (k + 0)%nat)) (Some onR) (length (heap s))).
    set (s1 := set_heap (<[q := register d rq]>
                           (heap s ++ [mkPromise 0 0 VNull DNull])) s).
    assert (forall y ry, heap s !! y = Some ry -> y <> q ->
                         heap s1 !! y = Some ry) as Hkeep1.
    { intros y ry Hy Hne. cbn [s1 set_heap heap].
      rewrite list_lookup_insert_ne by done. by apply lookup_app_l_Some. }
    assert (Forall (idle_pending s1) qs) as Hall1.
    { apply Forall_forall. intros q' Hq'. rewrite Forall_forall in Hall.
      destruct (Hall q' Hq') as (rq' & Hq'' & Hst' & Hds').
      exists rq'. split; [|done]. apply Hkeep1; [done|].
      intros ->. done. }
    destruct (IH (S k) s1 Hnd Hall1 HaE HnE)
      as (s' & Hrun & Hl & Hqu & HaE' & HnE' & Hkeep & Hres).
    assert (forall B (f : nat -> nat -> B),
              imap (fun i x => f (k + S i)%nat x) qs
              = imap (fun i x => f (S k + i)%nat x) qs) as Hshift.
    { intros B f. apply imap_ext. intros i x _. f_equal. lia. }
    assert (length (heap s) ∉ qs) as Hfresh.
    { intros Hin. rewrite Forall_forall in Hall.
      destruct (Hall _ Hin) as (r' & Hr' & _).
      apply lookup_lt_Some in Hr'. lia. }
    exists s'. split; [|split; [|split; [|split; [|split; [|split]]]]];
      try done.
    + rewrite imap_cons. cbn [for_each]. unfold compose.
      rewrite (bind_ok _ _ _ _ _
                 (Hbody (k + 0)%nat q s rq HaE HnE Hq Hst Hds)).
      fold d. fold s1.
      by rewrite (Hshift _ (fun i x => (i, x))).
    + intros y ry Hy Hny. apply not_elem_of_cons in Hny as [Hyq Hny].
      apply Hkeep; [|done]. by apply Hkeep1.
    + rewrite imap_cons. apply Forall_cons. split.
      * cbn [fst snd]. exists (length (heap s)), (mkPromise 0 0 VNull DNull).
        split; [|split; [|split; [done|lia]]].
        -- exists (_value rq). apply Hkeep; [|done]. cbn [s1 set_heap heap].
           rewrite list_lookup_insert_eq by (rewrite length_app; lia).
           unfold register, set_deferreds, set_deferredState.
           rewrite Hds. cbn. by rewrite Hst.
        -- apply Hkeep; [|done]. cbn [s1 set_heap heap].
           rewrite list_lookup_insert_ne by lia.
           exact (lookup_alloc (heap s) _).
      * unfold compose. rewrite (Hshift _ (fun i x => (i, x))).
        eapply Forall_impl; [exact Hres|].
        intros [i' q'] (res & rres & Haw & Hr & Hd & Hle).
        exists res, rres. split; [done|]. split; [done|]. split; [done|].
        cbn [s1 set_heap heap] in Hle.
        rewrite length_insert, length_app in Hle. lia.
Qed.



Lemma idle_pending_below s q : idle_pending s q -> (q < length (heap s))%nat.
Proof. intros (r & Hr & _). by apply lookup_lt_Some in Hr. Qed.









(** ** [Promise.all]: arrival order and input order *)



(** ** [Promise.any] on pending inputs *)

Lemma any_awaiting_perm env l p W W' reasons s :
  W ≡ₚ W' ->
  any_awaiting env l p W reasons s -> any_awaiting env l p W' reasons s.
Proof.
  intros HP (Hq & He & Hl & Hp & Hnd & Hall).
  split; [done|]. split; [by rewrite <- HP|]. split; [done|].
  split; [done|]. split; by rewrite <- HP.
Qed.

Lemma Forall_awaited_others onF onR p s s' q0 (W : list nat) :
  (forall onF onR p q,
      q <> q0 -> awaited onF onR p s q -> awaited onF onR p s' q) ->
  q0 ∉ W ->
  Forall (awaited onF onR p s) W ->
  Forall (awaited onF onR p s') W.
Proof.
  intros Hkeep Hnin Hall. apply Forall_forall. intros q' Hin.
  rewrite Forall_forall in Hall. apply Hkeep; [|by apply Hall].
  by intros ->.
Qed.

(** A rejection arrives for an input that is not the last one awaited: its
    reason goes to the end of [rejectionReasons]. *)
Lemma any_input_rejects_not_last (user_fn : UserFns) fuel env l p q W reasons
    reason s :
  any_awaiting env l p (q :: W) reasons s ->
  W <> [] ->
  exists s',
    settle_input user_fn (S (S (S (S fuel)))) (Rejects q reason) s
    = Ok tt s' /\
    any_awaiting env l p W (reasons ++ [reason]) s'.
Proof.
  intros (Hq & He & Hl & Hp & Hnd & Hall) HW.
  apply Forall_cons in Hall
    as [(res & rres & Haw & Hres & Hds & Hresp) Hall].
  apply NoDup_cons in Hnd as [Hnin Hnd].
  pose proof (idle_not_awaiting _ _ _ _ _ _ Haw Hp) as Hpq.
  set (e0 := mkAnyEnv (length reasons + length (q :: W)) false reasons
                      (FnResolveCb l p) (FnRejectCb l p)) in *.
  set (ev := Rejects q reason).
  set (mid := input_settled_store ev s).
  set (s1 := mkState (heap mid) (latches mid) (queue mid) (allEnvs mid)
                     (<[env := any_env_with e0 (reasons ++ [reason])]>
                        (anyEnvs mid))).
  assert (call1 user_fn (S (S (S (S fuel)))) (FnAnyRejectionCheck env) reason
                mid = Ok VUndefined s1) as Hcall.
  { apply (rejectionCheck_not_last user_fn _ env e0 reason mid); [exact He|].
    cbn [e0 any_rejectionReasons any_length]. rewrite length_app.
    destruct W; [done|]. cbn [length]. lia. }
  destruct (settle_input_frame user_fn (S (S (S fuel))) (FnAnyResolveOnce env)
              (FnAnyRejectionCheck env) res rres ev s s1
              Hq Haw eq_refl Hres Hds Hcall (or_introl eq_refl) eq_refl)
    as (s' & Hrun & Hq' & Hl' & HaE & HnE & Hkeep & Hheap).
  exists s'. split; [exact Hrun|].
  split; [done|]. split; [|split; [|split; [|split]]].
  - rewrite HnE. cbn [s1 anyEnvs mid input_settled_store].
    rewrite list_lookup_insert_eq by (by apply lookup_lt_Some in He).
    unfold any_env_with.
    cbn [e0 any_length any_hasResolved any_resolve any_reject].
    do 2 f_equal. rewrite length_app. cbn [length]. lia.
  - by rewrite Hl'.
  - destruct Hp as (rp & Hp & Hst & Hdp). exists rp. split; [|done].
    rewrite Hheap by done. cbn [s1 heap mid input_settled_store].
    by rewrite list_lookup_insert_ne.
  - done.
  - by apply (Forall_awaited_others _ _ _ s s' q).
Qed.

(** The last rejection awaited arrives: the promise of [any] is rejected
    with the aggregate of the reasons, in the order in which they came. *)
Lemma any_input_rejects_last (user_fn : UserFns) fuel env l p q reasons
    reason s :
  any_awaiting env l p [q] reasons s ->
  exists s',
    settle_input user_fn (S (S (S (S fuel)))) (Rejects q reason) s
    = Ok tt s' /\
    rejected_with s' p (getAggregateError (reasons ++ [reason])).
Proof.
  intros (Hq & He & Hl & Hp & Hnd & Hall).
  apply Forall_cons in Hall
    as [(res & rres & Haw & Hres & Hds & Hresp) Hall].
  pose proof (idle_not_awaiting _ _ _ _ _ _ Haw Hp) as Hpq.
  destruct Hp as (rp & Hp & Hst & Hdp).
  set (e0 := mkAnyEnv (length reasons + length [q]) false reasons
                      (FnResolveCb l p) (FnRejectCb l p)) in *.
  set (ev := Rejects q reason).
  set (mid := input_settled_store ev s).
  assert (heap mid !! p = Some rp) as Hpm.
  { cbn [mid input_settled_store heap]. by rewrite list_lookup_insert_ne. }
  set (s1 := any_all_rejected_store env l p e0 rp (reasons ++ [reason]) mid).
  assert (call1 user_fn (S (S (S (S fuel)))) (FnAnyRejectionCheck env) reason
                mid = Ok VUndefined s1) as Hcall.
  { apply (rejectionCheck_last user_fn _ env e0 reason l p rp mid);
      try done.
    - cbn [e0 any_rejectionReasons any_length]. rewrite length_app.
      cbn [length]. lia.
    - by apply wf_deferreds_fresh. }
  destruct (settle_input_frame user_fn (S (S (S fuel))) (FnAnyResolveOnce env)
              (FnAnyRejectionCheck env) res rres ev s s1
              Hq Haw eq_refl Hres Hds Hcall)
    as (s' & Hrun & Hq' & Hl' & HaE & HnE & Hkeep & Hheap).
  { right.
    exists p, rp, (settled 2 (getAggregateError (reasons ++ [reason])) rp).
    split; [done|]. split; [done|]. split; [done|]. by rewrite settled_fresh. }
  { cbn [s1 any_all_rejected_store settle_store queue set_latch mid
         input_settled_store].
    by rewrite waiters_fresh. }
  exists s'. split; [exact Hrun|].
  exists (settled 2 (getAggregateError (reasons ++ [reason])) rp).
  split; [|done]. rewrite Hheap by done.
  unfold s1, any_all_rejected_store. by apply lookup_settle_store.
Qed.

(** Every input is rejected, in any order of arrival. *)
Lemma any_run_rejections (user_fn : UserFns) fuel env l p :
  forall (T : list (nat * Value)) reasons s,
    T <> [] ->
    any_awaiting env l p (map fst T) reasons s ->
    exists s',
      for_each (fun t => settle_input user_fn (S (S (S (S fuel))))
                                      (Rejects (fst t) (snd t))) T s
      = Ok tt s' /\
      rejected_with s' p (getAggregateError (reasons ++ map snd T)).
Proof.
  induction T as [|[q reason] T IH]; intros reasons s Hne Hinv; [done|].
  cbn [map fst snd for_each] in *. destruct T as [|t T].
  - destruct (any_input_rejects_last user_fn fuel env l p q reasons reason s
                Hinv) as (s' & Hrun & Hrej).
    exists s'. split; [|exact Hrej].
    by rewrite (bind_ok _ _ _ _ _ Hrun).
  - destruct (any_input_rejects_not_last user_fn fuel env l p q
                (map fst (t :: T)) reasons reason s Hinv ltac:(done))
      as (s1 & Hrun & Hinv1).
    destruct (IH (reasons ++ [reason]) s1 ltac:(done) Hinv1)
      as (s' & Hrest & Hrej).
    exists s'. split.
    + by rewrite (bind_ok _ _ _ _ _ Hrun).
    + by rewrite <- app_assoc in Hrej.
Qed.

(** [Promise.any] called with pending promises on which nothing waits
    returns a pending promise and awaits every input. *)
Lemma Promise_any_awaiting (user_fn : UserFns) fuel qs s :
  qs <> [] ->
  NoDup qs ->
  queue s = [] ->
  Forall (idle_pending s) qs ->
  exists s1,
    Promise_any user_fn (S (S (S (S fuel)))) (map VPromise qs) s
    = Ok (length (heap s)) s1 /\
    any_awaiting (length (anyEnvs s)) (length (latches s)) (length (heap s))
                 qs [] s1.
Proof.
  intros Hne Hnd Hq Hall.
  set (p := length (heap s)). set (l := length (latches s)).
  set (env := length (anyEnvs s)).
  set (e0 := mkAnyEnv (length (map VPromise qs)) false []
                      (FnResolveCb l p) (FnRejectCb l p)).
  set (s0 := mkState (heap s ++ [mkPromise 0 0 VNull DNull])
                     (latches s ++ [false]) (queue s) (allEnvs s)
                     (anyEnvs s ++ [e0])).
  assert (Forall (idle_pending s0) qs) as Hall0.
  { eapply Forall_impl; [exact Hall|]. intros q (rq & Hrq & Hst & Hds).
    exists rq. split; [|done]. by apply lookup_app_l_Some. }
  destruct (register_inputs
              (fun iq : nat * nat =>
                 q <- Promise_resolve_with
                        (doResolve user_fn (S (S fuel))) (VPromise (snd iq)) ;;
                 then_ (S (S (S fuel))) q (VFunction (FnAnyResolveOnce env))
                       (VFunction (FnAnyRejectionCheck env)) ;;;
                 ret tt)
              (fun _ => FnAnyResolveOnce env) (FnAnyRejectionCheck env)
              (allEnvs s) (anyEnvs s ++ [e0]))
    with (qs := qs) (k := 0%nat) (s := s0)
    as (s1 & Hrun & Hl1 & Hq1 & HaE & HnE & Hkeep & Hres); try done.
  { intros i q s' rq HaE HnE Hrq Hst Hds. cbn [snd Promise_resolve_with].
    rewrite (bind_ok (ret q) _ s' q s' eq_refl).
    set (d := mkHandler (Some (FnAnyResolveOnce env))
                        (Some (FnAnyRejectionCheck env)) (length (heap s'))).
    set (s0' := set_heap (heap s' ++ [mkPromise 0 0 VNull DNull]) s').
    assert (handle (S (S (S fuel))) q d s0'
            = Ok tt (set_heap (<[q := register d rq]> (heap s0')) s0'))
      as Hhandle.
    { apply (handle_pending _ q rq).
      - cbn [s0' set_heap heap]. by apply lookup_app_l_Some.
      - done.
      - unfold registrable, wf_deferreds. by rewrite Hds. }
    unfold then_. unfold bind at 1.
    rewrite (bind_ok new_noop _ s' _ _ eq_refl).
    unfold new_Handler. cbn [as_callable]. fold d. fold s0'.
    by rewrite (bind_ok _ _ _ _ _ Hhandle). }
  exists s1. split.
  - unfold Promise_any. eapply new_Promise_returns with (b := false).
    + cbn [call2]. fold p. fold l.
      erewrite bind_ok by reflexivity. fold e0. fold env.
      change (mkState _ _ _ _ _) with s0.
      destruct (Nat.eqb_spec (length (map VPromise qs)) 0) as [Hz|_].
      { rewrite length_map in Hz. by destruct qs. }
      assert (map VPromise qs
              = map (fun iq : nat * nat => VPromise (snd iq))
                    (imap (fun i q => ((0 + i)%nat, q)) qs)) as ->.
      { apply list_eq. intros i.
        rewrite !list_lookup_fmap, list_lookup_imap.
        by destruct (qs !! i). }
      rewrite for_each_fmap. exact Hrun.
    + fold l. rewrite Hl1. cbn [s0 latches]. by apply list_lookup_middle.
  - split; [by rewrite Hq1|]. split; [|split; [|split; [|split]]].
    + rewrite HnE. cbn [length Nat.add]. rewrite <- (length_map VPromise qs).
      by apply list_lookup_middle.
    + rewrite Hl1. cbn [s0 latches]. by apply list_lookup_middle.
    + exists (mkPromise 0 0 VNull DNull). split; [|done].
      apply Hkeep; [exact (lookup_alloc (heap s) _)|].
      intros Hin. rewrite Forall_forall in Hall.
      apply Hall, idle_pending_below in Hin. unfold p in Hin. lia.
    + done.
    + apply Forall_forall. intros q Hqin.
      apply list_elem_of_lookup in Hqin as [i Hi].
      rewrite Forall_forall in Hres.
      destruct (Hres ((0 + i)%nat, q)) as (res & rres & Haw & Hr & Hd & Hle).
      { by apply (elem_of_lookup_imap_2 (fun i q => ((0 + i)%nat, q))). }
      exists res, rres. split; [done|]. split; [done|]. split; [done|].
      cbn [s0 heap] in Hle. rewrite length_app in Hle. cbn in Hle.
      unfold p. lia.
Qed.

(** C4 (the code departs from the claim): the aggregate error of
    [Promise.any] lists the reasons in the order in which the rejections
    reach [rejectionCheck], not in the order of the inputs.  For inputs
    that are pending when [any] is called (distinct promises on which
    nothing else waits, the scheduler being idle), [any] returns a pending
    promise and schedules nothing; when the inputs are then rejected one
    after the other, in any order, each rejection followed by a turn of
    the scheduler, the promise is rejected with the aggregate of the
    reasons in that order of arrival.  So for two inputs of which the
    second is rejected first, with reasons that differ, the aggregate lists
    the reason of the second input before that of the first, and is not
    the aggregate in input order.  The other half of the claim holds:
    [Promise.any] of the empty sequence returns a promise that is already
    rejected with an aggregate of no reason, with nothing scheduled. *)
Theorem any_aggregates_in_arrival_order (user_fn : UserFns) fuel :
  (forall qs s,
      qs <> [] ->
      NoDup qs ->
      queue s = [] ->
      Forall (idle_pending s) qs ->
      exists s1,
        Promise_any user_fn (S (S (S (S fuel)))) (map VPromise qs) s
        = Ok (length (heap s)) s1 /\
        pending s1 (length (heap s)) /\
        queue s1 = [] /\
        forall arrival : list (nat * Value),
          map fst arrival ≡ₚ qs ->
          exists s2,
            for_each (fun t => settle_input user_fn (S (S (S (S fuel))))
                                            (Rejects (fst t) (snd t)))
                     arrival s1 = Ok tt s2 /\
            rejected_with s2 (length (heap s))
                          (getAggregateError (map snd arrival))) /\
  (forall q1 q2 a b s,
      q1 <> q2 ->
      a <> b ->
      queue s = [] ->
      idle_pending s q1 ->
      idle_pending s q2 ->
      exists s1 s2,
        Promise_any user_fn (S (S (S (S fuel)))) [VPromise q1; VPromise q2] s
        = Ok (length (heap s)) s1 /\
        (settle_input user_fn (S (S (S (S fuel)))) (Rejects q2 b) ;;;
         settle_input user_fn (S (S (S (S fuel)))) (Rejects q1 a)) s1
        = Ok tt s2 /\
        rejected_with s2 (length (heap s)) (getAggregateError [b; a]) /\
        ~ rejected_with s2 (length (heap s)) (getAggregateError [a; b])) /\
  (forall s0, exists s',
      Promise_any user_fn (S (S (S fuel))) [] s0 = Ok (length (heap s0)) s' /\
      rejected_with s' (length (heap s0)) (getAggregateError []) /\
      queue s' = queue s0).
Proof.
  assert (forall qs s,
      qs <> [] ->
      NoDup qs ->
      queue s = [] ->
      Forall (idle_pending s) qs ->
      exists s1,
        Promise_any user_fn (S (S (S (S fuel)))) (map VPromise qs) s
        = Ok (length (heap s)) s1 /\
        pending s1 (length (heap s)) /\
        queue s1 = [] /\
        forall arrival : list (nat * Value),
          map fst arrival ≡ₚ qs ->
          exists s2,
            for_each (fun t => settle_input user_fn (S (S (S (S fuel))))
                                            (Rejects (fst t) (snd t)))
                     arrival s1 = Ok tt s2 /\
            rejected_with s2 (length (heap s))
                          (getAggregateError (map snd arrival))) as Hgen.
  { intros qs s Hne Hnd Hq Hall.
    destruct (Promise_any_awaiting user_fn fuel qs s Hne Hnd Hq Hall)
      as (s1 & Hrun & Hinv).
    exists s1. split; [exact Hrun|].
    pose proof Hinv as (Hq1 & _ & _ & (rp & Hp & Hst & _) & _).
    split; [by exists rp|]. split; [done|].
    intros arrival Hperm.
    apply (any_awaiting_perm _ _ _ _ (map fst arrival)) in Hinv; [|done].
    apply (any_run_rejections user_fn fuel (length (anyEnvs s))
             (length (latches s)) (length (heap s)) arrival [] s1); [|done].
    intros ->. apply Permutation_nil in Hperm. done. }
  split; [exact Hgen|]. split; [|intros s0; apply Promise_any_empty].
  intros q1 q2 a b s Hne Hab Hq H1 H2.
  destruct (Hgen [q1; q2] s) as (s1 & Hrun & _ & _ & Harr); [done| |done| |].
  { apply NoDup_cons. split; [|apply NoDup_singleton].
    by intros ->%list_elem_of_singleton. }
  { by repeat constructor. }
  destruct (Harr [(q2, b); (q1, a)]) as (s2 & Hrun2 & Hrej).
  { apply perm_swap. }
  exists s1, s2. split; [exact Hrun|]. split; [|split; [exact Hrej|]].
  - cbn [for_each fst snd] in Hrun2. unfold bind in *.
    destruct (settle_input user_fn (S (S (S (S fuel)))) (Rejects q2 b) s1)
      as [[] s1'| | |]; try done.
    by destruct (settle_input user_fn (S (S (S (S fuel)))) (Rejects q1 a) s1')
      as [[] s2'| | |].
  - intros (r' & Hr' & _ & Hv'). destruct Hrej as (r & Hr & _ & Hv).
    rewrite Hr in Hr'. injection Hr' as <-. rewrite Hv in Hv'.
    injection Hv' as E _. by apply Hab.
Qed.

Lemma any_aggregates_in_arrival_order_witness :
  exists s1 s2,
    Promise_any sample_fn 4 [VPromise 0; VPromise 1] three_pending_state
    = Ok 3%nat s1 /\
    (settle_input sample_fn 4 (Rejects 1 (VStr "b")) ;;;
     settle_input sample_fn 4 (Rejects 0 (VStr "a"))) s1 = Ok tt s2 /\
    rejected_with s2 3 (getAggregateError [VStr "b"; VStr "a"]) /\
    ~ rejected_with s2 3 (getAggregateError [VStr "a"; VStr "b"]).
Proof.
  apply (proj1 (proj2 (any_aggregates_in_arrival_order sample_fn 0))
           0%nat 1%nat (VStr "a") (VStr "b") three_pending_state).
  - discriminate.
  - discriminate.
  - reflexivity.
  - by eexists.
  - by eexists.
Defined.

(** ** The two completion callbacks, once one of them has been called *)

Lemma latched_run_task (user_fn : UserFns) l fuel t :
  keeps (latched l) (run_task user_fn fuel t).
Proof.
  pose proof (latched_interpreter user_fn l fuel) as (Hr & _ & Hc & _).
  destruct t as [self d]. unfold run_task.
  apply keeps_bind; [apply keeps_get_promise|]. intros r. cbv zeta.
  destruct (_state r =? 1).
  - destruct (onFulfilled d) as [cb|]; [|apply Hr].
    apply keeps_bind; [apply keeps_try_catch, Hc|].
    intros [v|ex]; [apply Hr|apply latched_settle].
  - destruct (onRejected d) as [cb|]; [|apply latched_settle].
    apply keeps_bind; [apply keeps_try_catch, Hc|].
    intros [v|ex]; [apply Hr|apply latched_settle].
Qed.

Lemma latched_step_scheduler (user_fn : UserFns) l fuel :
  keeps (latched l) (step user_fn fuel).
Proof.
  intros s Hs. unfold step. destruct (queue s) as [|t q]; [done|].
  set (s0 := mkState (heap s) (latches s) q (allEnvs s) (anyEnvs s)).
  pose proof (latched_run_task user_fn l fuel t s0 Hs) as Hrun.
  unfold bind. by destruct (run_task user_fn fuel t s0).
Qed.

Lemma latched_mapAllSettled (user_fn : UserFns) l fuel item :
  keeps (latched l) (mapAllSettled user_fn fuel item).
Proof.
  pose proof (latched_interpreter user_fn l fuel) as (_ & Hd & _).
  unfold mapAllSettled.
  assert (keeps (latched l)
            (if is_object_or_function item then
               then' <- read_then item ;;
               match then' with
               | ThenFunction then_bind_item =>
                   p <- new_Promise (doResolve user_fn fuel)
                                    (ExScript then_bind_item) ;;
                   q <- then_ fuel p (VFunction FnOnSettledFulfill)
                              (VFunction FnOnSettledReject) ;;
                   ret (VPromise q)
               | _ => ret (onSettledFulfill item)
               end
             else ret (onSettledFulfill item))) as Hother.
  { destruct (is_object_or_function item); [|apply keeps_ret].
    apply keeps_bind; [apply keeps_read_then|].
    intros [|body|]; try apply keeps_ret.
    apply keeps_bind; [by apply latched_new_Promise|]. intros q.
    apply keeps_bind; [apply latched_then|]. intros; apply keeps_ret. }
  destruct item; try exact Hother.
  apply keeps_bind; [apply latched_then|]. intros; apply keeps_ret.
Qed.

Lemma latched_exec_op (user_fn : UserFns) l fuel op :
  keeps (latched l) (exec_op user_fn fuel op).
Proof.
  pose proof (latched_interpreter user_fn l fuel) as (_ & Hd & Hc & _).
  destruct op; (apply keeps_bind; [|intros; apply keeps_ret]).
  - apply latched_then.
  - apply latched_step_scheduler.
  - apply Hc.
  - by apply latched_new_Promise.
  - by apply latched_Promise_resolve_with.
  - by apply latched_new_Promise.
  - by apply latched_new_Promise.
  - apply keeps_bind.
    + apply keeps_map_m. intros; apply latched_mapAllSettled.
    + intros items. by apply latched_new_Promise.
  - by apply latched_new_Promise.
  - by apply latched_new_Promise.
Qed.

(** X24: each of the two completion callbacks that [doResolve] makes sets
    the [done] variable of its activation before it does anything else;
    once the variable is set it stays set, whatever the library runs (the
    five functions of the interpreter, and every operation that a program
    performs on the library); and in every store in which it is set, a
    call of either callback, with any argument, returns [undefined] and
    leaves the whole store as it is, so that a sequence of operations run
    from such a store does exactly what the same sequence does with the
    calls of the two callbacks taken out.  The callers covered are the
    closures of the scheduler, the closures of the library and the
    operations of the program; a user function or a thenable that calls
    the callbacks of an outer activation from inside the first call is not
    expressible in this model. *)
Theorem completion_callbacks_ignored_once_called (user_fn : UserFns)
    fuel l p first v s :
  latches s !! l = Some false ->
  call1 user_fn (S fuel) (completion_callback first l p) v s
  = ((if first then resolve user_fn fuel p v else reject (S fuel) p v) ;;;
     ret VUndefined) (set_latch l s) /\
  latched l (set_latch l s) /\
  (forall fuel', interpreter_keeps user_fn (latched l) fuel') /\
  (forall fuel' op, keeps (latched l) (exec_op user_fn fuel' op)) /\
  (forall s' fuel' b w,
      latched l s' ->
      call1 user_fn fuel' (completion_callback b l p) w s' = Ok VUndefined s') /\
  (forall s' fuel' ops,
      latched l s' ->
      for_each (exec_op user_fn fuel') ops s'
      = for_each (exec_op user_fn fuel')
                 (List.filter (fun op => negb (calls_callback l p op)) ops)
                 s').
Proof.
  intros Hl. split; [|split; [|split; [|split; [|split]]]].
  - destruct first; cbn [completion_callback call1];
      rewrite (bind_ok _ _ _ _ _ (get_done_ok _ _ _ Hl)); cbn [negb];
      by rewrite (bind_ok _ _ _ _ _ (set_done_ok _ _ _ Hl)).
  - unfold latched. cbn [set_latch latches]. apply list_lookup_insert_eq.
    by apply lookup_lt_Some in Hl.
  - intros fuel'. apply latched_interpreter.
  - intros fuel' op. apply latched_exec_op.
  - intros s' fuel' b w Hs'. by apply completion_callback_ignored.
  - intros s' fuel' ops. revert s'.
    induction ops as [|op ops IH]; intros s' Hs'; [done|].
    cbn [List.filter for_each].
    destruct (calls_callback l p op) eqn:Hop; cbn [negb].
    + assert (exec_op user_fn fuel' op s' = Ok tt s') as Hign.
      { destruct op as [| |f a| | | | | | |]; try discriminate Hop.
        destruct f as [|k q|k q| | | | |]; try discriminate Hop;
          cbn [calls_callback] in Hop;
          apply andb_prop in Hop as [->%Nat.eqb_eq ->%Nat.eqb_eq];
          cbn [exec_op].
        - by rewrite (bind_ok _ _ _ _ _
                        (completion_callback_ignored user_fn fuel' true l p
                           a s' Hs')).
        - by rewrite (bind_ok _ _ _ _ _
                        (completion_callback_ignored user_fn fuel' false l p
                           a s' Hs')). }
      rewrite (bind_ok _ _ _ _ _ Hign). by apply IH.
    + cbn [for_each]. unfold bind.
      pose proof (latched_exec_op user_fn l fuel' op s' Hs') as Hk.
      destruct (exec_op user_fn fuel' op s') as [[] s1|ex s1| |]; try done.
      by apply IH.
Qed.

Lemma completion_callbacks_ignored_once_called_witness :
  call1 sample_fn 1 (FnResolveCb 0 1) (VNum 3)
    (mkState [mkPromise 0 1 (VNum 9) DNull; mkPromise 0 0 VNull DNull]
             [false] [] [] [])
  = Ok VUndefined
       (mkState [mkPromise 0 1 (VNum 9) DNull; mkPromise 0 1 (VNum 3) DNull]
                [true] [] [] []) /\
  for_each (exec_op sample_fn 1)
    [OpCall (FnResolveCb 0 1) (VNum 4); OpCall (FnRejectCb 0 1) (VStr "late");
     OpThen 1 VUndefined VUndefined; OpCall (FnResolveCb 0 1) (VPromise 0)]
    (mkState [mkPromise 0 1 (VNum 9) DNull; mkPromise 0 1 (VNum 3) DNull]
             [true] [] [] [])
  = for_each (exec_op sample_fn 1) [OpThen 1 VUndefined VUndefined]
      (mkState [mkPromise 0 1 (VNum 9) DNull; mkPromise 0 1 (VNum 3) DNull]
               [true] [] [] []).
Proof.
  pose proof (completion_callbacks_ignored_once_called sample_fn 0 0 1 true
                (VNum 3)
                (mkState [mkPromise 0 1 (VNum 9) DNull;
                          mkPromise 0 0 VNull DNull] [false] [] [] [])
                eq_refl) as (H1 & H2 & _ & _ & _ & H6).
  split; [exact H1|].
  exact (H6 (mkState [mkPromise 0 1 (VNum 9) DNull;
                      mkPromise 0 1 (VNum 3) DNull] [true] [] [] [])
            1%nat
            [OpCall (FnResolveCb 0 1) (VNum 4);
             OpCall (FnRejectCb 0 1) (VStr "late");
             OpThen 1 VUndefined VUndefined;
             OpCall (FnResolveCb 0 1) (VPromise 0)] eq_refl).
Defined.
